(** * nqs-playground: Monte Carlo sampling and local-value checks

    A shallow embedding of the parts of [nqs_playground/monte_carlo.py] and
    [nqs_playground/hamiltonian.py] that the specification talks about:

    - [SamplingOptions.__init__]        (validation of the sampling options)
    - [_random_spin_configuration]      (random initial configurations)
    - [safe_exp]                        (stabilised soft-max)
    - [autocorr_function], [_auto_window], [integrated_autocorr_time]
    - [_array_to_int], [reference_log_apply], [log_apply] (debug check)
    - [sample_exactly]
    - [metropolis_process]              (the Metropolis-Hastings sampler)

    Python exceptions are values of [Exn]; a fallible function returns
    [Exn + A], with [inl] the raised exception and [inr] the returned value.
    Tensors and arrays of rank one are lists; the random sources are explicit
    arguments. *)

From Stdlib Require Import ZArith QArith Reals Lra Lia Bool String Ascii.
From Stdlib Require PrimFloat Uint63.
From stdpp Require Import base list.


(** ** Exceptions and the error monad *)

Inductive Exn : Type :=
| ValueError (msg : string) (arg : Z)
| AssertionError (msg : string)
| NameError (name : string)
| TypeError (msg : string)
| IndexError (msg : string)
| RuntimeError (msg : string).

Definition raise {A} (e : Exn) : Exn + A := inl e.
Definition ret {A} (a : A) : Exn + A := inr a.
Definition bind {A B} (m : Exn + A) (k : A -> Exn + B) : Exn + B :=
  match m with
  | inl e => inl e
  | inr a => k a
  end.

Declare Scope exn_scope.
Delimit Scope exn_scope with exn.
Notation "'do' x <- m ; k" := (bind m (fun x => k))
  (at level 10, x name, m at level 100, k at level 200) : exn_scope.
Notation "'do' ' p <- m ; k" := (bind m (fun x => match x with p => k end))
  (at level 10, p pattern, m at level 100, k at level 200) : exn_scope.

Definition returns {A} (m : Exn + A) : Prop := exists a, m = inr a.
Definition raises {A} (m : Exn + A) : Prop := exists e, m = inl e.

Lemma returns_not_raises {A} (m : Exn + A) : returns m -> ~ raises m.
Proof. intros [a ->] [e He]. discriminate. Qed.

Lemma returns_or_raises {A} (m : Exn + A) : returns m \/ raises m.
Proof. destruct m as [e|a]; [right|left]; eexists; reflexivity. Qed.

(** A [torch.device]. *)
Inductive device : Type := cpu | cuda (index : nat).

(** ** [SamplingOptions] *)

Module Options.

Record SamplingOptions : Type := mkSamplingOptions {
  number_samples : Z;
  number_chains : Z;
  number_discarded : Z;
  sweep_size : Z;
  device_of : device
}.

(** [SamplingOptions.__init__].  The arguments are Python integers (so
    [int(.)] is the identity on them) and [device] is a valid device.  The
    second component of [ValueError] is the value that the source formats
    into the message. *)
Definition init (number_samples number_chains : Z) (number_discarded : option Z)
    (sweep_size : Z) (dev : device) : Exn + SamplingOptions :=
  if (number_samples <=? 0)%Z then
    raise (ValueError "negative number_samples: {}" number_samples)
  else if (number_chains <=? 0)%Z then
    raise (ValueError "negative number_chains: {}" number_chains)
  else
    (do nd <-
       match number_discarded with
       | Some d =>
           if (d <=? 0)%Z then
             raise (ValueError
               "invalid number_discarded: {}; expected either a positive integer or None"
               number_chains)
           else ret d
       | None => ret (number_samples / 10)%Z
       end;
     if (sweep_size <=? 0)%Z then
       raise (ValueError "negative sweep_size: {}" sweep_size)
     else
       ret (mkSamplingOptions number_samples number_chains nd sweep_size dev))%exn.

(** The condition under which the source accepts its arguments. *)
Definition valid (number_samples number_chains : Z) (number_discarded : option Z)
    (sweep_size : Z) : Prop :=
  (0 < number_samples)%Z /\ (0 < number_chains)%Z /\ (0 < sweep_size)%Z /\
  match number_discarded with
  | None => True
  | Some d => (0 < d)%Z
  end.

(** The condition as the specification words it ([number_discarded >= 0]). *)
Definition spec_valid (number_samples number_chains : Z)
    (number_discarded : option Z) (sweep_size : Z) : Prop :=
  (0 < number_samples)%Z /\ (0 < number_chains)%Z /\ (0 < sweep_size)%Z /\
  match number_discarded with
  | None => True
  | Some d => (0 <= d)%Z
  end.

Definition is_ValueError {A} (m : Exn + A) : Prop :=
  exists msg arg, m = inl (ValueError msg arg).

(** C6, as amended: construction succeeds exactly when the three counts are
    positive and [number_discarded] is [None] or positive; on success every
    field holds the value that was passed ([number_samples // 10] for a
    missing [number_discarded]), and every failure is a [ValueError]. *)
Theorem init_succeeds_iff_valid (ns nc : Z) (nd : option Z) (ss : Z) (dev : device) :
  (returns (init ns nc nd ss dev) <-> valid ns nc nd ss) /\
  (valid ns nc nd ss ->
     init ns nc nd ss dev =
     inr (mkSamplingOptions ns nc
            (match nd with Some d => d | None => (ns / 10)%Z end) ss dev)) /\
  (~ valid ns nc nd ss -> is_ValueError (init ns nc nd ss dev)).
Proof.
  assert (Hok : valid ns nc nd ss ->
     init ns nc nd ss dev =
     inr (mkSamplingOptions ns nc
            (match nd with Some d => d | None => (ns / 10)%Z end) ss dev)).
  { intros (Hns & Hnc & Hss & Hnd). unfold init, bind, ret.
    destruct (Z.leb_spec ns 0); [lia|]. destruct (Z.leb_spec nc 0); [lia|].
    destruct nd as [d|].
    - destruct (Z.leb_spec d 0); [lia|]. destruct (Z.leb_spec ss 0); [lia|]. reflexivity.
    - destruct (Z.leb_spec ss 0); [lia|]. reflexivity. }
  assert (Hbad : ~ valid ns nc nd ss -> is_ValueError (init ns nc nd ss dev)).
  { intros Hnot. unfold init, bind, ret, raise, is_ValueError.
    destruct (Z.leb_spec ns 0); [eauto|]. destruct (Z.leb_spec nc 0); [eauto|].
    destruct nd as [d|].
    - destruct (Z.leb_spec d 0); [eauto|]. destruct (Z.leb_spec ss 0); [eauto|].
      exfalso; apply Hnot; unfold valid; lia.
    - destruct (Z.leb_spec ss 0); [eauto|].
      exfalso; apply Hnot; unfold valid; repeat split; lia. }
  split; [|split; assumption].
  split.
  - intros [o Ho]. destruct nd as [d|]; unfold valid.
    + destruct (Z_lt_dec 0 ns), (Z_lt_dec 0 nc), (Z_lt_dec 0 ss), (Z_lt_dec 0 d);
        try (repeat split; assumption);
        destruct Hbad as (msg & arg & Hm); unfold valid; try lia; congruence.
    + destruct (Z_lt_dec 0 ns), (Z_lt_dec 0 nc), (Z_lt_dec 0 ss);
        try (repeat split; assumption);
        destruct Hbad as (msg & arg & Hm); unfold valid; try lia; congruence.
  - intros Hv. rewrite (Hok Hv). eexists; reflexivity.
Qed.

(** C6, as stated, fails: [number_discarded = 0] satisfies the condition of
    the specification, and the constructor raises. *)
Lemma init_rejects_zero_discarded :
  spec_valid 10 1 (Some 0%Z) 1 /\
  init 10 1 (Some 0%Z) 1 cpu =
  inl (ValueError
         "invalid number_discarded: {}; expected either a positive integer or None" 1).
Proof. split; [unfold spec_valid; lia | reflexivity]. Qed.

End Options.

(** ** [_random_spin_configuration] *)

Module RandomSpin.

Local Open Scope Z_scope.

(** [random.randint(a, b)]: a draw from the closed interval [[a, b]]
    ([randrange(a, b + 1)], that is [a + _randbelow(b - a + 1)]).  The
    generator's contribution is the entropy [e]; an empty interval raises. *)
Definition randint (a b : Z) (e : Z) : Exn + Z :=
  if b <? a then raise (ValueError "empty range for randrange()" (b - a + 1))
  else ret (a + e mod (b - a + 1)).

(** Python's [x << k] on integers. *)
Definition py_lshift (x k : Z) : Exn + Z :=
  if k <? 0 then raise (ValueError "negative shift count" k)
  else ret (Z.shiftl x k).

(** [int(s, base=2)] for a string of binary digits, most significant first. *)
Fixpoint int_base2_from (acc : Z) (s : string) : Exn + Z :=
  match s with
  | EmptyString => ret acc
  | String c rest =>
      if Ascii.eqb c "0" then int_base2_from (2 * acc) rest
      else if Ascii.eqb c "1" then int_base2_from (2 * acc + 1) rest
      else raise (ValueError "invalid literal for int() with base 2" 2)
  end.

Definition int_base2 (s : string) : Exn + Z :=
  match s with
  | EmptyString => raise (ValueError "invalid literal for int() with base 2" 2)
  | _ => int_base2_from 0 s
  end.

(** [_random_spin_configuration(n, hamming_weight)].  [shuffle] is the
    permutation that [np.random.shuffle] applies and [e] the entropy that
    [randint] consumes.  In the source [1 << n - 1] parses as
    [1 << (n - 1)]. *)
Definition _random_spin_configuration (shuffle : list string -> list string)
    (e : Z) (n : Z) (hamming_weight : option Z) : Exn + Z :=
  match hamming_weight with
  | Some hw =>
      if (0 <=? hw) && (hw <=? n) then
        let bits := repeat "1"%string (Z.to_nat hw) ++
                    repeat "0"%string (Z.to_nat (n - hw)) in
        int_base2 (String.concat "" (shuffle bits))
      else raise (AssertionError "invalid hamming weight")
  | None =>
      (do hi <- py_lshift 1 (n - 1); randint 0 hi e)%exn
  end.

Lemma random_spin_None shuffle e n :
  1 <= n ->
  _random_spin_configuration shuffle e n None = inr (e mod (2 ^ (n - 1) + 1)).
Proof.
  intros Hn. unfold _random_spin_configuration, py_lshift, randint, bind, ret.
  destruct (Z.ltb_spec (n - 1) 0) as [?|_]; [lia|].
  rewrite Z.shiftl_1_l.
  assert (0 < 2 ^ (n - 1)) by (apply Z.pow_pos_nonneg; lia).
  destruct (Z.ltb_spec (2 ^ (n - 1)) 0) as [?|_]; [lia|].
  f_equal. rewrite Z.sub_0_r. reflexivity.
Qed.

(** Every value of the closed interval is produced by some draw. *)
Lemma random_spin_reaches shuffle n v :
  1 <= n -> 0 <= v <= 2 ^ (n - 1) ->
  _random_spin_configuration shuffle v n None = inr v.
Proof.
  intros Hn Hv. rewrite random_spin_None by assumption.
  f_equal. apply Z.mod_small. lia.
Qed.

(** C10, as amended: for [n >= 1] the result lies in [[0, 2^(n-1)]] and no
    value above [2^(n-1)] is produced; for [n >= 2] the largest [n]-bit
    configuration [2^n - 1] lies above that bound, so it is never produced. *)
Theorem random_spin_configuration_range shuffle (n : Z) (Hn : 1 <= n) :
  (forall e, exists v,
      _random_spin_configuration shuffle e n None = inr v /\
      0 <= v <= 2 ^ (n - 1)) /\
  (forall e v, 2 ^ (n - 1) < v ->
      _random_spin_configuration shuffle e n None <> inr v) /\
  (2 <= n ->
     2 ^ (n - 1) < 2 ^ n - 1 /\
     forall e, _random_spin_configuration shuffle e n None <> inr (2 ^ n - 1)).
Proof.
  assert (Hpos : 0 < 2 ^ (n - 1)) by (apply Z.pow_pos_nonneg; lia).
  assert (Hrange : forall e, 0 <= e mod (2 ^ (n - 1) + 1) <= 2 ^ (n - 1)).
  { intros e. pose proof (Z.mod_pos_bound e (2 ^ (n - 1) + 1)). lia. }
  assert (Habove : forall e v, 2 ^ (n - 1) < v ->
            _random_spin_configuration shuffle e n None <> inr v).
  { intros e v Hv. rewrite random_spin_None by assumption.
    intros Heq. injection Heq as Heq. specialize (Hrange e). lia. }
  split; [|split].
  - intros e. eexists. split; [apply random_spin_None; assumption | apply Hrange].
  - exact Habove.
  - intros H2.
    assert (Hlt : 2 ^ (n - 1) < 2 ^ n - 1).
    { replace n with ((n - 1) + 1) at 2 by lia.
      rewrite Z.pow_add_r, Z.pow_1_r by lia.
      assert (2 ^ 1 <= 2 ^ (n - 1)) by (apply Z.pow_le_mono_r; lia).
      change (2 ^ 1) with 2 in *. lia. }
    split; [exact Hlt|]. intros e. apply Habove. exact Hlt.
Qed.

Lemma random_spin_configuration_range_witness :
  (forall e, exists v,
      _random_spin_configuration (fun bits => bits) e 3 None = inr v /\ 0 <= v <= 2 ^ (3 - 1)) /\
  (forall e v, 2 ^ (3 - 1) < v ->
      _random_spin_configuration (fun bits => bits) e 3 None <> inr v) /\
  (2 <= 3 ->
     2 ^ (3 - 1) < 2 ^ 3 - 1 /\
     forall e, _random_spin_configuration (fun bits => bits) e 3 None <> inr (2 ^ 3 - 1)).
Proof. apply (random_spin_configuration_range (fun bits => bits) 3). lia. Defined.

(** C10, as stated, fails at [n = 1]: both values of the full range
    [[0, 2^1 - 1]] of one-bit configurations are produced. *)
Lemma random_spin_one_bit_full_range :
  2 ^ 1 - 1 = 1 /\
  _random_spin_configuration (fun bits => bits) 0 1 None = inr 0 /\
  _random_spin_configuration (fun bits => bits) 1 1 None = inr 1.
Proof. repeat split. Qed.

Example random_spin_hamming :
  _random_spin_configuration (@rev string) 0 4 (Some 1) = inr 1.
Proof. reflexivity. Qed.

End RandomSpin.

(** ** [safe_exp] *)

Module SafeExp.

Local Open Scope R_scope.

(** [torch.max(x)] of a rank-1 tensor; an empty tensor has no maximum. *)
Definition torch_max (x : list R) : Exn + R :=
  match x with
  | [] => raise (RuntimeError "max(): Expected reduction dim to be specified for input.numel() == 0")
  | h :: t => ret (fold_left Rmax t h)
  end.

Definition torch_sum (x : list R) : R := fold_right Rplus 0 x.

(** [safe_exp(x, normalise)], in exact real arithmetic. *)
Definition safe_exp (x : list R) (normalise : bool) : Exn + list R :=
  (do m <- torch_max x;
   let x1 := map (fun v => v - m) x in
   let x2 := map exp x1 in
   ret (if normalise then map (fun v => v / torch_sum x2) x2 else x2))%exn.

Lemma Rmax_shift a b c : Rmax (a + c) (b + c) = Rmax a b + c.
Proof. unfold Rmax. destruct (Rle_dec (a + c) (b + c)), (Rle_dec a b); lra. Qed.

Lemma fold_Rmax_shift c t : forall h,
  fold_left Rmax (map (fun v => v + c) t) (h + c) = fold_left Rmax t h + c.
Proof.
  induction t as [|a t IH]; intros h; simpl; [reflexivity|].
  rewrite Rmax_shift. apply IH.
Qed.

Lemma torch_sum_exp_pos (x : list R) : x <> [] -> 0 < torch_sum (map exp x).
Proof.
  destruct x as [|a x]; [congruence|intros _].
  revert a. induction x as [|b x IH]; intros a; simpl.
  - pose proof (exp_pos a). lra.
  - specialize (IH b). simpl in IH. pose proof (exp_pos a). lra.
Qed.

Lemma torch_sum_div (s : R) (x : list R) :
  torch_sum (map (fun v => v / s) x) = torch_sum x / s.
Proof.
  induction x as [|a x IH]; simpl; [unfold Rdiv; ring|].
  rewrite IH. unfold Rdiv. ring.
Qed.

(** C7: for a non-empty [x], [safe_exp(x, normalise=True)] returns a vector
    that sums to 1, and [safe_exp(x + c, normalise)] equals
    [safe_exp(x, normalise)] for every constant [c] and either value of
    [normalise]. *)
Theorem safe_exp_sums_to_one_and_shift_invariant (x : list R) (Hx : x <> []) :
  (exists p, safe_exp x true = inr p /\ torch_sum p = 1) /\
  (forall c normalise,
     returns (safe_exp x normalise) /\
     safe_exp (map (fun v => v + c) x) normalise = safe_exp x normalise).
Proof.
  destruct x as [|h t]; [congruence|]. split.
  - eexists. split; [reflexivity|].
    rewrite torch_sum_div.
    set (e := map exp _).
    assert (0 < torch_sum e) by (apply torch_sum_exp_pos; discriminate).
    field. lra.
  - intros c normalise. split; [eexists; reflexivity|].
    unfold safe_exp.
    change (torch_max (map (fun v => v + c) (h :: t)))
      with (@inr Exn R (fold_left Rmax (map (fun v => v + c) t) (h + c))).
    change (torch_max (h :: t)) with (@inr Exn R (fold_left Rmax t h)).
    rewrite fold_Rmax_shift. unfold bind.
    set (m := fold_left Rmax t h).
    assert (Hmap : map (fun v => v - (m + c)) (map (fun v => v + c) (h :: t))
                   = map (fun v => v - m) (h :: t))
      by (rewrite map_map; apply map_ext; intros a; ring).
    rewrite Hmap. reflexivity.
Qed.

Lemma safe_exp_sums_to_one_and_shift_invariant_witness :
  (exists p, safe_exp [0; 1] true = inr p /\ torch_sum p = 1) /\
  (forall c normalise,
     returns (safe_exp [0; 1] normalise) /\
     safe_exp (map (fun v => v + c) [0; 1]) normalise = safe_exp [0; 1] normalise).
Proof. apply (safe_exp_sums_to_one_and_shift_invariant [0; 1]). discriminate. Defined.

End SafeExp.

(** ** [autocorr_function], [_auto_window], [integrated_autocorr_time] *)

Module Autocorr.

Local Open Scope Q_scope.

(** A two-dimensional [numpy] array: [shape0] rows (samples) of [shape1]
    entries (chains).  The arithmetic is exact rational arithmetic; where
    [numpy] would produce [nan] from [0/0], the total division of [Q] gives
    0, which affects the values of the entries and not the control flow
    modelled below. *)
Record ndarray2 : Type := mk_ndarray2 {
  rows : list (list Q);
  shape1 : nat
}.

Definition shape0 (x : ndarray2) : nat := length (rows x).

(** [x[:, i]] *)
Definition column (x : ndarray2) (i : nat) : list Q :=
  map (fun r => nth i r 0) (rows x).

Definition of_nat (n : nat) : Q := inject_Z (Z.of_nat n).

Definition np_sum (x : list Q) : Q := fold_left Qplus x 0.

Definition np_mean (x : list Q) : Q := np_sum x / of_nat (length x).

Fixpoint cumsum_from (acc : Q) (x : list Q) : list Q :=
  match x with
  | [] => []
  | a :: t => (acc + a) :: cumsum_from (acc + a) t
  end.

Definition np_cumsum (x : list Q) : list Q := cumsum_from 0 x.

(** [np.fft.ifft(f * np.conj(f))[k].real] for [f = np.fft.fft(y)]: by the
    correlation theorem this is the circular autocorrelation of [y] at lag
    [k], which is what exact arithmetic computes. *)
Definition circular_autocorr (y : list Q) (k : nat) : Q :=
  let N := length y in
  np_sum (map (fun t => nth t y 0 * nth ((t + k) mod N) y 0) (seq 0 N)).

(** [np.fft.fft(a, n=N)] reads [a] cropped or zero-padded to [N] entries. *)
Definition fft_input (a : list Q) (N : nat) : list Q :=
  firstn N a ++ repeat 0 (N - length a).

(** [autocorr_function(x)] for a one-dimensional [x].
    [math.log2(0)] raises for an empty [x]. *)
Definition autocorr_function (x : list Q) : Exn + list Q :=
  let len := length x in
  if Nat.eqb len 0 then raise (ValueError "math domain error" 0)
  else
    let n := (2 ^ Z.to_nat (Z.log2_up (Z.of_nat len)))%nat in
    let y := fft_input (map (fun v => v - np_mean x) x) (2 * n) in
    let autocorr := firstn len (map (circular_autocorr y) (seq 0 (2 * n))) in
    ret (map (fun v => v / nth 0 autocorr 0) autocorr).

Definition Qltb (a b : Q) : bool := negb (Qle_bool b a).

(** [np.arange(len(taus)) < c * taus] *)
Definition window_mask (taus : list Q) (c : Q) : list bool :=
  map (fun '(M, tau) => Qltb (of_nat M) (c * tau))
      (combine (seq 0 (length taus)) taus).

(** [np.any(m)] *)
Definition np_any (m : list bool) : bool := existsb (fun b => b) m.

(** [np.argmin(m)] on a boolean array: the index of the first minimal
    entry, that is the first [False], or 0 when every entry is [True]. *)
Fixpoint first_false_from (i : nat) (m : list bool) : option nat :=
  match m with
  | [] => None
  | b :: rest => if b then first_false_from (S i) rest else Some i
  end.

Definition np_argmin (m : list bool) : nat :=
  match first_false_from 0 m with
  | Some i => i
  | None => 0
  end.

(** [_auto_window(taus, c)] *)
Definition _auto_window (taus : list Q) (c : Q) : Z :=
  let m := window_mask taus c in
  if np_any m then Z.of_nat (np_argmin m)
  else (Z.of_nat (length taus) - 1)%Z.

(** [a[i]] for a Python integer [i]: negative indices count from the end. *)
Definition getitem (a : list Q) (i : Z) : Exn + Q :=
  let len := Z.of_nat (length a) in
  let j := if (i <? 0)%Z then (i + len)%Z else i in
  if ((0 <=? j)%Z && (j <? len)%Z)%bool then ret (nth (Z.to_nat j) a 0)
  else raise (IndexError "index out of bounds").

(** [f += g] on arrays of one shape. *)
Definition add_arrays (f g : list Q) : list Q :=
  map (fun '(a, b) => a + b) (combine f g).

(** The loop [for i in range(x.shape[1]): f += autocorr_function(x[:, i])]. *)
Fixpoint accumulate (x : ndarray2) (cols : list nat) (f : list Q) : Exn + list Q :=
  match cols with
  | [] => ret f
  | i :: rest =>
      (do a <- autocorr_function (column x i);
       accumulate x rest (add_arrays f a))%exn
  end.

(** The array [taus] built by [integrated_autocorr_time]. *)
Definition taus_of (x : ndarray2) : Exn + list Q :=
  (do f <- accumulate x (seq 0 (shape1 x)) (repeat 0 (shape0 x));
   let f := map (fun v => v / of_nat (shape1 x)) f in
   ret (map (fun s => 2 * s - 1) (np_cumsum f)))%exn.

(** [integrated_autocorr_time(x, c)] *)
Definition integrated_autocorr_time (x : ndarray2) (c : Q) : Exn + Q :=
  (do taus <- taus_of x;
   let window := _auto_window taus c in
   getitem taus window)%exn.

(** The window as the specification words it: the smallest index [M] with
    [M < c * taus[M]], else the last index. *)
Fixpoint first_true_from (i : nat) (m : list bool) : option nat :=
  match m with
  | [] => None
  | b :: rest => if b then Some i else first_true_from (S i) rest
  end.

Definition spec_auto_window (taus : list Q) (c : Q) : Z :=
  match first_true_from 0 (window_mask taus c) with
  | Some M => Z.of_nat M
  | None => (Z.of_nat (length taus) - 1)%Z
  end.

Definition spec_integrated_autocorr_time (x : ndarray2) (c : Q) : Exn + Q :=
  (do taus <- taus_of x; getitem taus (spec_auto_window taus c))%exn.

Definition two_samples : ndarray2 := mk_ndarray2 [[1]; [-1]] 1.

(** [M < c * taus[M]] *)
Definition satisfies (taus : list Q) (c : Q) (M : nat) : Prop :=
  of_nat M < c * nth M taus 0.

(** [W] is the first index at which [M < c * taus[M]] fails. *)
Definition first_failing (taus : list Q) (c : Q) (W : nat) : Prop :=
  (W < length taus)%nat /\ ~ satisfies taus c W /\
  forall j, (j < W)%nat -> satisfies taus c j.

(** The autocorrelation function of chain [i], and the closed forms of the
    sums that the loops of [integrated_autocorr_time] build. *)
Definition acf (x : ndarray2) (i : nat) : list Q :=
  match autocorr_function (column x i) with
  | inr a => a
  | inl _ => []
  end.

Fixpoint sum_upto (g : nat -> Q) (n : nat) : Q :=
  match n with
  | O => 0
  | S k => sum_upto g k + g k
  end.

Definition averaged_acf (x : ndarray2) (j : nat) : Q :=
  sum_upto (fun i => nth j (acf x i) 0) (shape1 x) / of_nat (shape1 x).

Lemma Qltb_lt a b : Qltb a b = true <-> a < b.
Proof.
  unfold Qltb. rewrite negb_true_iff. split.
  - intros H. apply Qnot_le_lt. intros Hle.
    apply Qle_bool_iff in Hle. congruence.
  - intros H. destruct (Qle_bool b a) eqn:E; [|reflexivity].
    apply Qle_bool_iff in E. exfalso. exact (Qlt_not_le _ _ H E).
Qed.

Lemma window_mask_length taus c : length (window_mask taus c) = length taus.
Proof.
  unfold window_mask. rewrite length_map, length_combine, length_seq.
  apply Nat.min_id.
Qed.

Lemma mask_from_nth c : forall taus k M d,
  (M < length taus)%nat ->
  nth M (map (fun '(M, tau) => Qltb (of_nat M) (c * tau))
             (combine (seq k (length taus)) taus)) d
  = Qltb (of_nat (k + M)) (c * nth M taus 0).
Proof.
  induction taus as [|t taus IH]; intros k M d HM; simpl in HM; [lia|].
  destruct M as [|M]; simpl.
  - rewrite Nat.add_0_r. reflexivity.
  - rewrite IH by lia. replace (S k + M)%nat with (k + S M)%nat by lia. reflexivity.
Qed.

Lemma window_mask_nth taus c M d :
  (M < length taus)%nat ->
  nth M (window_mask taus c) d = Qltb (of_nat M) (c * nth M taus 0).
Proof. intros HM. unfold window_mask. rewrite mask_from_nth by exact HM. reflexivity. Qed.

Lemma window_mask_true taus c M :
  (M < length taus)%nat ->
  nth M (window_mask taus c) false = true <-> satisfies taus c M.
Proof. intros HM. rewrite window_mask_nth by exact HM. apply Qltb_lt. Qed.

Lemma first_false_from_Some : forall m i j,
  first_false_from i m = Some j ->
  (i <= j)%nat /\ (j - i < length m)%nat /\ nth (j - i) m false = false /\
  forall k, (k < j - i)%nat -> nth k m false = true.
Proof.
  induction m as [|b m IH]; intros i j H; simpl in H; [discriminate|].
  destruct b.
  - apply IH in H as (Hle & Hlen & Hnth & Hbefore).
    replace (j - i)%nat with (S (j - S i)) by lia. simpl.
    repeat split; [lia | lia | exact Hnth |].
    intros [|k] Hk; [reflexivity|]. apply Hbefore. lia.
  - injection H as <-. rewrite Nat.sub_diag. simpl.
    repeat split; [lia | lia |]. intros k Hk. lia.
Qed.

Lemma first_false_from_None : forall m i,
  first_false_from i m = None -> forall k, (k < length m)%nat -> nth k m false = true.
Proof.
  induction m as [|b m IH]; intros i H k Hk; simpl in *; [lia|].
  destruct b; [|discriminate]. destruct k; [reflexivity|].
  apply (IH _ H). lia.
Qed.

Lemma np_any_true (m : list bool) :
  np_any m = true <-> exists k, (k < length m)%nat /\ nth k m false = true.
Proof.
  unfold np_any. rewrite existsb_exists. split.
  - intros (b & Hin & ->). apply (In_nth _ _ false) in Hin as (k & Hk & Hnth). eauto.
  - intros (k & Hk & Hnth). exists true. split; [|reflexivity].
    rewrite <- Hnth. apply nth_In. exact Hk.
Qed.

(** What [np.argmin] returns on the mask, case by case. *)
Lemma np_argmin_first_false (m : list bool) (W : nat) :
  (W < length m)%nat -> nth W m false = false ->
  (forall j, (j < W)%nat -> nth j m false = true) ->
  np_argmin m = W.
Proof.
  intros HW HWf Hbefore. unfold np_argmin.
  destruct (first_false_from 0 m) as [j|] eqn:E.
  - apply first_false_from_Some in E as (_ & Hlen & Hnth & Hb).
    rewrite Nat.sub_0_r in *.
    destruct (Nat.lt_trichotomy j W) as [Hlt|[Heq|Hgt]]; [|exact Heq|].
    + rewrite (Hbefore _ Hlt) in Hnth. discriminate.
    + rewrite (Hb _ Hgt) in HWf. discriminate.
  - rewrite (first_false_from_None _ _ E _ HW) in HWf. discriminate.
Qed.

Lemma np_argmin_all_true (m : list bool) :
  (forall j, (j < length m)%nat -> nth j m false = true) -> np_argmin m = 0%nat.
Proof.
  intros Hall. unfold np_argmin.
  destruct (first_false_from 0 m) as [j|] eqn:E; [|reflexivity].
  apply first_false_from_Some in E as (_ & Hlen & Hnth & _).
  rewrite Nat.sub_0_r in *. rewrite (Hall _ Hlen) in Hnth. discriminate.
Qed.

Lemma auto_window_first_failing taus c W :
  (exists M, (M < length taus)%nat /\ satisfies taus c M) ->
  first_failing taus c W ->
  _auto_window taus c = Z.of_nat W.
Proof.
  intros (M & HM & HsM) (HW & HnW & Hbefore). unfold _auto_window.
  assert (Hany : np_any (window_mask taus c) = true).
  { apply np_any_true. exists M. rewrite window_mask_length. split; [exact HM|].
    apply window_mask_true; assumption. }
  rewrite Hany. f_equal. apply np_argmin_first_false.
  - rewrite window_mask_length. exact HW.
  - destruct (nth W (window_mask taus c) false) eqn:E; [|reflexivity].
    apply window_mask_true in E; [contradiction | exact HW].
  - intros j Hj. apply window_mask_true; [lia | apply Hbefore; exact Hj].
Qed.

Lemma auto_window_none taus c :
  (forall M, (M < length taus)%nat -> ~ satisfies taus c M) ->
  _auto_window taus c = (Z.of_nat (length taus) - 1)%Z.
Proof.
  intros Hnone. unfold _auto_window.
  destruct (np_any (window_mask taus c)) eqn:E; [|reflexivity].
  apply np_any_true in E as (k & Hk & Hnth). rewrite window_mask_length in Hk.
  apply window_mask_true in Hnth; [|exact Hk]. destruct (Hnone _ Hk Hnth).
Qed.

(** When every index satisfies [M < c * taus[M]], [np.argmin] of the
    all-[True] mask is 0. *)
Lemma auto_window_all taus c :
  (0 < length taus)%nat ->
  (forall M, (M < length taus)%nat -> satisfies taus c M) ->
  _auto_window taus c = 0%Z.
Proof.
  intros Hlen Hall. unfold _auto_window.
  assert (Hany : np_any (window_mask taus c) = true).
  { apply np_any_true. exists 0%nat. rewrite window_mask_length. split; [exact Hlen|].
    apply window_mask_true; [exact Hlen | apply Hall; exact Hlen]. }
  rewrite Hany. rewrite np_argmin_all_true; [reflexivity|].
  intros j Hj. rewrite window_mask_length in Hj.
  apply window_mask_true; [exact Hj | apply Hall; exact Hj].
Qed.

Lemma getitem_nat (a : list Q) (W : nat) :
  (W < length a)%nat -> getitem a (Z.of_nat W) = inr (nth W a 0).
Proof.
  intros HW. unfold getitem, ret.
  destruct (Z.ltb_spec (Z.of_nat W) 0); [lia|].
  destruct (Z.leb_spec 0 (Z.of_nat W)); [|lia].
  destruct (Z.ltb_spec (Z.of_nat W) (Z.of_nat (length a))); [|lia].
  simpl. rewrite Nat2Z.id. reflexivity.
Qed.

Lemma pow2_log2_up_ge (len : nat) :
  (0 < len)%nat -> (len <= 2 ^ Z.to_nat (Z.log2_up (Z.of_nat len)))%nat.
Proof.
  intros Hlen. apply Nat2Z.inj_le.
  rewrite Nat2Z.inj_pow, Z2Nat.id by apply Z.log2_up_nonneg.
  change (Z.of_nat 2) with 2%Z.
  destruct (Z.eq_dec (Z.of_nat len) 1%Z) as [Heq|Hne];
    [rewrite Heq; vm_compute; discriminate|].
  apply Z.log2_up_spec. lia.
Qed.

Lemma autocorr_function_length (x : list Q) :
  x <> [] -> exists a, autocorr_function x = inr a /\ length a = length x.
Proof.
  intros Hx. unfold autocorr_function.
  destruct (Nat.eqb_spec (length x) 0) as [H0|H0].
  { destruct x; [congruence | discriminate]. }
  eexists. split; [reflexivity|].
  rewrite length_map, length_firstn, length_map, length_seq.
  pose proof (pow2_log2_up_ge (length x)). lia.
Qed.

Lemma column_length x i : length (column x i) = shape0 x.
Proof. unfold column, shape0. apply length_map. Qed.

Lemma acf_returns x i :
  (0 < shape0 x)%nat ->
  autocorr_function (column x i) = inr (acf x i) /\ length (acf x i) = shape0 x.
Proof.
  intros Hrows. unfold acf.
  destruct (autocorr_function_length (column x i)) as (a & Ha & Hlen).
  { intros Hnil. pose proof (column_length x i) as Hc. rewrite Hnil in Hc. simpl in Hc. lia. }
  rewrite Ha. split; [reflexivity|]. rewrite Hlen. apply column_length.
Qed.

Lemma add_arrays_nth : forall f g j,
  length f = length g -> (j < length f)%nat ->
  length (add_arrays f g) = length f /\
  nth j (add_arrays f g) 0 = nth j f 0 + nth j g 0.
Proof.
  induction f as [|a f IH]; intros [|b g] j Hlen Hj; simpl in *; try lia.
  destruct j as [|j]; [split; [f_equal|reflexivity]|].
  - unfold add_arrays in *. rewrite length_map, length_combine. lia.
  - destruct (IH g j) as [IHl IHn]; [lia | lia |]. unfold add_arrays in *.
    split; [f_equal; exact IHl | exact IHn].
Qed.

Lemma add_arrays_length f g : length f = length g -> length (add_arrays f g) = length f.
Proof. intros H. unfold add_arrays. rewrite length_map, length_combine. lia. Qed.

Lemma accumulate_app x : forall l1 l2 f,
  accumulate x (l1 ++ l2) f = (do f' <- accumulate x l1 f; accumulate x l2 f')%exn.
Proof.
  induction l1 as [|i l1 IH]; intros l2 f; simpl; [reflexivity|].
  destruct (autocorr_function (column x i)) as [e|a]; simpl; [reflexivity|]. apply IH.
Qed.

Lemma accumulate_closed_form x (Hrows : (0 < shape0 x)%nat) (f0 : list Q) :
  length f0 = shape0 x ->
  forall n, exists f,
    accumulate x (seq 0 n) f0 = inr f /\ length f = shape0 x /\
    forall j, (j < shape0 x)%nat ->
      nth j f 0 == nth j f0 0 + sum_upto (fun i => nth j (acf x i) 0) n.
Proof.
  intros Hf0. induction n as [|n (f & Hacc & Hlen & Hnth)].
  - exists f0. repeat split; [exact Hf0|]. intros j Hj. simpl. ring.
  - rewrite seq_S, accumulate_app, Hacc. simpl.
    destruct (acf_returns x n Hrows) as [Ha Hal]. rewrite Ha. simpl.
    eexists. split; [reflexivity|]. split.
    + rewrite add_arrays_length; congruence.
    + intros j Hj.
      destruct (add_arrays_nth f (acf x n) j) as [_ ->]; [congruence | lia |].
      rewrite (Hnth j Hj). ring.
Qed.

Lemma sum_upto_ext (g h : nat -> Q) n :
  (forall j, (j < n)%nat -> g j == h j) -> sum_upto g n == sum_upto h n.
Proof.
  induction n as [|n IH]; intros Hgh; simpl; [reflexivity|].
  rewrite IH, (Hgh n) by (intros; try apply Hgh; lia). reflexivity.
Qed.

Lemma sum_upto_cons a (t : list Q) n :
  sum_upto (fun j => nth j (a :: t) 0) (S n) == a + sum_upto (fun j => nth j t 0) n.
Proof.
  induction n as [|n IH].
  - simpl. ring.
  - change (sum_upto (fun j => nth j (a :: t) 0) (S (S n)))
      with (sum_upto (fun j => nth j (a :: t) 0) (S n) + nth n t 0).
    rewrite IH. simpl. ring.
Qed.

Lemma cumsum_from_length : forall l acc, length (cumsum_from acc l) = length l.
Proof. induction l as [|a l IH]; intros acc; simpl; [reflexivity|]. rewrite IH. reflexivity. Qed.

Lemma cumsum_from_nth : forall l acc M,
  (M < length l)%nat ->
  nth M (cumsum_from acc l) 0 == acc + sum_upto (fun j => nth j l 0) (S M).
Proof.
  induction l as [|a l IH]; intros acc M HM; simpl in HM; [lia|].
  destruct M as [|M].
  - simpl. ring.
  - change (nth (S M) (cumsum_from acc (a :: l)) 0)
      with (nth M (cumsum_from (acc + a) l) 0).
    rewrite IH by lia. rewrite (sum_upto_cons a l (S M)). ring.
Qed.

(** The array [taus]: entry [M] is [2 * (sum of the averaged autocorrelation
    up to lag M) - 1]. *)
Lemma taus_of_closed_form x (Hrows : (0 < shape0 x)%nat) :
  exists taus,
    taus_of x = inr taus /\ length taus = shape0 x /\
    forall M, (M < shape0 x)%nat ->
      nth M taus 0 == 2 * sum_upto (averaged_acf x) (S M) - 1.
Proof.
  destruct (accumulate_closed_form x Hrows (repeat 0 (shape0 x))
              (repeat_length _ _) (shape1 x)) as (f & Hacc & Hlen & Hnth).
  unfold taus_of. rewrite Hacc. simpl. eexists. split; [reflexivity|].
  split.
  - unfold np_cumsum. rewrite length_map, cumsum_from_length, length_map. exact Hlen.
  - intros M HM.
    rewrite (nth_indep _ 0 (2 * 0 - 1)), (map_nth (fun s => 2 * s - 1))
      by (unfold np_cumsum; rewrite length_map, cumsum_from_length, length_map; lia).
    unfold np_cumsum. rewrite cumsum_from_nth by (rewrite length_map; lia).
    rewrite (sum_upto_ext _ (averaged_acf x)); [simpl; ring|].
    intros j Hj. unfold averaged_acf.
    rewrite (nth_indep _ 0 (0 / of_nat (shape1 x))), (map_nth (fun v => v / of_nat (shape1 x)))
      by (rewrite length_map; lia).
    rewrite (Hnth j) by lia.
    rewrite nth_repeat, Qplus_0_l. reflexivity.
Qed.

(** C3, as amended: [taus[M] = 2 * cumsum(averaged autocorrelation)[M] - 1];
    when some index satisfies [M < c * taus[M]], the result is [taus] at the
    first index at which that condition fails; when no index satisfies it,
    the result is [taus] at the last index. *)
Theorem integrated_autocorr_time_window (x : ndarray2) (c : Q)
    (Hrows : (0 < shape0 x)%nat) :
  exists taus,
    taus_of x = inr taus /\ length taus = shape0 x /\
    (forall M, (M < shape0 x)%nat ->
       nth M taus 0 == 2 * sum_upto (averaged_acf x) (S M) - 1) /\
    (forall W,
       (exists M, (M < length taus)%nat /\ satisfies taus c M) ->
       first_failing taus c W ->
       integrated_autocorr_time x c = inr (nth W taus 0)) /\
    ((forall M, (M < length taus)%nat -> ~ satisfies taus c M) ->
       integrated_autocorr_time x c = inr (nth (length taus - 1) taus 0)).
Proof.
  destruct (taus_of_closed_form x Hrows) as (taus & Htaus & Hlen & Hclosed).
  exists taus. repeat split; try assumption.
  - intros W Hsome HW. unfold integrated_autocorr_time. rewrite Htaus. simpl.
    rewrite (auto_window_first_failing taus c W Hsome HW).
    apply getitem_nat. apply HW.
  - intros Hnone. unfold integrated_autocorr_time. rewrite Htaus. simpl.
    rewrite (auto_window_none taus c Hnone).
    replace (Z.of_nat (length taus) - 1)%Z with (Z.of_nat (length taus - 1)) by lia.
    apply getitem_nat. lia.
Qed.

Lemma integrated_autocorr_time_window_witness :
  exists taus,
    taus_of two_samples = inr taus /\ length taus = shape0 two_samples /\
    (forall M, (M < shape0 two_samples)%nat ->
       nth M taus 0 == 2 * sum_upto (averaged_acf two_samples) (S M) - 1) /\
    (forall W,
       (exists M, (M < length taus)%nat /\ satisfies taus 5 M) ->
       first_failing taus 5 W ->
       integrated_autocorr_time two_samples 5 = inr (nth W taus 0)) /\
    ((forall M, (M < length taus)%nat -> ~ satisfies taus 5 M) ->
       integrated_autocorr_time two_samples 5 = inr (nth (length taus - 1) taus 0)).
Proof.
  apply (integrated_autocorr_time_window two_samples 5).
  unfold shape0, two_samples; simpl; lia.
Defined.

(** When every index satisfies the condition the source returns [taus[0]]. *)
Lemma integrated_autocorr_time_all_satisfy (x : ndarray2) (c : Q) taus :
  taus_of x = inr taus -> (0 < length taus)%nat ->
  (forall M, (M < length taus)%nat -> satisfies taus c M) ->
  integrated_autocorr_time x c = inr (nth 0 taus 0).
Proof.
  intros Htaus Hlen Hall. unfold integrated_autocorr_time. rewrite Htaus. simpl.
  rewrite (auto_window_all taus c Hlen Hall). apply (getitem_nat taus 0 Hlen).
Qed.

(** C3, as stated, fails: for the single chain [1, -1] and [c = 5] the
    array [taus] is [1, 0]; index 0 satisfies [M < c * taus[M]], so the
    specification's window gives [taus[0] = 1], and the source returns
    [taus[1] = 0]. *)
Lemma integrated_autocorr_time_not_first_satisfying :
  exists taus r s,
    taus_of two_samples = inr taus /\
    Qltb (of_nat 0) (5 * nth 0 taus 0) = true /\
    integrated_autocorr_time two_samples 5 = inr r /\
    spec_integrated_autocorr_time two_samples 5 = inr s /\
    r == 0 /\ s == 1.
Proof. do 3 eexists. repeat split; reflexivity. Qed.

End Autocorr.

(** ** [_array_to_int], [reference_log_apply], [log_apply] *)

Module LocalValues.

Local Open Scope R_scope.

(** [complex128] values in exact arithmetic: a real and an imaginary part. *)
Definition C : Type := (R * R)%type.

Definition Cadd (a b : C) : C := (fst a + fst b, snd a + snd b).
Definition Csub (a b : C) : C := (fst a - fst b, snd a - snd b).
Definition Cmul (a b : C) : C :=
  (fst a * fst b - snd a * snd b, fst a * snd b + snd a * fst b).
Definition Cabs (z : C) : R := sqrt (fst z * fst z + snd z * snd z).
Definition Cexp (z : C) : C := (exp (fst z) * cos (snd z), exp (fst z) * sin (snd z)).

(** The principal argument, in (-PI, PI]. *)
Definition Carg (z : C) : R :=
  let (x, y) := z in
  if Rlt_dec 0 x then atan (y / x)
  else if Rlt_dec x 0 then
    (if Rle_dec 0 y then atan (y / x) + PI else atan (y / x) - PI)
  else if Rlt_dec 0 y then PI / 2
  else if Rlt_dec y 0 then - (PI / 2)
  else 0.

Definition Clog (z : C) : C := (ln (Cabs z), Carg z).

(** [xs.view(np.uint64)] on one [int64] entry. *)
Definition to_uint64 (v : Z) : Z := (v mod 2 ^ 64)%Z.

(** [_array_to_int(xs)]: the words of [xs], least significant first, as one
    Python integer. *)
Definition _array_to_int (xs : list Z) : Z :=
  match rev xs with
  | [] => 0%Z
  | last :: earlier =>
      fold_left (fun n x => (Z.shiftl n 64 + to_uint64 x)%Z) earlier (to_uint64 last)
  end.

Definition Rleb (a b : R) : bool := if Rle_dec a b then true else false.

(** [torch.isclose(input, other, rtol, atol)] on finite values:
    [|input - other| <= atol + rtol * |other|]. *)
Definition within (rtol atol : R) (input other : C) : Prop :=
  Cabs (Csub input other) <= atol + rtol * Cabs other.

Definition isclose (rtol atol : R) (input other : C) : bool :=
  Rleb (Cabs (Csub input other)) (atol + rtol * Cabs other).

(** [torch.isclose(a, b)] with the defaults of the library,
    [rtol=1e-05] and [atol=1e-08]. *)
Definition torch_isclose : C -> C -> bool := isclose 1e-5 1e-8.

(** [_isclose(a, b)] of the source: [rtol=5e-5], [atol=5e-7]. *)
Definition _isclose : C -> C -> bool := isclose 5e-5 5e-7.

(** A line written by [logger.error] in [log_apply]: the index and the two
    values. *)
Inductive LogLine : Type := LogError (i : nat) (e_cxx e_py : C).

Section LogApply.

(** [operator.apply(spin)]: the connected states and their coefficients. *)
Variable operator_apply : Z -> list (list Z) * list C.
(** The wave function: a batch of states to their [log(psi)], one value
    per state. *)
Variable log_psi : list (list Z) -> list C.
(** [lib.log_apply(spins, hamiltonian, state, batch_size)], the compiled
    implementation. *)
Variable lib_log_apply : list (list Z) -> Z -> list C.

(** [torch.max(output.real)] *)
Definition max_real (output : list C) : Exn + R :=
  match output with
  | [] => raise (RuntimeError "max(): Expected reduction dim to be specified for input.numel() == 0")
  | z :: rest => ret (fold_left Rmax (map fst rest) (fst z))
  end.

(** [torch.dot(a, b)] *)
Definition torch_dot (a b : list C) : Exn + C :=
  if Nat.eqb (length a) (length b) then
    ret (fold_left Cadd (map (fun '(x, y) => Cmul x y) (combine a b)) (0, 0))
  else raise (RuntimeError "inconsistent tensor size").

Definition _reference_log_apply_one (spin : Z) : Exn + C :=
  let '(spins, coeffs) := operator_apply spin in
  let output := log_psi spins in
  (do scale <- max_real output;
   let output := map (fun z => (fst z - scale, snd z)) output in
   let output := map Cexp output in
   do d <- torch_dot coeffs output;
   ret (Cadd (scale, 0) (Clog d)))%exn.

Fixpoint reference_log_apply (spins : list (list Z)) : Exn + list C :=
  match spins with
  | [] => ret []
  | spin :: rest =>
      (do r <- _reference_log_apply_one (_array_to_int spin);
       do rs <- reference_log_apply rest;
       ret (r :: rs))%exn
  end.

(** The loop over [enumerate(zip(log_h_psi, _log_h_psi_py))], from index
    [i] on, with the comparison [close]. *)
Fixpoint report_from (close : C -> C -> bool) (i : nat) (pairs : list (C * C))
  : list LogLine :=
  match pairs with
  | [] => []
  | (e_cxx, e_py) :: rest =>
      if close e_cxx e_py then report_from close (S i) rest
      else LogError i e_cxx e_py :: report_from close (S i) rest
  end.

(** The pairs that an element-wise operation on two tensors of rank one
    meets: the tensors have one length, or the one with a single element
    is broadcast along the other; any other two lengths are a shape
    error. *)
Definition broadcast_pairs (a b : list C) : Exn + list (C * C) :=
  if Nat.eqb (length a) (length b) then ret (combine a b)
  else
    match a, b with
    | [x], _ => ret (map (fun y => (x, y)) b)
    | _, [y] => ret (map (fun x => (x, y)) a)
    | _, _ => raise (RuntimeError "The size of tensor a must match the size of tensor b")
    end.

(** The body of [if debug:]: [torch.isclose] compares the two tensors under
    broadcasting, and when not all entries are close the loop over
    [zip(log_h_psi, _log_h_psi_py)] logs the pairs that are not, before
    [assert False]. *)
Definition check_against_reference (close : C -> C -> bool)
    (log_h_psi _log_h_psi_py : list C) : list LogLine * (Exn + unit) :=
  match broadcast_pairs log_h_psi _log_h_psi_py with
  | inl e => ([], inl e)
  | inr compared =>
      if forallb (fun '(a, b) => close a b) compared then ([], ret tt)
      else (report_from close 0 (combine log_h_psi _log_h_psi_py),
            raise (AssertionError ""))
  end.

(** [t.view(n)] of a tensor of rank one. *)
Definition view_as (n : nat) (t : list C) : Exn + list C :=
  if Nat.eqb (length t) n then ret t
  else raise (RuntimeError "shape '{}' is invalid for input of size {}").

(** [log_apply(spins, hamiltonian, state, batch_size, debug)] on a
    two-dimensional [spins], with the comparison used in debug mode as a
    parameter.  The result is the lines logged as errors and the outcome;
    [original_shape] is the number of rows of [spins]. *)
Definition log_apply_with (close : C -> C -> bool)
    (spins : list (list Z)) (batch_size : Z) (debug : bool)
  : list LogLine * (Exn + list C) :=
  if (batch_size <=? 0)%Z then
    ([], raise (ValueError "invalid batch_size: {}; expected a positive integer" batch_size))
  else
    let log_h_psi := lib_log_apply spins batch_size in
    if debug then
      match reference_log_apply spins with
      | inl e => ([], inl e)
      | inr _log_h_psi_py =>
          let '(lines, r) := check_against_reference close log_h_psi _log_h_psi_py in
          (lines, (do _ <- r; view_as (length spins) log_h_psi)%exn)
      end
    else ([], view_as (length spins) log_h_psi).

(** The source compares with [torch.isclose] and its defaults. *)
Definition log_apply := log_apply_with torch_isclose.

(** The comparison as the specification words it (the line of the source
    that is commented out): [rtol=5e-5], [atol=5e-7]. *)
Definition spec_log_apply := log_apply_with _isclose.

Lemma Rleb_true a b : Rleb a b = true <-> a <= b.
Proof. unfold Rleb. destruct (Rle_dec a b); split; intros; try assumption; try reflexivity; try discriminate; contradiction. Qed.

Lemma isclose_within rtol atol a b :
  isclose rtol atol a b = true <-> within rtol atol a b.
Proof. apply Rleb_true. Qed.

Lemma isclose_not_within rtol atol a b :
  isclose rtol atol a b = false <-> ~ within rtol atol a b.
Proof.
  rewrite <- isclose_within. destruct (isclose rtol atol a b); split; intros H;
    try reflexivity; try discriminate; try (intros H'; discriminate).
  destruct H; reflexivity.
Qed.

Lemma reference_log_apply_length : forall spins ref,
  reference_log_apply spins = inr ref -> length ref = length spins.
Proof.
  induction spins as [|spin spins IH]; intros ref H; simpl in H.
  - injection H as <-. reflexivity.
  - destruct (_reference_log_apply_one (_array_to_int spin)) as [e|r]; [discriminate|].
    simpl in H. destruct (reference_log_apply spins) as [e|rs]; [discriminate|].
    simpl in H. injection H as <-. simpl. f_equal. apply IH. reflexivity.
Qed.

Lemma nth_error_combine {A B} : forall (l1 : list A) (l2 : list B) j a b,
  nth_error (combine l1 l2) j = Some (a, b) <->
  nth_error l1 j = Some a /\ nth_error l2 j = Some b.
Proof.
  induction l1 as [|x l1 IH]; intros l2 j a b.
  - destruct j; simpl; split; intros H; try discriminate; destruct H; discriminate.
  - destruct l2 as [|y l2].
    + destruct j; simpl; split; intros H; try discriminate; destruct H; discriminate.
    + destruct j as [|j]; simpl.
      * split; [intros H; injection H as <- <-; split; reflexivity|].
        intros [H1 H2]. injection H1 as <-. injection H2 as <-. reflexivity.
      * apply IH.
Qed.

Lemma report_from_In close : forall pairs k i a b,
  In (LogError i a b) (report_from close k pairs) <->
  exists j, i = (k + j)%nat /\ nth_error pairs j = Some (a, b) /\ close a b = false.
Proof.
  induction pairs as [|[x y] pairs IH]; intros k i a b; simpl.
  - split; [intros []|]. intros (j & _ & H & _). destruct j; discriminate.
  - destruct (close x y) eqn:E.
    + rewrite IH. split.
      * intros (j & -> & Hn & Hc). exists (S j). repeat split; [lia | exact Hn | exact Hc].
      * intros ([|j] & -> & Hn & Hc); simpl in Hn.
        -- injection Hn as -> ->. congruence.
        -- exists j. repeat split; [lia | exact Hn | exact Hc].
    + simpl. rewrite IH. split.
      * intros [H|(j & -> & Hn & Hc)].
        -- injection H as <- <- <-. exists 0%nat. repeat split; [lia | exact E].
        -- exists (S j). repeat split; [lia | exact Hn | exact Hc].
      * intros ([|j] & -> & Hn & Hc); simpl in Hn.
        -- injection Hn as -> ->. left. f_equal. lia.
        -- right. exists j. repeat split; [lia | exact Hn | exact Hc].
Qed.

Lemma forallb_close_false (close : C -> C -> bool) (pairs : list (C * C)) :
  forallb (fun '(a, b) => close a b) pairs = false <->
  exists j a b, nth_error pairs j = Some (a, b) /\ close a b = false.
Proof.
  induction pairs as [|[x y] pairs IH]; simpl.
  - split; [discriminate|]. intros (j & a & b & H & _). destruct j; discriminate.
  - rewrite andb_false_iff, IH. split.
    + intros [H|(j & a & b & Hn & Hc)].
      * exists 0%nat, x, y. split; [reflexivity | exact H].
      * exists (S j), a, b. split; assumption.
    + intros ([|j] & a & b & Hn & Hc); simpl in Hn.
      * injection Hn as -> ->. left. exact Hc.
      * right. exists j, a, b. split; assumption.
Qed.

(** C2, as amended: in debug mode the result of the compiled
    implementation is compared entry by entry with [reference_log_apply]
    under the default tolerances of [torch.isclose] (relative 1e-5,
    absolute 1e-8); when every entry agrees the result is returned and
    nothing is logged, and otherwise exactly the entries that disagree are
    logged, each with its index and both values, and the check fails with
    an [AssertionError].  Without debug mode nothing is compared. *)
Theorem log_apply_debug_reports_mismatches (spins : list (list Z))
    (batch_size : Z) (ref : list C)
    (Hbs : (0 < batch_size)%Z)
    (Href : reference_log_apply spins = inr ref)
    (Hlen : length (lib_log_apply spins batch_size) = length spins) :
  let out := lib_log_apply spins batch_size in
  let mismatch i a b :=
    nth_error out i = Some a /\ nth_error ref i = Some b /\
    ~ within 1e-5 1e-8 a b in
  ((forall i a b, ~ mismatch i a b) ->
     log_apply spins batch_size true = ([], inr out)) /\
  ((exists i a b, mismatch i a b) ->
     exists lines,
       log_apply spins batch_size true = (lines, inl (AssertionError "")) /\
       forall i a b, In (LogError i a b) lines <-> mismatch i a b) /\
  log_apply spins batch_size false = ([], inr out).
Proof.
  intros out mismatch.
  assert (Hl : length out = length ref)
    by (unfold out; rewrite Hlen; symmetry; apply reference_log_apply_length; exact Href).
  assert (Hmis : forall i a b,
            mismatch i a b <->
            nth_error (combine out ref) i = Some (a, b) /\ torch_isclose a b = false).
  { intros i a b. unfold mismatch. rewrite nth_error_combine.
    unfold torch_isclose. rewrite isclose_not_within. tauto. }
  unfold log_apply, log_apply_with.
  destruct (Z.leb_spec batch_size 0) as [?|_]; [lia|].
  rewrite Href. fold out. unfold check_against_reference, broadcast_pairs, view_as.
  assert (Hview : length out = length spins) by exact Hlen.
  rewrite (proj2 (Nat.eqb_eq _ _) Hl), (proj2 (Nat.eqb_eq _ _) Hview).
  unfold ret. cbv iota.
  destruct (forallb (fun '(a, b) => torch_isclose a b) (combine out ref)) eqn:E.
  - repeat split.
    intros (i & a & b & Hm). apply Hmis in Hm as [Hn Hc].
    assert (Hf : forallb (fun '(a, b) => torch_isclose a b) (combine out ref) = false)
      by (apply forallb_close_false; eauto).
    congruence.
  - repeat split.
    + intros Hnone. apply forallb_close_false in E as (j & a & b & Hn & Hc).
      destruct (Hnone j a b). apply Hmis. split; assumption.
    + intros _. eexists. split; [reflexivity|].
      intros i a b. rewrite report_from_In, Hmis. split.
      * intros (j & -> & Hn & Hc). split; assumption.
      * intros [Hn Hc]. exists i. repeat split; assumption.
Qed.

End LogApply.

(** A one-state example: the operator is the identity, [log(psi)] is 1 on
    every state, and the compiled implementation is off by 3e-5. *)
Definition identity_operator (spin : Z) : list (list Z) * list C :=
  ([[spin; 0; 0; 0; 0; 0; 0; 0]%Z], [(1, 0)]).
Definition constant_log_psi (spins : list (list Z)) : list C :=
  map (fun _ => (1, 0)) spins.
Definition perturbed_lib (spins : list (list Z)) (batch_size : Z) : list C :=
  map (fun _ => (1.00003, 0)) spins.
Definition one_spin : list (list Z) := [[5; 0; 0; 0; 0; 0; 0; 0]%Z].

Example array_to_int_words :
  _array_to_int [5; (-1); 0; 0; 0; 0; 0; 0]%Z = (5 + (2 ^ 64 - 1) * 2 ^ 64)%Z.
Proof. reflexivity. Qed.

Lemma Cabs_real (x : R) : 0 <= x -> Cabs (x, 0) = x.
Proof.
  intros Hx. unfold Cabs. simpl.
  replace (x * x + 0 * 0) with (x * x) by ring. apply sqrt_square. exact Hx.
Qed.

Lemma reference_one_spin :
  reference_log_apply identity_operator constant_log_psi one_spin = inr [(1, 0)].
Proof.
  unfold one_spin, reference_log_apply, _reference_log_apply_one, identity_operator,
    constant_log_psi, max_real, torch_dot, bind, ret.
  cbn [map fst snd fold_left length Nat.eqb combine].
  unfold Cexp, Cmul, Cadd, Clog. cbn [fst snd].
  replace (1 - 1) with 0 by ring. rewrite exp_0, cos_0, sin_0.
  replace (0 + (1 * (1 * 1) - 0 * (1 * 0))) with 1 by ring.
  replace (0 + (1 * (1 * 0) + 0 * (1 * 1))) with 0 by ring.
  rewrite (Cabs_real 1) by lra. rewrite ln_1.
  unfold Carg. destruct (Rlt_dec 0 1) as [_|Hn]; [|exfalso; lra].
  replace (0 / 1) with 0 by field. rewrite atan_0.
  replace (1 + 0) with 1 by ring. replace (0 + 0) with 0 by ring. reflexivity.
Qed.

Lemma isclose_example_default : torch_isclose (1.00003, 0) (1, 0) = false.
Proof.
  apply isclose_not_within. unfold within, Csub. cbn [fst snd].
  replace (1.00003 - 1) with 3e-5 by lra. replace (0 - 0) with 0 by ring.
  rewrite !Cabs_real by lra. lra.
Qed.

Lemma isclose_example_spec : within 5e-5 5e-7 (1.00003, 0) (1, 0).
Proof.
  unfold within, Csub. cbn [fst snd].
  replace (1.00003 - 1) with 3e-5 by lra. replace (0 - 0) with 0 by ring.
  rewrite !Cabs_real by lra. lra.
Qed.

(** C2, as stated, fails: an entry that differs from the reference by 3e-5
    at magnitude 1 is within the tolerances of the specification (relative
    5e-5, absolute 5e-7), so those tolerances let the call return; the
    source logs the entry and fails the check. *)
Lemma log_apply_rejects_within_spec_tolerance :
  reference_log_apply identity_operator constant_log_psi one_spin = inr [(1, 0)] /\
  within 5e-5 5e-7 (1.00003, 0) (1, 0) /\
  spec_log_apply identity_operator constant_log_psi perturbed_lib one_spin 128 true
    = ([], inr [(1.00003, 0)]) /\
  log_apply identity_operator constant_log_psi perturbed_lib one_spin 128 true
    = ([LogError 0 (1.00003, 0) (1, 0)], inl (AssertionError "")).
Proof.
  split; [exact reference_one_spin|].
  split; [exact isclose_example_spec|].
  pose proof isclose_example_spec as Hs. apply isclose_within in Hs.
  pose proof isclose_example_default as Hd.
  unfold spec_log_apply, log_apply, log_apply_with.
  rewrite reference_one_spin.
  unfold check_against_reference, broadcast_pairs, view_as, perturbed_lib, one_spin, ret.
  cbn [map length Nat.eqb negb combine forallb report_from Z.leb Z.compare bind].
  fold (_isclose (1.00003, 0) (1, 0)). unfold _isclose at 1. rewrite Hs, Hd.
  split; reflexivity.
Qed.

Lemma log_apply_debug_reports_mismatches_witness :
  let out := perturbed_lib one_spin 128 in
  let mismatch i a b :=
    nth_error out i = Some a /\ nth_error [(1, 0)] i = Some b /\
    ~ within 1e-5 1e-8 a b in
  ((forall i a b, ~ mismatch i a b) ->
     log_apply identity_operator constant_log_psi perturbed_lib one_spin 128 true
     = ([], inr out)) /\
  ((exists i a b, mismatch i a b) ->
     exists lines,
       log_apply identity_operator constant_log_psi perturbed_lib one_spin 128 true
       = (lines, inl (AssertionError "")) /\
       forall i a b, In (LogError i a b) lines <-> mismatch i a b) /\
  log_apply identity_operator constant_log_psi perturbed_lib one_spin 128 false
  = ([], inr out).
Proof.
  apply (log_apply_debug_reports_mismatches identity_operator constant_log_psi
           perturbed_lib one_spin 128 [(1, 0)]).
  - reflexivity.
  - exact reference_one_spin.
  - reflexivity.
Defined.

End LocalValues.

(** ** [sample_exactly] *)

Module ExactSampler.

Local Open Scope string_scope.

(** What a module-level name of [monte_carlo.py] is bound to. *)
Inductive PyObject : Type :=
| PyModule (name : string)
| PyCallable (name : string)
| PyList (items : list string)
| PyTensor (shape : list nat) (dev : device).

(** The global namespace of [monte_carlo.py]: its imports and its top-level
    definitions, in the order of the file. *)
Definition module_globals : list (string * PyObject) :=
  [ ("math", PyModule "math");
    ("randint", PyCallable "random.randint");
    ("Any", PyCallable "typing.Any");
    ("Optional", PyCallable "typing.Optional");
    ("Tuple", PyCallable "typing.Tuple");
    ("Callable", PyCallable "typing.Callable");
    ("np", PyModule "numpy");
    ("torch", PyModule "torch");
    ("Tensor", PyCallable "torch.Tensor");
    ("MetropolisKernel", PyCallable "MetropolisKernel");
    ("forward_with_batches", PyCallable "forward_with_batches");
    ("__all__", PyList ["SamplingOptions"; "sample_some"; "sample_exactly";
                        "sample_using_metropolis"; "integrated_autocorr_time";
                        "autocorr_function"]);
    ("SamplingOptions", PyCallable "SamplingOptions");
    ("metropolis_process", PyCallable "metropolis_process");
    ("sample_using_metropolis", PyCallable "sample_using_metropolis");
    ("sample_exactly", PyCallable "sample_exactly");
    ("sample_some", PyCallable "sample_some");
    ("_random_spin_configuration", PyCallable "_random_spin_configuration");
    ("_prepare_initial_state", PyCallable "_prepare_initial_state");
    ("_log_amplitudes_to_probabilities", PyCallable "_log_amplitudes_to_probabilities");
    ("safe_exp", PyCallable "safe_exp");
    ("autocorr_function", PyCallable "autocorr_function");
    ("_auto_window", PyCallable "_auto_window");
    ("integrated_autocorr_time", PyCallable "integrated_autocorr_time") ].

(** Reading a name that the function body never assigns: it is looked up
    in the module's globals (no builtin is called [xs] or [ys]). *)
Fixpoint lookup_name (name : string) (env : list (string * PyObject)) : Exn + PyObject :=
  match env with
  | [] => raise (NameError name)
  | (k, v) :: rest => if String.eqb k name then ret v else lookup_name name rest
  end.

Definition load_global (name : string) : Exn + PyObject :=
  lookup_name name module_globals.

(** A floating-point tensor: its shape, its entries in row-major order (in
    exact arithmetic) and its device. *)
Record Tensor : Type := mkTensor {
  shape : list nat;
  values : list R;
  dev : device
}.

Definition dim (t : Tensor) : nat := length (shape t).

(** [t.squeeze()]: every dimension of size 1 is removed. *)
Definition squeeze (t : Tensor) : Tensor :=
  mkTensor (filter (fun d => negb (Nat.eqb d 1)) (shape t)) (values t) (dev t).

Definition device_eqb (a b : device) : bool :=
  match a, b with
  | cpu, cpu => true
  | cuda i, cuda j => Nat.eqb i j
  | _, _ => false
  end.

(** [a[indices]] for a rank-1 [a] and a tensor of indices. *)
Fixpoint gather {A} (a : list A) (indices : list nat) : Exn + list A :=
  match indices with
  | [] => ret []
  | i :: rest =>
      match nth_error a i with
      | Some x => (do xs <- gather a rest; ret (x :: xs))%exn
      | None => raise (IndexError "index out of range in self")
      end
  end.

(** [t.view(rows, cols)] of a flat tensor, as a list of rows. *)
Fixpoint rows_of {A} (rows cols : nat) (l : list A) : list (list A) :=
  match rows with
  | O => []
  | S k => firstn cols l :: rows_of k cols (skipn cols l)
  end.

Definition view2 {A} (rows cols : Z) (l : list A) : Exn + list (list A) :=
  if ((0 <=? rows)%Z && (0 <=? cols)%Z && (rows * cols =? Z.of_nat (length l))%Z)%bool
  then ret (rows_of (Z.to_nat rows) (Z.to_nat cols) l)
  else raise (RuntimeError "shape is invalid for input size").

Section SampleExactly.

(** [forward_with_batches(log_prob_fn, xs, batch_size)] *)
Variable forward_with_batches : (Tensor -> Tensor) -> PyObject -> Z -> Exn + Tensor.
(** [torch.multinomial(prob, num_samples, replacement)] and
    [np.random.choice(n, size, replace, p)]; the number of samples is passed
    on as the source passes it, a one-element tuple. *)
Variable torch_multinomial : list R -> list Z -> bool -> Exn + list nat.
Variable np_random_choice : nat -> list Z -> bool -> list R -> Exn + list nat.

(** [sample_exactly(log_prob_fn, basis, options)], with [basis.states] for
    the basis.  The result is [(states, log_prob)]: [number_samples] rows
    of [number_chains] states of 8 words each, and their log-probabilities
    (the third component of the result is [None]). *)
Definition sample_exactly (log_prob_fn : Tensor -> Tensor)
    (basis_states : list Z) (options : Options.SamplingOptions)
  : Exn + (list (list (list Z)) * list (list R)) :=
  let device := Options.device_of options in
  let states := basis_states in
  (do xs <- load_global "xs";
   do log_prob <- forward_with_batches log_prob_fn xs 4096;
   let log_prob := squeeze log_prob in
   if negb (Nat.eqb (dim log_prob) 1) then
     raise (ValueError
       "log_prob_fn should return the logarithm of the probability, but output tensor has dimension {}; did you by accident usesign instead of amplitude network?"
       (Z.of_nat (dim log_prob)))
   else if negb (device_eqb (dev log_prob) device) then
     (do ys <- load_global "ys";
      raise (ValueError
        "log_prob_fn should return tensors residing on {}; received tensors residing on {} instead" 0))
   else
     do prob <- SafeExp.safe_exp (values log_prob) true;
     let number_samples :=
       [(Options.number_chains options * Options.number_samples options)%Z] in
     do indices <-
       (if (Z.of_nat (length prob) <? 2 ^ 24)%Z then torch_multinomial prob number_samples true
        else
          let prob := map (fun p => (p / SafeExp.torch_sum prob)%R) prob in
          np_random_choice (length prob) number_samples true prob);
     do log_prob <- gather (values log_prob) indices;
     do states <- gather states indices;
     let states := map (fun x => x :: repeat 0%Z 7) states in
     do states <- view2 (Options.number_samples options)
                    (Options.number_chains options) states;
     do log_prob <- view2 (Options.number_samples options)
                      (Options.number_chains options) log_prob;
     ret (states, log_prob))%exn.


End SampleExactly.

End ExactSampler.

(** ** [metropolis_process] *)

Module Metropolis.

(** [accepted.double()] and the Python integer of the denominator as
    [float64] values (for magnitudes below [2^63]). *)
Definition to_double (z : Z) : PrimFloat.float :=
  if (z <? 0)%Z then PrimFloat.opp (PrimFloat.of_uint63 (Uint63.of_Z (- z)))
  else PrimFloat.of_uint63 (Uint63.of_Z z).

(** An [int64] entry after an addition. *)
Definition wrap_int64 (z : Z) : Z := ((z + 2 ^ 63) mod 2 ^ 64 - 2 ^ 63)%Z.

Definition same_shape {A B} (x : list A) (y : list B) : bool :=
  Nat.eqb (length x) (length y).

(** [t[i]] for a row index [i] of a tensor with at least one dimension. *)
Definition get_row {A} (t : list (list A)) (i : nat) : Exn + list A :=
  match t !! i with
  | Some r => ret r
  | None => raise (IndexError "index out of range")
  end.

(** The entries of [current[t] = proposed[t]] on matching shapes. *)
Definition mask_select {A} (t : list bool) (current proposed : list A) : list A :=
  zip_with (fun (b : bool) (cp : A * A) => if b then cp.2 else cp.1)
           t (zip current proposed).

(** [current[t] = proposed[t]] for a boolean mask [t]. *)
Definition masked_assign {A} (current : list A) (t : list bool) (proposed : list A)
  : Exn + list A :=
  if same_shape t current && same_shape t proposed then
    ret (mask_select t current proposed)
  else raise (IndexError "The shape of the mask does not match the shape of the indexed tensor").

(** The entries of [accepted += t]. *)
Definition add_mask (accepted : list Z) (t : list bool) : list Z :=
  zip_with (fun a (b : bool) => wrap_int64 (a + Z.b2z b)) accepted t.

Section Sampler.

(** One chain's spin configuration, the element type of the floating-point
    tensors, and the state of the random generators. *)
Variables (St F W : Type).

(** The element-wise operations of [torch] on the floating-point tensors:
    [*], [/], [-], [torch.exp], the scalar 0, [>] and [<=]. *)
Variables (fmul fdiv fsub : F -> F -> F) (fexp : F -> F) (fzero : F).
Variables (fgt fle : F -> F -> bool).

(** [log_prob_fn] (with the [squeeze_] that follows each call), the
    transition kernel and [torch.rand(n)]. *)
Variable log_prob_fn : list St -> list F.
Variable kernel_fn : W -> list St -> list St * list F * W.
Variable torch_rand : W -> nat -> list F * W.

(** The contents of freshly allocated ([new_empty]) tensors. *)
Variables (junk_state : St) (junk_log_prob : F).

(** The tensors and variables that [metropolis_process] and its closure
    [sweep] share.  [current_state] and [current_log_prob] are views of
    row [cur] of [states] and [log_probs]; [current_norm] is the tensor
    passed in by the caller. *)
Record Store : Type := mkStore {
  states : list (list St);
  log_probs : list (list F);
  current_norm : list F;
  accepted : list Z;
  cur : nat;
  rng : W
}.

(** [(proposed_norm > 0) & (rand * proposed_norm / current_norm
     <= torch.exp(proposed_log_prob - current_log_prob))], entry by
    entry. *)
Definition accept_tensor (u proposed_norm norm proposed_log_prob log_prob : list F)
  : list bool :=
  let r := zip_with fdiv (zip_with fmul u proposed_norm) norm in
  zip_with andb
    (map (fun n' => fgt n' fzero) proposed_norm)
    (zip_with fle r (map fexp (zip_with fsub proposed_log_prob log_prob))).

Definition accept_mask (u proposed_norm norm proposed_log_prob log_prob : list F)
  : Exn + list bool :=
  if same_shape u proposed_norm && same_shape proposed_norm norm &&
     same_shape proposed_log_prob log_prob && same_shape proposed_norm proposed_log_prob
  then ret (accept_tensor u proposed_norm norm proposed_log_prob log_prob)
  else raise (RuntimeError "The size of tensor a must match the size of tensor b").

(** The body of the loop of [sweep]: one elementary step of every chain. *)
Definition step (s : Store) : Exn + Store :=
  (do current_state <- get_row (states s) (cur s);
   do current_log_prob <- get_row (log_probs s) (cur s);
   let '(proposed_state, proposed_norm, w1) := kernel_fn (rng s) current_state in
   let proposed_log_prob := log_prob_fn proposed_state in
   let '(u, w2) := torch_rand w1 (length current_state) in
   do t <- accept_mask u proposed_norm (current_norm s)
             proposed_log_prob current_log_prob;
   do new_state <- masked_assign current_state t proposed_state;
   do new_log_prob <- masked_assign current_log_prob t proposed_log_prob;
   do new_norm <- masked_assign (current_norm s) t proposed_norm;
   if same_shape (accepted s) t then
     ret (mkStore (<[cur s := new_state]> (states s))
                  (<[cur s := new_log_prob]> (log_probs s))
                  new_norm
                  (add_mask (accepted s) t)
                  (cur s) w2)
   else raise (RuntimeError "The size of tensor a must match the size of tensor b"))%exn.

(** [sweep()]: [for i in range(sweep_size)]. *)
Fixpoint sweep (sweep_size : nat) (s : Store) : Exn + Store :=
  match sweep_size with
  | O => ret s
  | S k => (do s' <- step s; sweep k s')%exn
  end.

(** [for i in range(number_discarded): sweep()] *)
Fixpoint thermalise (number_discarded sweep_size : nat) (s : Store) : Exn + Store :=
  match number_discarded with
  | O => ret s
  | S k => (do s' <- sweep sweep_size s; thermalise k sweep_size s')%exn
  end.

(** [accepted.fill_(0)] *)
Definition reset_accepted (s : Store) : Store :=
  mkStore (states s) (log_probs s) (current_norm s)
          (map (fun _ => 0%Z) (accepted s)) (cur s) (rng s).

(** One iteration of [for i in range(1, number_samples)]: copy the current
    row into row [i], make [current_state] and [current_log_prob] views of
    row [i], sweep. *)
Definition produce_one (sweep_size : nat) (i : nat) (s : Store) : Exn + Store :=
  (do current_state <- get_row (states s) (cur s);
   do current_log_prob <- get_row (log_probs s) (cur s);
   if bool_decide (i < length (states s)) && bool_decide (i < length (log_probs s)) then
     sweep sweep_size
       (mkStore (<[i := current_state]> (states s))
                (<[i := current_log_prob]> (log_probs s))
                (current_norm s) (accepted s) i (rng s))
   else raise (IndexError "index out of range"))%exn.

Fixpoint produce (sweep_size : nat) (indices : list nat) (s : Store) : Exn + Store :=
  match indices with
  | [] => ret s
  | i :: rest => (do s' <- produce_one sweep_size i s; produce sweep_size rest s')%exn
  end.

(** The part of [metropolis_process] before the thermalisation: the
    buffers are allocated, the initial state is copied into row 0 and
    [current_state], [current_log_prob] become views of that row. *)
Definition initialise (initial_state : list St) (initial_norm : list F) (w : W)
    (number_samples : nat) : Store :=
  let current_log_prob := log_prob_fn initial_state in
  let states := replicate number_samples
                  (replicate (length initial_state) junk_state) in
  let log_probs := replicate number_samples
                     (replicate (length current_log_prob) junk_log_prob) in
  let accepted := replicate (length initial_state) 0%Z in
  mkStore (<[0%nat := initial_state]> states)
          (<[0%nat := current_log_prob]> log_probs)
          initial_norm accepted 0%nat w.

(** [accepted.double() / ((number_samples - 1) * sweep_size)] *)
Definition acceptance_of (accepted : list Z) (number_samples sweep_size : Z)
  : list PrimFloat.float :=
  map (fun a => PrimFloat.div (to_double a)
                  (to_double ((number_samples - 1) * sweep_size)))
      accepted.

(** [metropolis_process(initial_state, log_prob_fn, kernel_fn,
    number_samples, number_discarded, sweep_size)], where [initial_state]
    is the pair of the states and their norms.  The result is
    [(states, log_probs, acceptance)] and the state of the generators. *)
Definition metropolis_process (initial_state : list St) (initial_norm : list F)
    (w : W) (number_samples number_discarded sweep_size : Z)
  : Exn + (list (list St) * list (list F) * list PrimFloat.float * W) :=
  if negb (1 <=? number_samples)%Z then raise (AssertionError "")
  else
    let s0 := initialise initial_state initial_norm w (Z.to_nat number_samples) in
    (do s1 <- thermalise (Z.to_nat number_discarded) (Z.to_nat sweep_size) s0;
     let s2 := reset_accepted s1 in
     do s3 <- produce (Z.to_nat sweep_size)
                (seq 1 (Z.to_nat number_samples - 1)) s2;
     ret (states s3, log_probs s3,
          acceptance_of (accepted s3) number_samples sweep_size, rng s3))%exn.

(** *** The chains as values

    The sampler as the specification describes it, without buffers: the
    chains are a value, and an elementary step proposes, tests and then
    replaces or retains state, norm and log-probability of every chain. *)

Record Chains : Type := mkChains {
  c_state : list St;
  c_norm : list F;
  c_log_prob : list F
}.

Definition chain_step (c : Chains) (w : W) : Chains * list bool * W :=
  let '(proposed_state, proposed_norm, w1) := kernel_fn w (c_state c) in
  let proposed_log_prob := log_prob_fn proposed_state in
  let '(u, w2) := torch_rand w1 (length (c_state c)) in
  let t := accept_tensor u proposed_norm (c_norm c) proposed_log_prob (c_log_prob c) in
  (mkChains (mask_select t (c_state c) proposed_state)
            (mask_select t (c_norm c) proposed_norm)
            (mask_select t (c_log_prob c) proposed_log_prob), t, w2).

(** [k] elementary steps: the chains reached, the acceptance masks of the
    steps in order, and the generators. *)
Fixpoint chain_run (k : nat) (c : Chains) (w : W) : Chains * list (list bool) * W :=
  match k with
  | O => (c, [], w)
  | S k' =>
      let '(c1, t, w1) := chain_step c w in
      let '(c2, ts, w2) := chain_run k' c1 w1 in
      (c2, t :: ts, w2)
  end.

Definition chains_after (k : nat) (c : Chains) (w : W) : Chains := (chain_run k c w).1.1.
Definition masks_of (k : nat) (c : Chains) (w : W) : list (list bool) := (chain_run k c w).1.2.
Definition rng_after (k : nat) (c : Chains) (w : W) : W := (chain_run k c w).2.

Definition initial_chains (initial_state : list St) (initial_norm : list F) : Chains :=
  mkChains initial_state initial_norm (log_prob_fn initial_state).

(** How many of the steps [masks] chain [j] accepted. *)
Fixpoint times_accepted (j : nat) (masks : list (list bool)) : Z :=
  match masks with
  | [] => 0%Z
  | t :: rest => (Z.b2z (default false (t !! j)) + times_accepted j rest)%Z
  end.

(** The chain [j] of the store: its state, norm and log-probability. *)
Definition chain_of (s : Store) (j : nat) : option (St * F * F) :=
  match states s !! cur s, log_probs s !! cur s with
  | Some current_state, Some current_log_prob =>
      match current_state !! j, current_norm s !! j, current_log_prob !! j with
      | Some x, Some nm, Some lp => Some (x, nm, lp)
      | _, _, _ => None
      end
  | _, _ => None
  end.

(** The acceptance test of one chain, as the specification words it:
    [norm' > 0 AND u * norm' / norm <= exp(log_prob' - log_prob)]. *)
Definition chain_accepts (u norm' norm log_prob' log_prob : F) : bool :=
  fgt norm' fzero && fle (fdiv (fmul u norm') norm) (fexp (fsub log_prob' log_prob)).

Definition wf_chains (n : nat) (c : Chains) : Prop :=
  length (c_state c) = n /\ length (c_norm c) = n /\ length (c_log_prob c) = n.

(** The store holds the chains [c] in its current row. *)
Definition holds (s : Store) (c : Chains) : Prop :=
  states s !! cur s = Some (c_state c) /\
  log_probs s !! cur s = Some (c_log_prob c) /\
  current_norm s = c_norm c.

(** The store whose current row, norms, counters and generators are
    replaced. *)
Definition install (s : Store) (c : Chains) (acc : list Z) (w : W) : Store :=
  mkStore (<[cur s := c_state c]> (states s))
          (<[cur s := c_log_prob c]> (log_probs s))
          (c_norm c) acc (cur s) w.

Lemma same_shape_true {A B} (x : list A) (y : list B) :
  length x = length y -> same_shape x y = true.
Proof. intros H. unfold same_shape. rewrite H. apply Nat.eqb_refl. Qed.

Lemma mask_select_length {A} (t : list bool) (x y : list A) n :
  length t = n -> length x = n -> length y = n -> length (mask_select t x y) = n.
Proof.
  intros Ht Hx Hy. unfold mask_select.
  rewrite length_zip_with, length_zip_with. lia.
Qed.

Lemma mask_select_lookup {A} (t : list bool) (x y : list A) (j : nat) (b : bool) (a a' : A) :
  t !! j = Some b -> x !! j = Some a -> y !! j = Some a' ->
  mask_select t x y !! j = Some (if b then a' else a).
Proof.
  intros Ht Hx Hy. unfold mask_select.
  rewrite lookup_zip_with, Ht. simpl.
  rewrite lookup_zip_with, Hx. simpl. rewrite Hy. reflexivity.
Qed.

Lemma add_mask_length (acc : list Z) (t : list bool) n :
  length acc = n -> length t = n -> length (add_mask acc t) = n.
Proof. intros Ha Ht. unfold add_mask. rewrite length_zip_with. lia. Qed.

Lemma add_mask_lookup (acc : list Z) (t : list bool) (j : nat) (a : Z) (b : bool) :
  acc !! j = Some a -> t !! j = Some b ->
  add_mask acc t !! j = Some (wrap_int64 (a + Z.b2z b)).
Proof.
  intros Ha Ht. unfold add_mask. rewrite lookup_zip_with, Ha. simpl.
  rewrite Ht. reflexivity.
Qed.

Lemma accept_tensor_length (u pn nm plp lp : list F) (n : nat) :
  length u = n -> length pn = n -> length nm = n -> length plp = n -> length lp = n ->
  length (accept_tensor u pn nm plp lp) = n.
Proof.
  intros Hu Hpn Hnm Hplp Hlp. unfold accept_tensor.
  rewrite !length_zip_with, !length_map, !length_zip_with. lia.
Qed.

Lemma accept_tensor_lookup (u pn nm plp lp : list F) (j : nat) (uj pnj nmj plpj lpj : F) :
  u !! j = Some uj -> pn !! j = Some pnj -> nm !! j = Some nmj ->
  plp !! j = Some plpj -> lp !! j = Some lpj ->
  accept_tensor u pn nm plp lp !! j = Some (chain_accepts uj pnj nmj plpj lpj).
Proof.
  intros Hu Hpn Hnm Hplp Hlp. unfold accept_tensor, chain_accepts.
  rewrite lookup_zip_with, list_lookup_fmap, Hpn. simpl.
  rewrite lookup_zip_with, lookup_zip_with, lookup_zip_with, Hu. simpl.
  rewrite Hpn. simpl. rewrite Hnm. simpl.
  rewrite list_lookup_fmap, lookup_zip_with, Hplp. simpl. rewrite Hlp. reflexivity.
Qed.

(** *** Callbacks that keep the batch shape *)

Hypothesis kernel_fn_shape : forall w xs,
  length (kernel_fn w xs).1.1 = length xs /\ length (kernel_fn w xs).1.2 = length xs.
Hypothesis log_prob_fn_shape : forall xs, length (log_prob_fn xs) = length xs.
Hypothesis torch_rand_shape : forall w n, length (torch_rand w n).1 = n.

Lemma chain_step_wf n c w :
  wf_chains n c ->
  wf_chains n (chain_step c w).1.1 /\ length (chain_step c w).1.2 = n.
Proof.
  intros (Hs & Hn & Hl). unfold chain_step.
  pose proof (kernel_fn_shape w (c_state c)) as [Hk1 Hk2].
  destruct (kernel_fn w (c_state c)) as [[ps pn] w1]. simpl in Hk1, Hk2.
  pose proof (torch_rand_shape w1 (length (c_state c))) as Hr.
  destruct (torch_rand w1 (length (c_state c))) as [u w2]. simpl in Hr.
  pose proof (log_prob_fn_shape ps) as Hp.
  assert (Ht : length (accept_tensor u pn (c_norm c) (log_prob_fn ps) (c_log_prob c)) = n)
    by (apply accept_tensor_length; lia).
  simpl. unfold wf_chains. simpl.
  repeat split; try exact Ht; apply mask_select_length; lia.
Qed.

(** One step of the source on a store that holds [c] is one step of the
    chains, written back into the current row. *)
Lemma step_refines n s c :
  holds s c -> wf_chains n c -> length (accepted s) = n ->
  step s = inr (install s (chain_step c (rng s)).1.1
                  (add_mask (accepted s) (chain_step c (rng s)).1.2)
                  (chain_step c (rng s)).2).
Proof.
  intros (Hst & Hlp & Hnm) (Hs & Hn & Hl) Hacc.
  unfold step, get_row. rewrite Hst, Hlp. simpl.
  unfold chain_step.
  pose proof (kernel_fn_shape (rng s) (c_state c)) as [Hk1 Hk2].
  destruct (kernel_fn (rng s) (c_state c)) as [[ps pn] w1]. simpl in Hk1, Hk2.
  pose proof (torch_rand_shape w1 (length (c_state c))) as Hr.
  destruct (torch_rand w1 (length (c_state c))) as [u w2]. simpl in Hr.
  pose proof (log_prob_fn_shape ps) as Hp.
  assert (Ht : length (accept_tensor u pn (c_norm c) (log_prob_fn ps) (c_log_prob c)) = n)
    by (apply accept_tensor_length; lia).
  unfold accept_mask. rewrite Hnm.
  rewrite !same_shape_true by lia. cbv [bind ret raise andb].
  unfold masked_assign. rewrite !same_shape_true by lia.
  cbv [bind ret raise andb]. reflexivity.
Qed.

Lemma holds_install s c acc w :
  (cur s < length (states s))%nat -> (cur s < length (log_probs s))%nat ->
  holds (install s c acc w) c.
Proof.
  intros H1 H2. unfold holds, install. simpl.
  rewrite !list_lookup_insert_eq by assumption. repeat split.
Qed.

Lemma install_install s c1 acc1 w1 c2 acc2 w2 :
  install (install s c1 acc1 w1) c2 acc2 w2 = install s c2 acc2 w2.
Proof. unfold install. simpl. rewrite !list_insert_insert_eq. reflexivity. Qed.

Lemma install_id s c :
  holds s c -> install s c (accepted s) (rng s) = s.
Proof.
  intros (H1 & H2 & H3). unfold install. destruct s as [sts lps nm acc i w].
  simpl in *. rewrite !list_insert_id by assumption. subst. reflexivity.
Qed.

Lemma holds_lt s c :
  holds s c -> (cur s < length (states s))%nat /\ (cur s < length (log_probs s))%nat.
Proof. intros (H1 & H2 & _). split; eapply lookup_lt_Some; eassumption. Qed.

Lemma chain_run_wf n : forall k c w,
  wf_chains n c ->
  wf_chains n (chains_after k c w) /\
  Forall (fun t => length t = n) (masks_of k c w) /\
  length (masks_of k c w) = k.
Proof.
  unfold chains_after, masks_of.
  induction k as [|k IH]; intros c w Hc; simpl;
    [split; [exact Hc|]; split; [constructor | reflexivity]|].
  destruct (chain_step_wf n c w Hc) as [Hc1 Ht].
  destruct (chain_step c w) as [[c1 t] w1]. simpl in Hc1, Ht.
  specialize (IH c1 w1 Hc1).
  destruct (chain_run k c1 w1) as [[c2 ts] w2]. simpl in *.
  destruct IH as (Hc2 & Hts & Hlen).
  split; [exact Hc2|]. split; [constructor; assumption | lia].
Qed.

Lemma fold_add_mask_length n : forall masks acc,
  length acc = n -> Forall (fun t => length t = n) masks ->
  length (fold_left add_mask masks acc) = n.
Proof.
  induction masks as [|t masks IH]; intros acc Ha Hf; simpl; [exact Ha|].
  inversion Hf; subst. apply IH; [apply add_mask_length; auto | assumption].
Qed.

(** [k] steps of the source are [k] steps of the chains. *)
Lemma sweep_refines n : forall k s c,
  holds s c -> wf_chains n c -> length (accepted s) = n ->
  sweep k s = inr (install s (chains_after k c (rng s))
                     (fold_left add_mask (masks_of k c (rng s)) (accepted s))
                     (rng_after k c (rng s))).
Proof.
  unfold chains_after, masks_of, rng_after.
  induction k as [|k IH]; intros s c Hh Hc Ha; simpl.
  - rewrite install_id by exact Hh. reflexivity.
  - rewrite (step_refines n s c Hh Hc Ha). simpl.
    destruct (chain_step_wf n c (rng s) Hc) as [Hc1 Ht].
    destruct (holds_lt s c Hh) as [Hlt1 Hlt2].
    destruct (chain_step c (rng s)) as [[c1 t] w1]. simpl in *.
    rewrite (IH (install s c1 (add_mask (accepted s) t) w1) c1).
    + simpl. destruct (chain_run k c1 w1) as [[c2 ts] w2]. simpl.
      rewrite install_install. reflexivity.
    + apply holds_install; assumption.
    + exact Hc1.
    + simpl. apply add_mask_length; assumption.
Qed.

Lemma chain_run_add : forall a b c w,
  chains_after (a + b) c w = chains_after b (chains_after a c w) (rng_after a c w) /\
  masks_of (a + b) c w =
    masks_of a c w ++ masks_of b (chains_after a c w) (rng_after a c w) /\
  rng_after (a + b) c w = rng_after b (chains_after a c w) (rng_after a c w).
Proof.
  unfold chains_after, masks_of, rng_after.
  induction a as [|a IH]; intros b c w; simpl; [repeat split|].
  destruct (chain_step c w) as [[c1 t] w1].
  specialize (IH b c1 w1).
  destruct (chain_run (a + b) c1 w1) as [[c2 ts] w2].
  destruct (chain_run a c1 w1) as [[c3 ts3] w3]. simpl in *.
  destruct IH as (-> & -> & ->). repeat split.
Qed.

(** The thermalisation is [number_discarded * sweep_size] steps of the
    chains, all in the row that was current when it began. *)
Lemma thermalise_refines n ss : forall m s c,
  holds s c -> wf_chains n c -> length (accepted s) = n ->
  thermalise m ss s =
  inr (install s (chains_after (m * ss) c (rng s))
         (fold_left add_mask (masks_of (m * ss) c (rng s)) (accepted s))
         (rng_after (m * ss) c (rng s))).
Proof.
  induction m as [|m IH]; intros s c Hh Hc Ha.
  - simpl. unfold chains_after, masks_of, rng_after. simpl.
    rewrite install_id by exact Hh. reflexivity.
  - cbn [thermalise]. rewrite (sweep_refines n ss s c Hh Hc Ha). cbn [bind].
    destruct (holds_lt s c Hh) as [Hlt1 Hlt2].
    destruct (chain_run_wf n ss c (rng s) Hc) as (Hc1 & Hm1 & _).
    rewrite (IH _ (chains_after ss c (rng s))).
    + rewrite install_install. cbn [rng accepted install].
      replace (S m * ss)%nat with (ss + m * ss)%nat by lia.
      destruct (chain_run_add ss (m * ss) c (rng s)) as (-> & -> & ->).
      rewrite fold_left_app. reflexivity.
    + apply holds_install; assumption.
    + exact Hc1.
    + cbn [accepted install]. apply fold_add_mask_length; assumption.
Qed.

(** The production loop: row [a + r] ends as the chains after [r + 1]
    further sweeps, the rows below [a] are left as they were, and the
    counters grow by the masks of exactly these steps. *)
Lemma produce_refines n ss : forall k s c a,
  holds s c -> wf_chains n c -> length (accepted s) = n ->
  (cur s < a)%nat -> (a + k <= length (states s))%nat ->
  length (log_probs s) = length (states s) ->
  exists s',
    produce ss (seq a k) s = inr s' /\
    length (states s') = length (states s) /\
    length (log_probs s') = length (states s) /\
    holds s' (chains_after (k * ss) c (rng s)) /\
    accepted s' = fold_left add_mask (masks_of (k * ss) c (rng s)) (accepted s) /\
    rng s' = rng_after (k * ss) c (rng s) /\
    (forall i, (i < a)%nat ->
       states s' !! i = states s !! i /\ log_probs s' !! i = log_probs s !! i) /\
    (forall r, (r < k)%nat ->
       states s' !! (a + r)%nat
         = Some (c_state (chains_after ((r + 1) * ss) c (rng s))) /\
       log_probs s' !! (a + r)%nat
         = Some (c_log_prob (chains_after ((r + 1) * ss) c (rng s)))).
Proof.
  induction k as [|k IH]; intros s c a Hh Hc Ha Hcur Hrows Hlps.
  - exists s. simpl. unfold chains_after, masks_of, rng_after. simpl.
    repeat split; try assumption; try apply Hh; try lia.
  - cbn [seq produce]. unfold produce_one, get_row.
    destruct Hh as (Hst & Hlp & Hnm). rewrite Hst, Hlp. cbn [bind ret].
    rewrite !bool_decide_eq_true_2 by lia. cbn [andb].
    set (s_mid := mkStore (<[a := c_state c]> (states s))
                          (<[a := c_log_prob c]> (log_probs s))
                          (current_norm s) (accepted s) a (rng s)).
    assert (Hmid : holds s_mid c).
    { unfold holds, s_mid. cbn [states log_probs current_norm cur].
      rewrite !list_lookup_insert_eq by lia. repeat split. exact Hnm. }
    rewrite (sweep_refines n ss s_mid c Hmid Hc Ha). cbn [bind].
    destruct (chain_run_wf n ss c (rng s) Hc) as (Hc1 & Hm1 & _).
    set (c1 := chains_after ss c (rng s)) in *.
    set (w1 := rng_after ss c (rng s)).
    set (acc1 := fold_left add_mask (masks_of ss c (rng s)) (accepted s)).
    change (rng s_mid) with (rng s). change (accepted s_mid) with (accepted s).
    fold c1 w1 acc1.
    set (s1 := install s_mid c1 acc1 w1).
    assert (Hlen1 : length (states s1) = length (states s))
      by (unfold s1, install, s_mid; cbn [states cur]; rewrite !length_insert; reflexivity).
    assert (Hlenl1 : length (log_probs s1) = length (states s))
      by (unfold s1, install, s_mid; cbn [log_probs cur]; rewrite !length_insert; exact Hlps).
    destruct (IH s1 c1 (S a)) as (s' & Hp & Hl' & Hll' & Hh' & Hacc' & Hrng' & Hlow & Hrow).
    + apply holds_install; unfold s_mid; cbn [states log_probs cur];
        rewrite length_insert; lia.
    + exact Hc1.
    + unfold s1. cbn [accepted install]. apply fold_add_mask_length; assumption.
    + unfold s1. cbn [cur install s_mid]. lia.
    + rewrite Hlen1. lia.
    + rewrite Hlen1, Hlenl1. reflexivity.
    + exists s'. rewrite Hp.
      change (rng s1) with w1 in *. change (accepted s1) with acc1 in *.
      replace (S k * ss)%nat with (ss + k * ss)%nat by lia.
      destruct (chain_run_add ss (k * ss) c (rng s)) as (Ec & Em & Er).
      fold c1 w1 in Ec, Em, Er. rewrite Ec, Em, Er.
      split; [reflexivity|]. split; [lia|]. split; [lia|].
      split; [exact Hh'|]. split; [rewrite Hacc'; unfold acc1; rewrite fold_left_app; reflexivity|].
      split; [exact Hrng'|]. split.
      * intros i Hi. destruct (Hlow i) as [E1 E2]; [lia|]. rewrite E1, E2.
        unfold s1, install, s_mid. cbn [states log_probs cur].
        rewrite !list_lookup_insert_ne by lia. split; reflexivity.
      * intros [|r] Hr.
        -- rewrite Nat.add_0_r. destruct (Hlow a) as [E1 E2]; [lia|]. rewrite E1, E2.
           unfold s1, install, s_mid. cbn [states log_probs cur].
           rewrite !list_lookup_insert_eq by (rewrite ?length_insert; lia).
           replace ((0 + 1) * ss)%nat with (ss + 0)%nat by lia.
           destruct (chain_run_add ss 0 c (rng s)) as (E0 & _ & _).
           rewrite E0. fold c1 w1. split; reflexivity.
        -- replace (a + S r)%nat with (S a + r)%nat by lia.
           destruct (Hrow r) as [E1 E2]; [lia|]. rewrite E1, E2.
           replace ((S r + 1) * ss)%nat with (ss + (r + 1) * ss)%nat by lia.
           destruct (chain_run_add ss ((r + 1) * ss) c (rng s)) as (E0 & _ & _).
           rewrite E0. fold c1 w1. split; reflexivity.
Qed.

Lemma initialise_facts initial_state initial_norm w number_samples :
  (1 <= number_samples)%nat -> length initial_norm = length initial_state ->
  let s0 := initialise initial_state initial_norm w number_samples in
  holds s0 (initial_chains initial_state initial_norm) /\
  wf_chains (length initial_state) (initial_chains initial_state initial_norm) /\
  accepted s0 = replicate (length initial_state) 0%Z /\
  length (states s0) = number_samples /\ length (log_probs s0) = number_samples /\
  cur s0 = 0%nat /\ rng s0 = w.
Proof.
  intros Hns Hlen. unfold initialise, holds, wf_chains, initial_chains.
  cbn [states log_probs current_norm accepted cur rng c_state c_norm c_log_prob].
  rewrite !list_lookup_insert_eq by (rewrite length_replicate; lia).
  rewrite !length_insert, !length_replicate, log_prob_fn_shape.
  repeat split; assumption.
Qed.

Lemma reset_accepted_zeros s n :
  length (accepted s) = n -> accepted (reset_accepted s) = replicate n 0%Z.
Proof.
  intros <-. unfold reset_accepted. cbn [accepted].
  induction (accepted s) as [|a l IH]; simpl; [reflexivity|]. rewrite IH. reflexivity.
Qed.

(** The whole of [metropolis_process] in terms of the chains: the store
    after the thermalisation, the reset, the store after the production
    loop, and the rows of the result. *)
Lemma process_refines initial_state initial_norm w
    (number_samples number_discarded sweep_size : Z) :
  (1 <= number_samples)%Z -> length initial_norm = length initial_state ->
  let n := length initial_state in
  let c0 := initial_chains initial_state initial_norm in
  let nd := Z.to_nat number_discarded in
  let ss := Z.to_nat sweep_size in
  let c_th := chains_after (nd * ss) c0 w in
  let w_th := rng_after (nd * ss) c0 w in
  exists s1 s3,
    thermalise nd ss (initialise initial_state initial_norm w (Z.to_nat number_samples))
      = inr s1 /\
    accepted (reset_accepted s1) = replicate n 0%Z /\
    produce ss (seq 1 (Z.to_nat number_samples - 1)) (reset_accepted s1) = inr s3 /\
    metropolis_process initial_state initial_norm w
      number_samples number_discarded sweep_size
      = inr (states s3, log_probs s3,
             acceptance_of (accepted s3) number_samples sweep_size, rng s3) /\
    length (states s3) = Z.to_nat number_samples /\
    length (log_probs s3) = Z.to_nat number_samples /\
    accepted s3 = fold_left add_mask
                    (masks_of ((Z.to_nat number_samples - 1) * ss) c_th w_th)
                    (replicate n 0%Z) /\
    rng s3 = rng_after ((Z.to_nat number_samples - 1) * ss) c_th w_th /\
    forall i, (i < Z.to_nat number_samples)%nat ->
      states s3 !! i = Some (c_state (chains_after ((nd + i) * ss) c0 w)) /\
      log_probs s3 !! i = Some (c_log_prob (chains_after ((nd + i) * ss) c0 w)).
Proof.
  intros Hns Hlen n c0 nd ss c_th w_th.
  destruct (initialise_facts initial_state initial_norm w (Z.to_nat number_samples))
    as (Hh0 & Hc0 & Ha0 & Hl0 & Hll0 & Hcur0 & Hrng0); [lia | exact Hlen |].
  set (s0 := initialise initial_state initial_norm w (Z.to_nat number_samples)) in *.
  fold c0 n in Hh0, Hc0, Ha0.
  assert (Han0 : length (accepted s0) = n) by (rewrite Ha0; apply length_replicate).
  pose proof (thermalise_refines n ss nd s0 c0 Hh0 Hc0 Han0) as Hth.
  rewrite Hrng0 in Hth. fold c_th w_th in Hth.
  destruct (chain_run_wf n (nd * ss) c0 w Hc0) as (Hcth & Hmth & _). fold c_th in Hcth.
  set (acc_th := fold_left add_mask (masks_of (nd * ss) c0 w) (accepted s0)) in *.
  assert (Hacc_th : length acc_th = n)
    by (apply fold_add_mask_length; assumption).
  set (s1 := install s0 c_th acc_th w_th) in *.
  destruct (holds_lt s0 c0 Hh0) as [Hlt1 Hlt2].
  assert (Hh1 : holds s1 c_th) by (apply holds_install; assumption).
  set (s2 := reset_accepted s1).
  assert (Hh2 : holds s2 c_th) by exact Hh1.
  assert (Ha2 : accepted s2 = replicate n 0%Z)
    by (apply reset_accepted_zeros; exact Hacc_th).
  assert (Hl2 : length (states s2) = Z.to_nat number_samples)
    by (unfold s2, reset_accepted, s1, install; cbn [states]; rewrite length_insert; exact Hl0).
  assert (Hll2 : length (log_probs s2) = Z.to_nat number_samples)
    by (unfold s2, reset_accepted, s1, install; cbn [log_probs]; rewrite length_insert; exact Hll0).
  destruct (produce_refines n ss (Z.to_nat number_samples - 1) s2 c_th 1)
    as (s3 & Hp & Hl3 & Hll3 & Hh3 & Hacc3 & Hrng3 & Hlow & Hrow).
  { exact Hh2. } { exact Hcth. }
  { rewrite Ha2. apply length_replicate. }
  { unfold s2, reset_accepted, s1, install. cbn [cur]. lia. }
  { rewrite Hl2. lia. } { rewrite Hl2, Hll2. reflexivity. }
  change (rng s2) with w_th in *.
  exists s1, s3. split; [exact Hth|]. split; [exact Ha2|]. split; [exact Hp|].
  split.
  { unfold metropolis_process.
    destruct (Z.leb_spec 1 number_samples) as [_|?]; [|lia]. cbn [negb].
    fold s0 nd ss. rewrite Hth. cbn [bind]. fold s2. rewrite Hp. reflexivity. }
  split; [lia|]. split; [lia|].
  split; [rewrite Hacc3, Ha2; reflexivity|]. split; [exact Hrng3|].
  intros [|i] Hi.
  - destruct (Hlow 0%nat) as [E1 E2]; [lia|]. rewrite E1, E2.
    rewrite Nat.add_0_r. fold c_th.
    destruct Hh2 as (H1 & H2 & _).
    replace (cur s2) with 0%nat in H1, H2
      by (unfold s2, reset_accepted, s1, install; cbn [cur]; lia).
    split; assumption.
  - destruct (Hrow i) as [E1 E2]; [lia|].
    change (1 + i)%nat with (S i) in E1, E2. rewrite E1, E2.
    replace ((nd + S i) * ss)%nat with (nd * ss + (i + 1) * ss)%nat by lia.
    destruct (chain_run_add (nd * ss) ((i + 1) * ss) c0 w) as (E0 & _ & _).
    rewrite E0. fold c_th w_th. split; reflexivity.
Qed.

Lemma wrap_int64_small z : (- 2 ^ 63 <= z < 2 ^ 63)%Z -> wrap_int64 z = z.
Proof. intros Hz. unfold wrap_int64. rewrite Z.mod_small; lia. Qed.

Lemma times_accepted_bounds j : forall masks,
  (0 <= times_accepted j masks <= Z.of_nat (length masks))%Z.
Proof.
  induction masks as [|t masks IH]; simpl; [lia|].
  destruct (default false (t !! j)); simpl Z.b2z; lia.
Qed.

(** Without overflow the counter of chain [j] is the number of steps that
    the chain accepted. *)
Lemma fold_add_mask_counts n (j : nat) : forall masks (acc : list Z) (a : Z),
  Forall (fun t => length t = n) masks -> length acc = n ->
  acc !! j = Some a -> (0 <= a)%Z -> (a + Z.of_nat (length masks) < 2 ^ 63)%Z ->
  fold_left add_mask masks acc !! j = Some (a + times_accepted j masks)%Z.
Proof.
  induction masks as [|t masks IH]; intros acc a Hf Hl Ha H0 Hb; simpl.
  - rewrite Z.add_0_r. exact Ha.
  - apply Forall_cons in Hf as [Ht Hf'].
    assert (Hj : (j < length t)%nat) by (rewrite Ht, <- Hl; eapply lookup_lt_Some; eassumption).
    destruct (lookup_lt_is_Some_2 t j Hj) as [b Hb'].
    rewrite (IH (add_mask acc t) (a + Z.b2z b)%Z).
    + rewrite Hb'. simpl default. f_equal. lia.
    + exact Hf'.
    + apply add_mask_length; [exact Hl | exact Ht].
    + rewrite (add_mask_lookup acc t j a b Ha Hb'). f_equal.
      apply wrap_int64_small. simpl length in Hb. destruct b; simpl Z.b2z; lia.
    + destruct b; simpl Z.b2z; lia.
    + simpl length in Hb. destruct b; simpl Z.b2z; lia.
Qed.

(** C1: at an elementary step, chain [j] is accepted exactly when
    [norm' > 0] and [u * norm' / norm <= exp(log_prob' - log_prob)] for its
    own uniform draw [u]; on acceptance its state, norm and log-probability
    are replaced together by the proposed values, and otherwise all three
    are kept; the counter of the chain grows by one exactly on acceptance. *)
Theorem step_accepts_iff (s : Store) (c : Chains) (n j : nat)
    (Hh : holds s c) (Hc : wf_chains n c) (Ha : length (accepted s) = n)
    (Hj : (j < n)%nat) :
  let proposal := kernel_fn (rng s) (c_state c) in
  let proposed_log_prob := log_prob_fn proposal.1.1 in
  let rand := (torch_rand proposal.2 (length (c_state c))).1 in
  exists s' x nm lp x' nm' lp' u a,
    step s = inr s' /\
    chain_of s j = Some (x, nm, lp) /\ accepted s !! j = Some a /\
    proposal.1.1 !! j = Some x' /\ proposal.1.2 !! j = Some nm' /\
    proposed_log_prob !! j = Some lp' /\ rand !! j = Some u /\
    let accept :=
      fgt nm' fzero && fle (fdiv (fmul u nm') nm) (fexp (fsub lp' lp)) in
    chain_of s' j = Some (if accept then (x', nm', lp') else (x, nm, lp)) /\
    accepted s' !! j = Some (wrap_int64 (a + Z.b2z accept)).
Proof.
  intros proposal proposed_log_prob rand.
  pose proof (step_refines n s c Hh Hc Ha) as Hstep.
  destruct (holds_lt s c Hh) as [Hlt1 Hlt2].
  destruct Hh as (Hst & Hlp & Hnm). destruct Hc as (Hs & Hn & Hl).
  unfold chain_step in Hstep.
  pose proof (kernel_fn_shape (rng s) (c_state c)) as [Hk1 Hk2].
  subst rand proposed_log_prob proposal.
  destruct (kernel_fn (rng s) (c_state c)) as [[ps pn] w1]. cbn [fst snd] in *.
  pose proof (log_prob_fn_shape ps) as Hp.
  pose proof (torch_rand_shape w1 (length (c_state c))) as Hr.
  destruct (torch_rand w1 (length (c_state c))) as [rand w2].
  cbn [fst snd] in *.
  set (proposed_log_prob := log_prob_fn ps) in *.
  destruct (lookup_lt_is_Some_2 (c_state c) j) as [x Hx]; [lia|].
  destruct (lookup_lt_is_Some_2 (c_norm c) j) as [nm Hnmj]; [lia|].
  destruct (lookup_lt_is_Some_2 (c_log_prob c) j) as [lp Hlpj]; [lia|].
  destruct (lookup_lt_is_Some_2 ps j) as [x' Hx']; [lia|].
  destruct (lookup_lt_is_Some_2 pn j) as [nm' Hnm']; [lia|].
  destruct (lookup_lt_is_Some_2 proposed_log_prob j) as [lp' Hlp']; [lia|].
  destruct (lookup_lt_is_Some_2 rand j) as [u Hu]; [lia|].
  destruct (lookup_lt_is_Some_2 (accepted s) j) as [a Haj]; [lia|].
  pose proof (accept_tensor_lookup rand pn (c_norm c) proposed_log_prob (c_log_prob c)
                j u nm' nm lp' lp Hu Hnm' Hnmj Hlp' Hlpj) as Ht.
  unfold chain_accepts in Ht.
  eexists _, x, nm, lp, x', nm', lp', u, a.
  split; [exact Hstep|].
  split; [unfold chain_of; rewrite Hst, Hlp, Hnm, Hx, Hnmj, Hlpj; reflexivity|].
  split; [exact Haj|]. do 4 (split; [assumption|]).
  cbv zeta. split.
  - unfold chain_of, install.
    cbn [states log_probs current_norm cur c_state c_norm c_log_prob fst snd].
    rewrite !list_lookup_insert_eq by assumption.
    rewrite (mask_select_lookup _ _ _ j _ _ _ Ht Hx Hx').
    rewrite (mask_select_lookup _ _ _ j _ _ _ Ht Hnmj Hnm').
    rewrite (mask_select_lookup _ _ _ j _ _ _ Ht Hlpj Hlp').
    destruct (fgt nm' fzero && fle (fdiv (fmul u nm') nm) (fexp (fsub lp' lp)));
      reflexivity.
  - unfold install. cbn [accepted fst snd].
    apply add_mask_lookup; assumption.
Qed.

(** C5: the counters are all 0 right after the thermalisation sweeps and
    before the first production sweep, and at the end the counter of each
    chain is the number of production steps that the chain accepted, so
    the rate [accepted / ((number_samples - 1) * sweep_size)] counts
    production steps only. *)
Theorem acceptance_counts_production_only initial_state initial_norm w
    (number_samples number_discarded sweep_size : Z)
    (Hns : (1 <= number_samples)%Z)
    (Hlen : length initial_norm = length initial_state)
    (Hsteps : ((number_samples - 1) * sweep_size < 2 ^ 63)%Z) :
  let n := length initial_state in
  let c0 := initial_chains initial_state initial_norm in
  let thermal := (Z.to_nat number_discarded * Z.to_nat sweep_size)%nat in
  let production := ((Z.to_nat number_samples - 1) * Z.to_nat sweep_size)%nat in
  let production_masks :=
    masks_of production (chains_after thermal c0 w) (rng_after thermal c0 w) in
  exists s1 s3,
    thermalise (Z.to_nat number_discarded) (Z.to_nat sweep_size)
      (initialise initial_state initial_norm w (Z.to_nat number_samples)) = inr s1 /\
    accepted (reset_accepted s1) = replicate n 0%Z /\
    produce (Z.to_nat sweep_size) (seq 1 (Z.to_nat number_samples - 1))
      (reset_accepted s1) = inr s3 /\
    metropolis_process initial_state initial_norm w
      number_samples number_discarded sweep_size
      = inr (states s3, log_probs s3,
             acceptance_of (accepted s3) number_samples sweep_size, rng s3) /\
    length production_masks = production /\
    forall j, (j < n)%nat ->
      accepted s3 !! j = Some (times_accepted j production_masks) /\
      acceptance_of (accepted s3) number_samples sweep_size !! j
        = Some (PrimFloat.div (to_double (times_accepted j production_masks))
                  (to_double ((number_samples - 1) * sweep_size))).
Proof.
  intros n c0 thermal production production_masks.
  destruct (process_refines initial_state initial_norm w
              number_samples number_discarded sweep_size Hns Hlen)
    as (s1 & s3 & Hth & Hzero & Hp & Hproc & _ & _ & Hacc & _ & _).
  fold n c0 thermal production production_masks in Hacc, Hzero.
  destruct (initialise_facts initial_state initial_norm w (Z.to_nat number_samples))
    as (_ & Hc0 & _); [lia | exact Hlen |]. fold n c0 in Hc0.
  destruct (chain_run_wf n thermal c0 w Hc0) as (Hcth & _ & _).
  destruct (chain_run_wf n production _ (rng_after thermal c0 w) Hcth)
    as (_ & Hmasks & Hmlen).
  fold production_masks in Hmasks, Hmlen.
  exists s1, s3. do 4 (split; [assumption|]). split; [exact Hmlen|].
  intros j Hj.
  assert (Hcount : accepted s3 !! j = Some (times_accepted j production_masks)).
  { rewrite Hacc.
    rewrite (fold_add_mask_counts n j production_masks (replicate n 0%Z) 0%Z).
    - reflexivity.
    - exact Hmasks.
    - apply length_replicate.
    - apply lookup_replicate_2. exact Hj.
    - lia.
    - rewrite Hmlen. unfold production.
      destruct (Z.le_gt_cases sweep_size 0) as [Hss|Hss].
      + rewrite (Z2Nat.nonpos sweep_size) by exact Hss. rewrite Nat.mul_0_r. simpl. lia.
      + rewrite Nat2Z.inj_mul, Nat2Z.inj_sub, !Z2Nat.id by lia. simpl. lia. }
  split; [exact Hcount|].
  unfold acceptance_of. rewrite list_lookup_fmap, Hcount. reflexivity.
Qed.

(** C8, as amended: with [number_samples = 1] the call returns and raises
    nothing; the result has one row, which holds the chains as they are
    after the [number_discarded] thermalisation sweeps (the initial state
    itself only when nothing is discarded), and every entry of the
    acceptance diagnostic is the NaN of [0.0 / 0]. *)
Theorem single_sample_acceptance_is_nan initial_state initial_norm w
    (number_discarded sweep_size : Z)
    (Hlen : length initial_norm = length initial_state) :
  let c0 := initial_chains initial_state initial_norm in
  let thermal := (Z.to_nat number_discarded * Z.to_nat sweep_size)%nat in
  exists acceptance,
    metropolis_process initial_state initial_norm w 1 number_discarded sweep_size
      = inr ([c_state (chains_after thermal c0 w)],
             [c_log_prob (chains_after thermal c0 w)],
             acceptance, rng_after thermal c0 w) /\
    length acceptance = length initial_state /\
    Forall (fun a => PrimFloat.is_nan a = true) acceptance /\
    ((number_discarded <= 0)%Z ->
       chains_after thermal c0 w = initial_chains initial_state initial_norm).
Proof.
  intros c0 thermal.
  destruct (process_refines initial_state initial_norm w 1
              number_discarded sweep_size ltac:(lia) Hlen)
    as (s1 & s3 & _ & _ & _ & Hproc & Hl & Hll & Hacc & Hrng & Hrows).
  fold c0 thermal in Hacc, Hrng, Hrows.
  change (Z.to_nat 1 - 1)%nat with 0%nat in Hacc, Hrng.
  change (0 * Z.to_nat sweep_size)%nat with 0%nat in Hacc, Hrng.
  unfold masks_of, rng_after in Hacc, Hrng. cbn [chain_run fst snd fold_left] in Hacc, Hrng.
  fold (rng_after thermal c0 w) in Hrng.
  destruct (Hrows 0%nat) as [E1 E2]; [simpl; lia|].
  rewrite Nat.add_0_r in E1, E2. fold thermal in E1, E2.
  assert (Hs : states s3 = [c_state (chains_after thermal c0 w)]).
  { destruct (states s3) as [|r [|r' rest]]; simpl in Hl; try discriminate.
    simpl in E1. congruence. }
  assert (Hlp : log_probs s3 = [c_log_prob (chains_after thermal c0 w)]).
  { destruct (log_probs s3) as [|r [|r' rest]]; simpl in Hll; try discriminate.
    simpl in E2. congruence. }
  eexists. rewrite Hproc, Hs, Hlp, Hrng, Hacc.
  split; [reflexivity|]. unfold acceptance_of.
  split; [rewrite length_map; apply length_replicate|]. split.
  - apply Forall_fmap, Forall_replicate. reflexivity.
  - intros Hnd. unfold thermal. rewrite (Z2Nat.nonpos number_discarded) by exact Hnd.
    reflexivity.
Qed.

(** C9: the result has [number_samples] rows of [number_chains] entries;
    row 0 is the chains right after the [number_discarded] thermalisation
    sweeps, and row [i] is the chains after [i] further sweeps of
    [sweep_size] steps. *)
Theorem samples_ordered_after_thermalisation initial_state initial_norm w
    (number_samples number_discarded sweep_size : Z)
    (Hns : (1 <= number_samples)%Z)
    (Hlen : length initial_norm = length initial_state) :
  let n := length initial_state in
  let c0 := initial_chains initial_state initial_norm in
  exists result_states result_log_probs acceptance w',
    metropolis_process initial_state initial_norm w
      number_samples number_discarded sweep_size
      = inr (result_states, result_log_probs, acceptance, w') /\
    length result_states = Z.to_nat number_samples /\
    length result_log_probs = Z.to_nat number_samples /\
    forall i, (i < Z.to_nat number_samples)%nat ->
      let chains_i :=
        chains_after ((Z.to_nat number_discarded + i) * Z.to_nat sweep_size) c0 w in
      result_states !! i = Some (c_state chains_i) /\
      result_log_probs !! i = Some (c_log_prob chains_i) /\
      length (c_state chains_i) = n /\ length (c_log_prob chains_i) = n.
Proof.
  intros n c0.
  destruct (process_refines initial_state initial_norm w
              number_samples number_discarded sweep_size Hns Hlen)
    as (s1 & s3 & _ & _ & _ & Hproc & Hl & Hll & _ & _ & Hrows).
  fold c0 in Hrows.
  destruct (initialise_facts initial_state initial_norm w (Z.to_nat number_samples))
    as (_ & Hc0 & _); [lia | exact Hlen |]. fold n c0 in Hc0.
  exists (states s3), (log_probs s3),
    (acceptance_of (accepted s3) number_samples sweep_size), (rng s3).
  split; [exact Hproc|]. split; [exact Hl|]. split; [exact Hll|].
  intros i Hi chains_i. destruct (Hrows i Hi) as [E1 E2].
  destruct (chain_run_wf n ((Z.to_nat number_discarded + i) * Z.to_nat sweep_size)
              c0 w Hc0) as ((H1 & _ & H3) & _ & _).
  fold chains_i in E1, E2, H1, H3. repeat split; assumption.
Qed.

End Sampler.

Arguments mkStore {St F W}.
Arguments states {St F W}.
Arguments log_probs {St F W}.
Arguments current_norm {St F W}.
Arguments accepted {St F W}.
Arguments cur {St F W}.
Arguments rng {St F W}.
Arguments mkChains {St F}.
Arguments c_state {St F}.
Arguments c_norm {St F}.
Arguments c_log_prob {St F}.
Arguments holds {St F W}.
Arguments wf_chains {St F}.
Arguments chain_of {St F W}.
Arguments reset_accepted {St F W}.

(** *** A small sampler

    Integer states, rational arithmetic, two chains.  The generator state
    counts the draws made so far.  The kernel moves every chain one site to
    the right or to the left in turn, the log-probability of [x] is [-x^2],
    the uniform draws of a step are all [1 / (w + 2)], and [toy_exp] stands
    for [exp] (it is positive, increasing and 1 at 0). *)

Definition toy_exp (x : Q) : Q := if Qle_bool 0 x then 1 + x else 1 / (1 - x).
Definition toy_gt (a b : Q) : bool := negb (Qle_bool a b).
Definition toy_log_prob_fn (xs : list Z) : list Q :=
  map (fun x => inject_Z (- (x * x))) xs.
Definition toy_kernel_fn (w : nat) (xs : list Z) : list Z * list Q * nat :=
  (map (fun x => if Nat.even (Nat.div2 w) then (x + 1)%Z else (x - 1)%Z) xs,
   map (fun _ => 1%Q) xs, S w).
Definition toy_rand (w : nat) (n : nat) : list Q * nat :=
  (replicate n (1 # Pos.of_nat (w + 2))%Q, S w).

Definition toy_step :=
  step Z Q nat Qmult Qdiv Qminus toy_exp 0%Q toy_gt Qle_bool
       toy_log_prob_fn toy_kernel_fn toy_rand.
Definition toy_process :=
  metropolis_process Z Q nat Qmult Qdiv Qminus toy_exp 0%Q toy_gt Qle_bool
       toy_log_prob_fn toy_kernel_fn toy_rand 0%Z 0%Q.
Definition toy_chains_after :=
  chains_after Z Q nat Qmult Qdiv Qminus toy_exp 0%Q toy_gt Qle_bool
       toy_log_prob_fn toy_kernel_fn toy_rand.
Definition toy_rng_after :=
  rng_after Z Q nat Qmult Qdiv Qminus toy_exp 0%Q toy_gt Qle_bool
       toy_log_prob_fn toy_kernel_fn toy_rand.
Definition toy_masks_of :=
  masks_of Z Q nat Qmult Qdiv Qminus toy_exp 0%Q toy_gt Qle_bool
       toy_log_prob_fn toy_kernel_fn toy_rand.
Definition toy_initial : Chains Z Q :=
  initial_chains Z Q toy_log_prob_fn [0; 3]%Z [1; 1]%Q.
Definition toy_store : Store Z Q nat :=
  initialise Z Q nat toy_log_prob_fn 0%Z 0%Q [0; 3]%Z [1; 1]%Q 0%nat 2.

Lemma toy_kernel_fn_shape (w : nat) (xs : list Z) :
  length (toy_kernel_fn w xs).1.1 = length xs /\
  length (toy_kernel_fn w xs).1.2 = length xs.
Proof. unfold toy_kernel_fn. simpl. rewrite !length_map. split; reflexivity. Qed.

Lemma toy_log_prob_fn_shape (xs : list Z) : length (toy_log_prob_fn xs) = length xs.
Proof. apply length_map. Qed.

Lemma toy_rand_shape (w n : nat) : length (toy_rand w n).1 = n.
Proof. apply length_replicate. Qed.

(** Three samples after one discarded sweep, three steps per sweep.  In the
    first thermalisation step the second chain rejects; every production
    step is accepted, and the reported rate is 1 for both chains. *)
Example toy_process_run :
  toy_process [0; 3]%Z [1; 1]%Q 0%nat 3 1 3
  = inr ([[1; 3]; [0; 2]; [1; 3]]%Z,
         [[inject_Z (-1); inject_Z (-9)]; [inject_Z 0; inject_Z (-4)];
          [inject_Z (-1); inject_Z (-9)]],
         [PrimFloat.one; PrimFloat.one], 18%nat) /\
  toy_masks_of 3 toy_initial 0%nat = [[true; false]; [true; true]; [true; true]].
Proof. split; vm_compute; reflexivity. Qed.

Lemma step_accepts_iff_witness :
  let proposal := toy_kernel_fn (rng toy_store) (c_state toy_initial) in
  let proposed_log_prob := toy_log_prob_fn proposal.1.1 in
  let rand := (toy_rand proposal.2 (length (c_state toy_initial))).1 in
  exists s' x nm lp x' nm' lp' u a,
    toy_step toy_store = inr s' /\
    chain_of toy_store 1 = Some (x, nm, lp) /\ accepted toy_store !! 1%nat = Some a /\
    proposal.1.1 !! 1%nat = Some x' /\ proposal.1.2 !! 1%nat = Some nm' /\
    proposed_log_prob !! 1%nat = Some lp' /\ rand !! 1%nat = Some u /\
    let accept :=
      toy_gt nm' 0 && Qle_bool (Qdiv (Qmult u nm') nm) (toy_exp (Qminus lp' lp)) in
    chain_of s' 1 = Some (if accept then (x', nm', lp') else (x, nm, lp)) /\
    accepted s' !! 1%nat = Some (wrap_int64 (a + Z.b2z accept)).
Proof.
  apply (step_accepts_iff Z Q nat Qmult Qdiv Qminus toy_exp 0%Q toy_gt Qle_bool
           toy_log_prob_fn toy_kernel_fn toy_rand
           toy_kernel_fn_shape toy_log_prob_fn_shape toy_rand_shape
           toy_store toy_initial 2 1).
  - repeat split.
  - repeat split.
  - reflexivity.
  - lia.
Defined.

Lemma acceptance_counts_production_only_witness :
  let n := length [0; 3]%Z in
  let thermal := (Z.to_nat 1 * Z.to_nat 3)%nat in
  let production := ((Z.to_nat 3 - 1) * Z.to_nat 3)%nat in
  let production_masks :=
    toy_masks_of production (toy_chains_after thermal toy_initial 0%nat)
      (toy_rng_after thermal toy_initial 0%nat) in
  exists s1 s3,
    thermalise Z Q nat Qmult Qdiv Qminus toy_exp 0%Q toy_gt Qle_bool
      toy_log_prob_fn toy_kernel_fn toy_rand (Z.to_nat 1) (Z.to_nat 3)
      (initialise Z Q nat toy_log_prob_fn 0%Z 0%Q [0; 3]%Z [1; 1]%Q 0%nat (Z.to_nat 3))
      = inr s1 /\
    accepted (reset_accepted s1) = replicate n 0%Z /\
    produce Z Q nat Qmult Qdiv Qminus toy_exp 0%Q toy_gt Qle_bool
      toy_log_prob_fn toy_kernel_fn toy_rand (Z.to_nat 3) (seq 1 (Z.to_nat 3 - 1))
      (reset_accepted s1) = inr s3 /\
    toy_process [0; 3]%Z [1; 1]%Q 0%nat 3 1 3
      = inr (states s3, log_probs s3, acceptance_of (accepted s3) 3 3, rng s3) /\
    length production_masks = production /\
    forall j, (j < n)%nat ->
      accepted s3 !! j = Some (times_accepted j production_masks) /\
      acceptance_of (accepted s3) 3 3 !! j
        = Some (PrimFloat.div (to_double (times_accepted j production_masks))
                  (to_double ((3 - 1) * 3))).
Proof.
  apply (acceptance_counts_production_only Z Q nat Qmult Qdiv Qminus toy_exp 0%Q
           toy_gt Qle_bool toy_log_prob_fn toy_kernel_fn toy_rand 0%Z 0%Q
           toy_kernel_fn_shape toy_log_prob_fn_shape toy_rand_shape
           [0; 3]%Z [1; 1]%Q 0%nat 3 1 3).
  - lia.
  - reflexivity.
  - reflexivity.
Defined.

Lemma single_sample_acceptance_is_nan_witness :
  let thermal := (Z.to_nat 2 * Z.to_nat 3)%nat in
  exists acceptance,
    toy_process [0; 3]%Z [1; 1]%Q 0%nat 1 2 3
      = inr ([c_state (toy_chains_after thermal toy_initial 0%nat)],
             [c_log_prob (toy_chains_after thermal toy_initial 0%nat)],
             acceptance, toy_rng_after thermal toy_initial 0%nat) /\
    length acceptance = length [0; 3]%Z /\
    Forall (fun a => PrimFloat.is_nan a = true) acceptance /\
    ((2 <= 0)%Z -> toy_chains_after thermal toy_initial 0%nat = toy_initial).
Proof.
  apply (single_sample_acceptance_is_nan Z Q nat Qmult Qdiv Qminus toy_exp 0%Q
           toy_gt Qle_bool toy_log_prob_fn toy_kernel_fn toy_rand 0%Z 0%Q
           toy_kernel_fn_shape toy_log_prob_fn_shape toy_rand_shape
           [0; 3]%Z [1; 1]%Q 0%nat 2 3).
  reflexivity.
Defined.

(** The result of a call with [number_samples = 1] as the specification
    words it: the single row is the initial state of the chains. *)
Definition returns_initial_sample {St F W : Type} (initial_state : list St)
    (r : Exn + (list (list St) * list (list F) * list PrimFloat.float * W)) : Prop :=
  exists log_probs acceptance w',
    r = inr ([initial_state], log_probs, acceptance, w').

(** C8, as stated, fails: with one discarded sweep of one step the first
    chain accepts its proposal during the thermalisation, and the single
    row that is returned is the state after the thermalisation, not the
    initial state. *)
Lemma single_sample_is_not_the_initial_state :
  toy_process [0; 3]%Z [1; 1]%Q 0%nat 1 1 1
  = inr ([[1; 3]%Z], [[inject_Z (-1); inject_Z (-9)]],
         [PrimFloat.nan; PrimFloat.nan], 2%nat) /\
  ~ returns_initial_sample [0; 3]%Z (toy_process [0; 3]%Z [1; 1]%Q 0%nat 1 1 1).
Proof.
  assert (H : toy_process [0; 3]%Z [1; 1]%Q 0%nat 1 1 1
              = inr ([[1; 3]%Z], [[inject_Z (-1); inject_Z (-9)]],
                     [PrimFloat.nan; PrimFloat.nan], 2%nat))
    by (vm_compute; reflexivity).
  split; [exact H|].
  intros (log_probs & acceptance & w' & Hr). rewrite H in Hr.
  injection Hr as Hs _ _ _. discriminate Hs.
Qed.

Lemma samples_ordered_after_thermalisation_witness :
  let n := length [0; 3]%Z in
  exists result_states result_log_probs acceptance w',
    toy_process [0; 3]%Z [1; 1]%Q 0%nat 3 1 3
      = inr (result_states, result_log_probs, acceptance, w') /\
    length result_states = Z.to_nat 3 /\
    length result_log_probs = Z.to_nat 3 /\
    forall i, (i < Z.to_nat 3)%nat ->
      let chains_i :=
        toy_chains_after ((Z.to_nat 1 + i) * Z.to_nat 3) toy_initial 0%nat in
      result_states !! i = Some (c_state chains_i) /\
      result_log_probs !! i = Some (c_log_prob chains_i) /\
      length (c_state chains_i) = n /\ length (c_log_prob chains_i) = n.
Proof.
  apply (samples_ordered_after_thermalisation Z Q nat Qmult Qdiv Qminus toy_exp 0%Q
           toy_gt Qle_bool toy_log_prob_fn toy_kernel_fn toy_rand 0%Z 0%Q
           toy_kernel_fn_shape toy_log_prob_fn_shape toy_rand_shape
           [0; 3]%Z [1; 1]%Q 0%nat 3 1 3).
  - lia.
  - reflexivity.
Defined.

End Metropolis.

From Stdlib Require Lqa.


(** ** Spin configurations as arrays of 64-bit words

    [to_array] (the closure of [_prepare_initial_state]) writes a Python
    integer into 8 words; [_array_to_int] reads such an array back. *)

Module Words.

Local Open Scope Z_scope.

(** [to_array(x, out)] for [k] words: [out[i] = x & 0xFFFFFFFFFFFFFFFF;
    x >>= 64].  The words are those of the [uint64] view of the row. *)
Fixpoint to_array_from (k : nat) (x : Z) : list Z :=
  match k with
  | O => []
  | S k' => Z.land x 18446744073709551615 :: to_array_from k' (Z.shiftr x 64)
  end.

Definition to_array (x : Z) : list Z := to_array_from 8 x.

(** A word of the [uint64] view as the [int64] tensor that owns the memory
    shows it. *)
Definition as_int64 (w : Z) : Z := if w <? 2 ^ 63 then w else w - 2 ^ 64.

(** The integer that an array of words denotes, least significant first. *)
Fixpoint words_value (xs : list Z) : Z :=
  match xs with
  | [] => 0
  | x :: rest => LocalValues.to_uint64 x + 2 ^ 64 * words_value rest
  end.

Definition int64_range (x : Z) : Prop := - 2 ^ 63 <= x < 2 ^ 63.

Lemma to_uint64_range x : 0 <= LocalValues.to_uint64 x < 2 ^ 64.
Proof. unfold LocalValues.to_uint64. apply Z.mod_pos_bound. reflexivity. Qed.

Lemma words_value_range : forall xs,
  0 <= words_value xs < 2 ^ (64 * Z.of_nat (length xs)).
Proof.
  induction xs as [|x xs IH]; [simpl; lia|].
  cbn [words_value length]. pose proof (to_uint64_range x).
  replace (64 * Z.of_nat (S (length xs))) with (64 + 64 * Z.of_nat (length xs)) by lia.
  rewrite Z.pow_add_r by lia. nia.
Qed.

Lemma words_value_app xs ys :
  words_value (xs ++ ys)
  = words_value xs + 2 ^ (64 * Z.of_nat (length xs)) * words_value ys.
Proof.
  induction xs as [|x xs IH]; [simpl; lia|].
  cbn [app words_value length]. rewrite IH.
  replace (64 * Z.of_nat (S (length xs))) with (64 + 64 * Z.of_nat (length xs)) by lia.
  rewrite Z.pow_add_r by lia. ring.
Qed.

Lemma fold_words : forall earlier acc,
  fold_left (fun n x => Z.shiftl n 64 + LocalValues.to_uint64 x) earlier acc
  = acc * 2 ^ (64 * Z.of_nat (length earlier)) + words_value (rev earlier).
Proof.
  induction earlier as [|x earlier IH]; intros acc; [simpl; lia|].
  cbn [fold_left rev length]. rewrite IH, words_value_app, Z.shiftl_mul_pow2 by lia.
  rewrite length_rev. cbn [words_value].
  replace (64 * Z.of_nat (S (length earlier))) with (64 + 64 * Z.of_nat (length earlier)) by lia.
  rewrite Z.pow_add_r by lia. ring.
Qed.

Lemma array_to_int_value (ys : list Z) :
  LocalValues._array_to_int ys = words_value ys.
Proof.
  unfold LocalValues._array_to_int.
  destruct (rev ys) as [|last earlier] eqn:E.
  - apply (f_equal (@rev Z)) in E. rewrite rev_involutive in E. subst. reflexivity.
  - apply (f_equal (@rev Z)) in E. rewrite rev_involutive in E. subst ys.
    rewrite fold_words. cbn [rev]. rewrite words_value_app, length_rev.
    cbn [words_value]. ring.
Qed.

(** X1: [_array_to_int] reads the words as unsigned digits in base [2^64],
    least significant first, so its result is never negative and lies
    below [2^(64 * len(xs))]; the sign of an [int64] entry plays no role. *)
Theorem array_to_int_positional (xs : list Z) :
  LocalValues._array_to_int xs = words_value xs /\
  0 <= LocalValues._array_to_int xs < 2 ^ (64 * Z.of_nat (length xs)) /\
  LocalValues._array_to_int (map LocalValues.to_uint64 xs) = LocalValues._array_to_int xs.
Proof.
  pose proof array_to_int_value as Hval.
  split; [apply Hval|]. split; [rewrite Hval; apply words_value_range|].
  rewrite !Hval. induction xs as [|x xs IH]; [reflexivity|].
  cbn [map words_value]. rewrite IH. f_equal.
  unfold LocalValues.to_uint64. apply Z.mod_mod. lia.
Qed.

Lemma to_uint64_as_int64 w : 0 <= w < 2 ^ 64 -> LocalValues.to_uint64 (as_int64 w) = w.
Proof.
  intros Hw. unfold LocalValues.to_uint64, as_int64.
  destruct (Z.ltb_spec w (2 ^ 63)).
  - apply Z.mod_small. lia.
  - replace (w - 2 ^ 64) with (w + (-1) * 2 ^ 64) by ring.
    rewrite Z.mod_add by lia. apply Z.mod_small. lia.
Qed.

Lemma as_int64_to_uint64 x : int64_range x -> as_int64 (LocalValues.to_uint64 x) = x.
Proof.
  unfold int64_range, as_int64, LocalValues.to_uint64. intros Hx.
  destruct (Z_lt_dec x 0) as [Hneg|Hpos].
  - replace (x mod 2 ^ 64) with (x + 2 ^ 64).
    + destruct (Z.ltb_spec (x + 2 ^ 64) (2 ^ 63)); lia.
    + symmetry. replace x with (x + 2 ^ 64 + (-1) * 2 ^ 64) at 1 by ring.
      rewrite Z.mod_add by lia. apply Z.mod_small. lia.
  - rewrite Z.mod_small by lia. destruct (Z.ltb_spec x (2 ^ 63)); lia.
Qed.

Lemma land_mask x : Z.land x 18446744073709551615 = x mod 2 ^ 64.
Proof. change 18446744073709551615 with (Z.ones 64). apply Z.land_ones. lia. Qed.

Lemma words_value_to_array : forall k x,
  words_value (map as_int64 (to_array_from k x)) = x mod 2 ^ (64 * Z.of_nat k).
Proof.
  induction k as [|k IH]; intros x.
  - simpl. symmetry. apply Z.mod_1_r.
  - cbn [to_array_from map words_value]. rewrite IH, land_mask.
    rewrite to_uint64_as_int64 by (apply Z.mod_pos_bound; lia).
    rewrite Z.shiftr_div_pow2 by lia.
    replace (64 * Z.of_nat (S k)) with (64 + 64 * Z.of_nat k) by lia.
    rewrite Z.pow_add_r by lia.
    rewrite (Z.rem_mul_r x (2 ^ 64) (2 ^ (64 * Z.of_nat k))); [reflexivity | lia |].
    apply Z.pow_pos_nonneg; lia.
Qed.

Lemma round_trip_mod (x : Z) :
  LocalValues._array_to_int (map as_int64 (to_array x)) = x mod 2 ^ 512.
Proof.
  rewrite array_to_int_value. unfold to_array. rewrite words_value_to_array. reflexivity.
Qed.

Lemma round_trip (x : Z) :
  0 <= x < 2 ^ 512 -> LocalValues._array_to_int (map as_int64 (to_array x)) = x.
Proof. intros Hx. rewrite round_trip_mod. apply Z.mod_small. exact Hx. Qed.

(** X2: writing a Python integer with [to_array] and reading the row back
    with [_array_to_int] gives the integer modulo [2^512]; every integer in
    [[0, 2^512)] survives the round trip. *)
Theorem array_to_int_to_array (x : Z) :
  LocalValues._array_to_int (map as_int64 (to_array x)) = x mod 2 ^ 512 /\
  (0 <= x < 2 ^ 512 ->
   LocalValues._array_to_int (map as_int64 (to_array x)) = x).
Proof.
  split; [apply round_trip_mod | apply round_trip].
Qed.

Lemma to_array_words_value : forall xs,
  Forall int64_range xs ->
  map as_int64 (to_array_from (length xs) (words_value xs)) = xs.
Proof.
  induction xs as [|x xs IH]; intros Hr; [reflexivity|].
  apply Forall_cons in Hr as [Hx Hr].
  cbn [length to_array_from words_value map]. rewrite land_mask.
  pose proof (to_uint64_range x) as Hu.
  assert (Hlow : (LocalValues.to_uint64 x + 2 ^ 64 * words_value xs) mod 2 ^ 64
                 = LocalValues.to_uint64 x).
  { rewrite Z.mul_comm, Z.mod_add by lia. apply Z.mod_small. exact Hu. }
  assert (Hhigh : Z.shiftr (LocalValues.to_uint64 x + 2 ^ 64 * words_value xs) 64
                  = words_value xs).
  { rewrite Z.shiftr_div_pow2 by lia. rewrite Z.mul_comm, Z.div_add by lia.
    rewrite Z.div_small by exact Hu. lia. }
  rewrite Hlow, Hhigh, as_int64_to_uint64 by exact Hx. f_equal. apply IH. exact Hr.
Qed.

(** X3: the other round trip.  An array of 8 [int64] words is recovered
    from the integer that [_array_to_int] reads from it, so two such arrays
    that denote the same integer are equal. *)
Theorem to_array_array_to_int (xs ys : list Z)
    (Hlen : length xs = 8%nat) (Hxs : Forall int64_range xs) :
  map as_int64 (to_array (LocalValues._array_to_int xs)) = xs /\
  (length ys = 8%nat -> Forall int64_range ys ->
   LocalValues._array_to_int xs = LocalValues._array_to_int ys -> xs = ys).
Proof.
  assert (H : forall zs, length zs = 8%nat -> Forall int64_range zs ->
            map as_int64 (to_array (LocalValues._array_to_int zs)) = zs).
  { intros zs Hl Hr. rewrite array_to_int_value.
    unfold to_array. rewrite <- Hl. apply to_array_words_value. exact Hr. }
  split; [apply H; assumption|].
  intros Hly Hys Heq. rewrite <- (H xs Hlen Hxs), <- (H ys Hly Hys), Heq. reflexivity.
Qed.

Lemma to_array_array_to_int_witness :
  map as_int64 (to_array (LocalValues._array_to_int [5; -1; 0; 0; 0; 0; 0; 7]))
  = [5; -1; 0; 0; 0; 0; 0; 7] /\
  (length [5; -1; 0; 0; 0; 0; 0; 7] = 8%nat ->
   Forall int64_range [5; -1; 0; 0; 0; 0; 0; 7] ->
   LocalValues._array_to_int [5; -1; 0; 0; 0; 0; 0; 7]
   = LocalValues._array_to_int [5; -1; 0; 0; 0; 0; 0; 7] ->
   [5; -1; 0; 0; 0; 0; 0; 7] = [5; -1; 0; 0; 0; 0; 0; 7]).
Proof.
  apply (to_array_array_to_int [5; -1; 0; 0; 0; 0; 0; 7] [5; -1; 0; 0; 0; 0; 0; 7]).
  - reflexivity.
  - repeat constructor; unfold int64_range; lia.
Defined.

Lemma to_array_shape : forall k x,
  length (to_array_from k x) = k /\
  Forall (fun w => 0 <= w < 2 ^ 64) (to_array_from k x).
Proof.
  induction k as [|k IH]; intros x; [split; [reflexivity | constructor]|].
  destruct (IH (Z.shiftr x 64)) as [Hl Hf]. cbn [to_array_from length].
  split; [f_equal; exact Hl|]. constructor; [|exact Hf].
  rewrite land_mask. apply Z.mod_pos_bound. lia.
Qed.

End Words.

(** ** [_random_spin_configuration] with a fixed Hamming weight *)

Module RandomSpinFacts.

Import RandomSpin.

Local Open Scope Z_scope.

(** The number of bits set in a non-negative integer. *)
Fixpoint pos_popcount (p : positive) : nat :=
  match p with
  | xH => 1
  | xO q => pos_popcount q
  | xI q => S (pos_popcount q)
  end.

Definition popcount (z : Z) : nat :=
  match z with
  | Z.pos p => pos_popcount p
  | _ => O
  end.

Definition is_bit (s : string) : Prop := s = "0"%string \/ s = "1"%string.

Fixpoint count_ones (l : list string) : nat :=
  match l with
  | [] => O
  | s :: rest => ((if String.eqb s "1" then 1 else 0) + count_ones rest)%nat
  end.

(** The list [bits] of the source before it is shuffled. *)
Definition bits_of (n hw : Z) : list string :=
  repeat "1"%string (Z.to_nat hw) ++ repeat "0"%string (Z.to_nat (n - hw)).

Lemma popcount_double acc : 0 <= acc -> popcount (2 * acc) = popcount acc.
Proof. destruct acc; simpl; [reflexivity | reflexivity | lia]. Qed.

Lemma popcount_double_succ acc : 0 <= acc -> popcount (2 * acc + 1) = S (popcount acc).
Proof. destruct acc; simpl; [reflexivity | reflexivity | lia]. Qed.

Lemma append_empty_r (s : string) : (s ++ "")%string = s.
Proof. induction s as [|c s IH]; simpl; [reflexivity|]. rewrite IH. reflexivity. Qed.

Lemma concat_cons (x : string) (xs : list string) :
  String.concat "" (x :: xs) = (x ++ String.concat "" xs)%string.
Proof. destruct xs as [|y ys]; simpl; [rewrite append_empty_r|]; reflexivity. Qed.

Lemma int_base2_from_bits : forall (l : list string) (acc : Z),
  Forall is_bit l -> 0 <= acc ->
  exists v,
    int_base2_from acc (String.concat "" l) = inr v /\
    popcount v = (popcount acc + count_ones l)%nat /\
    acc * 2 ^ Z.of_nat (length l) <= v < (acc + 1) * 2 ^ Z.of_nat (length l).
Proof.
  induction l as [|x l IH]; intros acc Hb Hacc.
  - exists acc. simpl. repeat split; lia.
  - apply Forall_cons in Hb as [Hx Hb]. rewrite concat_cons.
    replace (Z.of_nat (length (x :: l))) with (1 + Z.of_nat (length l))
      by (cbn [length]; lia).
    rewrite Z.pow_add_r by lia. change (2 ^ 1) with 2.
    destruct Hx as [-> | ->]; cbn [append int_base2_from Ascii.eqb Bool.eqb count_ones String.eqb].
    + destruct (IH (2 * acc) Hb ltac:(lia)) as (v & Hv & Hp & Hr).
      exists v. rewrite Hv, Hp, popcount_double by lia. repeat split; nia.
    + destruct (IH (2 * acc + 1) Hb ltac:(lia)) as (v & Hv & Hp & Hr).
      exists v. rewrite Hv, Hp, popcount_double_succ by lia. repeat split; nia.
Qed.

Lemma concat_bits_nonempty (l : list string) :
  Forall is_bit l -> l <> [] -> String.concat "" l <> EmptyString.
Proof.
  intros Hb Hl. destruct l as [|x l]; [congruence|].
  apply Forall_cons in Hb as [[-> | ->] _]; rewrite concat_cons; discriminate.
Qed.

Lemma count_ones_perm (l l' : list string) :
  Permutation l l' -> count_ones l = count_ones l'.
Proof.
  induction 1 as [|x l l' _ IH|x y l|l l' l'' _ IH1 _ IH2]; simpl; lia.
Qed.

Lemma is_bit_perm (l l' : list string) :
  Permutation l l' -> Forall is_bit l -> Forall is_bit l'.
Proof. intros Hp. rewrite Hp. trivial. Qed.

Lemma bits_of_facts (n hw : Z) :
  0 <= hw <= n ->
  Forall is_bit (bits_of n hw) /\
  count_ones (bits_of n hw) = Z.to_nat hw /\
  length (bits_of n hw) = Z.to_nat n.
Proof.
  intros H. unfold bits_of.
  assert (H1 : forall k, Forall is_bit (repeat "1"%string k) /\
                         count_ones (repeat "1"%string k) = k).
  { induction k as [|k [IHa IHb]]; simpl; [split; [constructor | reflexivity]|].
    split; [constructor; [right; reflexivity | exact IHa] | rewrite IHb; reflexivity]. }
  assert (H0 : forall k, Forall is_bit (repeat "0"%string k) /\
                         count_ones (repeat "0"%string k) = O).
  { induction k as [|k [IHa IHb]]; simpl; [split; [constructor | reflexivity]|].
    split; [constructor; [left; reflexivity | exact IHa] | exact IHb]. }
  destruct (H1 (Z.to_nat hw)) as [Ha Hb]. destruct (H0 (Z.to_nat (n - hw))) as [Hc Hd].
  split; [apply Forall_app; split; assumption|]. split.
  - assert (Happ : forall a b, count_ones (a ++ b) = (count_ones a + count_ones b)%nat)
      by (induction a as [|s a IHa]; intros b; simpl; [reflexivity | rewrite IHa; lia]).
    rewrite Happ, Hb, Hd. lia.
  - rewrite length_app, !repeat_length. lia.
Qed.

Lemma hamming_branch (shuffle : list string -> list string) (e n hw : Z) :
  (forall l, Permutation (shuffle l) l) -> 1 <= n -> 0 <= hw <= n ->
  exists v,
    _random_spin_configuration shuffle e n (Some hw) = inr v /\
    0 <= v < 2 ^ n /\ popcount v = Z.to_nat hw.
Proof.
  intros Hshuffle Hn Hhw.
  destruct (bits_of_facts n hw Hhw) as (Hbits & Hones & Hlen).
  pose proof (Hshuffle (bits_of n hw)) as Hp.
  assert (Hb' : Forall is_bit (shuffle (bits_of n hw)))
    by (eapply is_bit_perm; [symmetry; exact Hp | exact Hbits]).
  assert (Hl' : length (shuffle (bits_of n hw)) = Z.to_nat n)
    by (rewrite (Permutation_length Hp); exact Hlen).
  destruct (int_base2_from_bits _ 0 Hb' ltac:(lia)) as (v & Hv & Hpop & Hr).
  exists v. unfold _random_spin_configuration.
  destruct (Z.leb_spec 0 hw); [|lia]. destruct (Z.leb_spec hw n); [|lia].
  cbn [andb]. fold (bits_of n hw). unfold int_base2.
  destruct (String.concat "" (shuffle (bits_of n hw))) eqn:E.
  - exfalso. revert E. apply concat_bits_nonempty; [exact Hb'|].
    intros Hnil. rewrite Hnil in Hl'. simpl in Hl'. lia.
  - split; [exact Hv|]. rewrite Hl', Z2Nat.id in Hr by lia. split; [lia|].
    rewrite Hpop, (count_ones_perm _ _ Hp), Hones. reflexivity.
Qed.

(** X4: with a Hamming weight [0 <= hw <= n] and [n >= 1], whatever
    permutation [np.random.shuffle] applies, the result is an [n]-bit
    configuration (it lies in [[0, 2^n)]) with exactly [hw] bits set. *)
Theorem random_spin_hamming_weight (shuffle : list string -> list string)
    (e n hw : Z)
    (Hshuffle : forall l, Permutation (shuffle l) l)
    (Hn : 1 <= n) (Hhw : 0 <= hw <= n) :
  exists v,
    _random_spin_configuration shuffle e n (Some hw) = inr v /\
    0 <= v < 2 ^ n /\ popcount v = Z.to_nat hw.
Proof. exact (hamming_branch shuffle e n hw Hshuffle Hn Hhw). Qed.

Lemma random_spin_hamming_weight_witness :
  exists v,
    _random_spin_configuration (@rev string) 0 4 (Some 3) = inr v /\
    0 <= v < 2 ^ 4 /\ popcount v = Z.to_nat 3.
Proof.
  apply (random_spin_hamming_weight (@rev string) 0 4 3).
  - intros l. symmetry. apply Permutation_rev.
  - lia.
  - lia.
Defined.

(** X5: when the call returns.  Without a Hamming weight it returns exactly
    for [n >= 1] (for [n <= 0] the shift [1 << n - 1] raises [ValueError]);
    with one it returns exactly for [n >= 1] and [0 <= hw <= n]: a weight
    outside [[0, n]] fails the assertion, and [n = 0] with weight 0 raises
    [ValueError] because [int] is given the empty string. *)
Theorem random_spin_returns_iff (shuffle : list string -> list string)
    (e n : Z) (hamming_weight : option Z)
    (Hshuffle : forall l, Permutation (shuffle l) l) :
  (returns (_random_spin_configuration shuffle e n hamming_weight) <->
   1 <= n /\ match hamming_weight with
             | None => True
             | Some hw => 0 <= hw <= n
             end) /\
  (n <= 0 -> exists arg,
     _random_spin_configuration shuffle e n None
     = inl (ValueError "negative shift count" arg)) /\
  (forall hw, ~ 0 <= hw <= n ->
     _random_spin_configuration shuffle e n (Some hw)
     = inl (AssertionError "invalid hamming weight")) /\
  _random_spin_configuration shuffle e 0 (Some 0)
  = inl (ValueError "invalid literal for int() with base 2" 2).
Proof.
  assert (Hneg : n <= 0 -> _random_spin_configuration shuffle e n None
                 = inl (ValueError "negative shift count" (n - 1))).
  { intros Hn. unfold _random_spin_configuration, py_lshift.
    destruct (Z.ltb_spec (n - 1) 0); [reflexivity | lia]. }
  assert (Hout : forall hw, ~ 0 <= hw <= n ->
            _random_spin_configuration shuffle e n (Some hw)
            = inl (AssertionError "invalid hamming weight")).
  { intros hw Hhw. unfold _random_spin_configuration.
    destruct (Z.leb_spec 0 hw), (Z.leb_spec hw n); try reflexivity. lia. }
  assert (Hzero : _random_spin_configuration shuffle e 0 (Some 0)
                  = inl (ValueError "invalid literal for int() with base 2" 2)).
  { unfold _random_spin_configuration. simpl.
    pose proof (Permutation_length (Hshuffle [])) as Hl.
    destruct (shuffle []) as [|x l]; [reflexivity | discriminate]. }
  split; [|split; [|split]].
  - split.
    + intros [v Hv]. destruct hamming_weight as [hw|].
      * destruct (Z_le_dec 0 hw) as [H0|H0]; [|rewrite Hout in Hv by lia; discriminate].
        destruct (Z_le_dec hw n) as [H1|H1]; [|rewrite Hout in Hv by lia; discriminate].
        split; [|lia]. destruct (Z_le_dec 1 n) as [|Hn]; [assumption|].
        assert (n = 0) by lia. assert (hw = 0) by lia. subst.
        rewrite Hzero in Hv. discriminate.
      * split; [|exact I]. destruct (Z_le_dec 1 n) as [|Hn]; [assumption|].
        rewrite Hneg in Hv by lia. discriminate.
    + intros [Hn Hhw]. destruct hamming_weight as [hw|].
      * destruct (hamming_branch shuffle e n hw Hshuffle Hn Hhw) as (v & Hv & _).
        exists v. exact Hv.
      * exists (e mod (2 ^ (n - 1) + 1)). apply random_spin_None. exact Hn.
  - intros Hn. eexists. apply Hneg. exact Hn.
  - exact Hout.
  - exact Hzero.
Qed.

Lemma random_spin_returns_iff_witness :
  (returns (_random_spin_configuration (@rev string) 0 3 (Some 1)) <->
   1 <= 3 /\ 0 <= 1 <= 3) /\
  (3 <= 0 -> exists arg,
     _random_spin_configuration (@rev string) 0 3 None
     = inl (ValueError "negative shift count" arg)) /\
  (forall hw, ~ 0 <= hw <= 3 ->
     _random_spin_configuration (@rev string) 0 3 (Some hw)
     = inl (AssertionError "invalid hamming weight")) /\
  _random_spin_configuration (@rev string) 0 0 (Some 0)
  = inl (ValueError "invalid literal for int() with base 2" 2).
Proof.
  apply (random_spin_returns_iff (@rev string) 0 3 (Some 1)).
  intros l. symmetry. apply Permutation_rev.
Defined.

End RandomSpinFacts.

(** ** [safe_exp] and [_log_amplitudes_to_probabilities] *)

Module SafeExpFacts.

Import SafeExp.

Local Open Scope R_scope.

(** [_log_amplitudes_to_probabilities(values)] *)
Definition _log_amplitudes_to_probabilities (values : list R) : Exn + list R :=
  (do m <- torch_max values;
   let prob := map (fun v => v - m) values in
   let prob := map (fun p => p * 2) prob in
   let prob := map exp prob in
   ret (map (fun p => p / torch_sum prob) prob))%exn.

Lemma fold_Rmax_ge : forall t h, h <= fold_left Rmax t h.
Proof.
  induction t as [|a t IH]; intros h; simpl; [lra|].
  eapply Rle_trans; [apply (Rmax_l h a) | apply IH].
Qed.

Lemma fold_Rmax_upper : forall t h v, In v (h :: t) -> v <= fold_left Rmax t h.
Proof.
  induction t as [|a t IH]; intros h v Hin; simpl.
  - destruct Hin as [<- | []]. lra.
  - destruct Hin as [<- | [<- | Hin]].
    + eapply Rle_trans; [apply (Rmax_l h a) | apply fold_Rmax_ge].
    + eapply Rle_trans; [apply (Rmax_r h a) | apply fold_Rmax_ge].
    + apply IH. right. exact Hin.
Qed.

Lemma fold_Rmax_in : forall t h, In (fold_left Rmax t h) (h :: t).
Proof.
  induction t as [|a t IH]; intros h; simpl; [left; reflexivity|].
  destruct (IH (Rmax h a)) as [E | Hin].
  - unfold Rmax in E at 1. destruct (Rle_dec h a).
    + right. left. exact E.
    + left. exact E.
  - right. right. exact Hin.
Qed.

Lemma exp_le_1 x : x <= 0 -> exp x <= 1.
Proof.
  intros [Hx | ->]; [|rewrite exp_0; lra].
  left. rewrite <- exp_0. apply exp_increasing. exact Hx.
Qed.

Lemma torch_sum_ge_entry : forall (l : list R) v,
  Forall (fun a => 0 < a) l -> In v l -> v <= torch_sum l.
Proof.
  induction l as [|a l IH]; intros v Hpos Hin; [destruct Hin|].
  apply Forall_cons in Hpos as [Ha Hpos]. simpl.
  assert (0 <= torch_sum l).
  { clear -Hpos. induction l as [|b l IH]; simpl; [lra|].
    apply Forall_cons in Hpos as [Hb Hpos]. specialize (IH Hpos). lra. }
  destruct Hin as [<- | Hin]; [lra|]. specialize (IH v Hpos Hin). lra.
Qed.

(** X6: for a non-empty [x], every entry of [safe_exp(x, normalise=False)]
    lies in (0, 1] and an entry at the maximum of [x] is exactly 1, so the
    exponential never overflows; the entries of the normalised result lie
    in (0, 1] as well. *)
Theorem safe_exp_entries_bounded (x : list R) (Hx : x <> []) :
  exists m e p,
    torch_max x = inr m /\ In m x /\
    safe_exp x false = inr e /\ safe_exp x true = inr p /\
    length e = length x /\ length p = length x /\
    (forall v, In v e -> 0 < v <= 1) /\
    In 1 e /\
    (forall v, In v p -> 0 < v <= 1).
Proof.
  destruct x as [|h t]; [congruence|].
  set (m := fold_left Rmax t h).
  set (e := map exp (map (fun v => v - m) (h :: t))).
  assert (He : forall v, In v e -> 0 < v <= 1).
  { intros v Hv. unfold e in Hv. rewrite map_map in Hv.
    apply in_map_iff in Hv as (a & <- & Ha). split; [apply exp_pos|].
    apply exp_le_1. pose proof (fold_Rmax_upper t h a Ha). fold m in H. lra. }
  exists m, e, (map (fun v => v / torch_sum e) e).
  split; [reflexivity|]. split; [apply fold_Rmax_in|].
  split; [reflexivity|]. split; [reflexivity|].
  split; [unfold e; rewrite !length_map; reflexivity|].
  split; [unfold e; rewrite !length_map; reflexivity|].
  split; [exact He|]. split.
  - unfold e. rewrite map_map. apply in_map_iff. exists m.
    split; [replace (m - m) with 0 by ring; apply exp_0 | apply fold_Rmax_in].
  - intros v Hv. apply in_map_iff in Hv as (a & <- & Ha).
    assert (Hpos : Forall (fun a => 0 < a) e)
      by (apply Forall_forall; intros b Hb; apply He, list_elem_of_In; exact Hb).
    pose proof (torch_sum_ge_entry e a Hpos Ha) as Hle.
    destruct (He a Ha) as [Ha0 _].
    assert (Hs : 0 < torch_sum e) by lra.
    split.
    + apply Rdiv_lt_0_compat; assumption.
    + apply (Rmult_le_reg_r (torch_sum e)); [exact Hs|].
      unfold Rdiv. rewrite Rmult_assoc, Rinv_l by lra. lra.
Qed.

Lemma safe_exp_entries_bounded_witness :
  exists m e p,
    torch_max [0; 1000] = inr m /\ In m [0; 1000] /\
    safe_exp [0; 1000] false = inr e /\ safe_exp [0; 1000] true = inr p /\
    length e = length [0; 1000] /\ length p = length [0; 1000] /\
    (forall v, In v e -> 0 < v <= 1) /\
    In 1 e /\
    (forall v, In v p -> 0 < v <= 1).
Proof. apply (safe_exp_entries_bounded [0; 1000]). discriminate. Defined.

Lemma Rmax_double a b : Rmax (2 * a) (2 * b) = 2 * Rmax a b.
Proof. unfold Rmax. destruct (Rle_dec (2 * a) (2 * b)), (Rle_dec a b); lra. Qed.

Lemma fold_Rmax_double : forall t h,
  fold_left Rmax (map (fun v => 2 * v) t) (2 * h) = 2 * fold_left Rmax t h.
Proof.
  induction t as [|a t IH]; intros h; simpl; [reflexivity|].
  rewrite Rmax_double. apply IH.
Qed.

(** X7: [_log_amplitudes_to_probabilities(values)] is
    [safe_exp(2 * values, normalise=True)]: the probabilities of the
    amplitudes are the soft-max of twice the log-amplitudes, so for a
    non-empty input they sum to 1; both raise on an empty input. *)
Theorem log_amplitudes_to_probabilities_is_safe_exp (values : list R) :
  _log_amplitudes_to_probabilities values
  = safe_exp (map (fun v => 2 * v) values) true /\
  (values = [] -> raises (_log_amplitudes_to_probabilities values)) /\
  (values <> [] ->
   exists p, _log_amplitudes_to_probabilities values = inr p /\ torch_sum p = 1).
Proof.
  assert (Heq : _log_amplitudes_to_probabilities values
                = safe_exp (map (fun v => 2 * v) values) true).
  { destruct values as [|h t]; [reflexivity|].
    unfold _log_amplitudes_to_probabilities, safe_exp.
    change (torch_max (map (fun v => 2 * v) (h :: t)))
      with (@inr Exn R (fold_left Rmax (map (fun v => 2 * v) t) (2 * h))).
    change (torch_max (h :: t)) with (@inr Exn R (fold_left Rmax t h)).
    rewrite fold_Rmax_double. unfold bind.
    set (m := fold_left Rmax t h).
    assert (Hmap : map (fun p => p * 2) (map (fun v => v - m) (h :: t))
                   = map (fun v => v - 2 * m) (map (fun v => 2 * v) (h :: t)))
      by (rewrite !map_map; apply map_ext; intros a; ring).
    rewrite Hmap. reflexivity. }
  split; [exact Heq|]. split.
  - intros ->. eexists. reflexivity.
  - intros Hne. rewrite Heq.
    destruct values as [|h t]; [congruence|].
    eexists. split; [reflexivity|].
    rewrite torch_sum_div.
    set (e := map exp _).
    assert (0 < torch_sum e) by (apply torch_sum_exp_pos; discriminate).
    field. lra.
Qed.

End SafeExpFacts.

(** ** [heisenberg_interaction] *)

Module Heisenberg.

Import LocalValues.

Local Open Scope R_scope.

(** [Interaction(matrix, edges)] of [lattice_symmetries]. *)
Record Interaction : Type := mkInteraction {
  matrix : list (list C);
  edges : list (Z * Z)
}.

Definition of_real (x : R) : C := (x, 0).

Definition warning : string :=
  "You are creating Heisenberg interaction term with a complex coupling constant. Please, be careful as it might lead to your Hamiltonian being non-Hermitian!".

(** The exception of an attribute that is looked up and not found. *)
Inductive AttributeError : Type := mkAttributeError (type_name attribute : string).

(** The public methods of the [logger] of [loguru]: the level of warnings
    is logged with [warning]. *)
Definition logger_methods : list string :=
  [ "add"; "remove"; "complete"; "catch"; "opt"; "bind"; "contextualize";
    "patch"; "level"; "disable"; "enable"; "configure"; "parse";
    "trace"; "debug"; "info"; "success"; "warning"; "error"; "critical";
    "exception"; "log" ]%string.

(** [logger.<name>]: the bound method, given by its name. *)
Definition logger_getattr (name : string) : AttributeError + string :=
  if existsb (String.eqb name) logger_methods then inr name
  else inl (mkAttributeError "Logger" name).

(** [heisenberg_interaction(edges, coupling, sign_rule)]: the lines that
    the logger writes and the interaction.  The source looks up
    [logger.warn] when the coupling has an imaginary part. *)
Definition heisenberg_interaction (edges : list (Z * Z)) (coupling : C)
    (sign_rule : bool) : AttributeError + (list string * Interaction) :=
  let logged :=
    if Req_dec_T (snd coupling) 0 then inr []
    else
      match logger_getattr "warn" with
      | inl e => inl e
      | inr _ => inr [warning]
      end in
  match logged with
  | inl e => inl e
  | inr lines =>
      let matrix :=
        if sign_rule then
          [ [of_real 1; of_real 0; of_real 0; of_real 0];
            [of_real 0; of_real (-1); of_real (-2); of_real 0];
            [of_real 0; of_real (-2); of_real (-1); of_real 0];
            [of_real 0; of_real 0; of_real 0; of_real 1] ]
        else
          [ [of_real 1; of_real 0; of_real 0; of_real 0];
            [of_real 0; of_real (-1); of_real 2; of_real 0];
            [of_real 0; of_real 2; of_real (-1); of_real 0];
            [of_real 0; of_real 0; of_real 0; of_real 1] ] in
      let matrix := map (map (fun z => Cmul z coupling)) matrix in
      inr (lines, mkInteraction matrix edges)
  end.

Definition Cconj (z : C) : C := (fst z, - snd z).

Definition entry (m : list (list C)) (i j : nat) : C :=
  nth j (nth i m []) (0, 0).

Definition hermitian (m : list (list C)) : Prop :=
  forall i j, (i < 4)%nat -> (j < 4)%nat -> entry m i j = Cconj (entry m j i).

(** The matrix of the source for a real coupling [J]. *)
Definition real_matrix (J : R) (sign_rule : bool) : list (list C) :=
  let s := if sign_rule then (-2) else 2 in
  [ [of_real J; of_real 0; of_real 0; of_real 0];
    [of_real 0; of_real (- J); of_real (s * J); of_real 0];
    [of_real 0; of_real (s * J); of_real (- J); of_real 0];
    [of_real 0; of_real 0; of_real 0; of_real J] ].

Lemma real_matrix_hermitian (J : R) (sign_rule : bool) :
  hermitian (real_matrix J sign_rule).
Proof.
  intros i j Hi Hj. unfold entry, real_matrix, Cconj, of_real.
  destruct sign_rule;
    destruct i as [|[|[|[|i]]]]; try lia;
    destruct j as [|[|[|[|j]]]]; try lia;
    cbn [nth fst snd]; f_equal; ring.
Qed.

(** X8: [heisenberg_interaction] returns exactly for a coupling without
    imaginary part.  Then nothing is logged, the edges are passed on, and
    the matrix is the coupling [J] times the integer matrix of the
    source, which is Hermitian.  For a coupling with an imaginary part the
    call raises [AttributeError]: the logger of [loguru] has no method
    [warn], so the warning is never written and no interaction is
    built. *)
Theorem heisenberg_returns_iff_real (edges : list (Z * Z)) (coupling : C)
    (sign_rule : bool) :
  let result := heisenberg_interaction edges coupling sign_rule in
  ((exists r, result = inr r) <-> snd coupling = 0) /\
  (snd coupling <> 0 -> result = inl (mkAttributeError "Logger" "warn")) /\
  (snd coupling = 0 ->
   result = inr ([], mkInteraction (real_matrix (fst coupling) sign_rule) edges)) /\
  (forall lines interaction, result = inr (lines, interaction) ->
     lines = [] /\ Heisenberg.edges interaction = edges /\
     matrix interaction = real_matrix (fst coupling) sign_rule /\
     hermitian (matrix interaction)).
Proof.
  destruct coupling as [a b]. cbv zeta. cbn [fst snd].
  set (result := heisenberg_interaction edges (a, b) sign_rule).
  assert (Hcomplex : b <> 0 -> result = inl (mkAttributeError "Logger" "warn")).
  { intros Hb. unfold result, heisenberg_interaction. cbn [snd].
    destruct (Req_dec_T b 0); [contradiction | reflexivity]. }
  assert (Hreal : b = 0 ->
            result = inr ([], mkInteraction (real_matrix a sign_rule) edges)).
  { intros ->. unfold result, heisenberg_interaction. cbn [snd].
    destruct (Req_dec_T 0 0) as [_|Hn]; [|contradiction].
    unfold real_matrix, Cmul, of_real.
    destruct sign_rule; cbn [map fst snd]; repeat (f_equal; try ring). }
  split; [|split; [exact Hcomplex | split; [exact Hreal|]]].
  - split.
    + intros [r Hr]. destruct (Req_dec b 0) as [Hb|Hb]; [exact Hb|].
      rewrite (Hcomplex Hb) in Hr. discriminate.
    + intros Hb. eexists. apply Hreal. exact Hb.
  - intros lines interaction Hr. destruct (Req_dec b 0) as [Hb|Hb].
    + rewrite (Hreal Hb) in Hr. injection Hr as <- <-. cbn [Heisenberg.edges Heisenberg.matrix].
      repeat split. apply real_matrix_hermitian.
    + rewrite (Hcomplex Hb) in Hr. discriminate.
Qed.

End Heisenberg.

(** ** The reference local-value computation *)

Module LocalValuesFacts.

Import LocalValues.

Local Open Scope R_scope.

Definition Cscale (k : R) (z : C) : C := (k * fst z, k * snd z).

(** The sum [c_1 * psi(s_1) + ... + c_k * psi(s_k)] over the connected
    states, with [psi = exp(log_psi)]: the matrix element that
    [_reference_log_apply_one] returns the logarithm of. *)
Definition weighted_sum (coeffs outputs : list C) : C :=
  fold_left Cadd (map (fun '(c, o) => Cmul c (Cexp o)) (combine coeffs outputs)) (0, 0).

Lemma Cabs_pos (z : C) : z <> (0, 0) -> 0 < Cabs z.
Proof.
  destruct z as [x y]. intros Hz. unfold Cabs. cbn [fst snd].
  apply sqrt_lt_R0.
  destruct (Req_dec_T x 0) as [->|Hx].
  - destruct (Req_dec_T y 0) as [->|Hy]; [congruence|]. nra.
  - nra.
Qed.

Lemma Cabs_sqr (z : C) : Cabs z * Cabs z = fst z * fst z + snd z * snd z.
Proof. unfold Cabs. apply sqrt_sqrt. nra. Qed.

Lemma sqrt_atan_arg (x y r : R) :
  0 < r -> r * r = x * x + y * y -> x <> 0 ->
  sqrt (1 + (y / x)²) = r / Rabs x.
Proof.
  intros Hr Hrr Hx.
  assert (Hax : 0 < Rabs x) by (apply Rabs_pos_lt; exact Hx).
  apply sqrt_lem_1.
  - unfold Rsqr. nra.
  - apply Rlt_le, Rdiv_lt_0_compat; assumption.
  - unfold Rsqr. assert (Hxx : Rabs x * Rabs x = x * x).
    { unfold Rabs. destruct (Rcase_abs x); ring. }
    replace (r / Rabs x * (r / Rabs x)) with ((r * r) / (Rabs x * Rabs x))
      by (field; lra).
    rewrite Hxx, Hrr. field. exact Hx.
Qed.

(** The complex exponential undoes the principal logarithm. *)
Lemma Cexp_Clog (z : C) : z <> (0, 0) -> Cexp (Clog z) = z.
Proof.
  intros Hz. pose proof (Cabs_pos z Hz) as Hr. pose proof (Cabs_sqr z) as Hrr.
  destruct z as [x y]. cbn [fst snd] in Hrr.
  unfold Cexp, Clog. cbn [fst snd]. rewrite exp_ln by exact Hr.
  set (r := Cabs (x, y)) in *. unfold Carg.
  destruct (Rlt_dec 0 x) as [Hx|Hx].
  - rewrite cos_atan, sin_atan, (sqrt_atan_arg x y r) by lra.
    rewrite Rabs_right by lra. f_equal; field; lra.
  - destruct (Rlt_dec x 0) as [Hx'|Hx'].
    + assert (Hs : sqrt (1 + (y / x)²) = r / - x).
      { rewrite (sqrt_atan_arg x y r) by lra. rewrite Rabs_left by lra. reflexivity. }
      destruct (Rle_dec 0 y).
      * rewrite neg_cos, neg_sin, cos_atan, sin_atan, Hs. f_equal; field; lra.
      * rewrite cos_minus, sin_minus, cos_PI, sin_PI, cos_atan, sin_atan, Hs.
        f_equal; field; lra.
    + assert (x = 0) by lra. subst x.
      assert (Hy2 : r * r = y * y) by lra.
      destruct (Rlt_dec 0 y) as [Hy|Hy].
      * rewrite cos_PI2, sin_PI2.
        assert (Hry : r = y) by (apply Rsqr_inj; unfold Rsqr; lra).
        rewrite Hry. f_equal; ring.
      * destruct (Rlt_dec y 0) as [Hy'|Hy'].
        -- rewrite cos_neg, sin_neg, cos_PI2, sin_PI2.
           assert (Hry : r = - y) by (apply Rsqr_inj; unfold Rsqr; lra).
           rewrite Hry. f_equal; ring.
        -- exfalso. apply Hz. f_equal; lra.
Qed.

Lemma Cexp_shift (s : R) (z : C) : Cexp (Cadd (s, 0) z) = Cscale (exp s) (Cexp z).
Proof.
  destruct z as [a b]. unfold Cexp, Cadd, Cscale. cbn [fst snd].
  rewrite exp_plus. replace (0 + b) with b by ring. f_equal; ring.
Qed.

Lemma Cexp_unshift (s : R) (o : C) :
  Cscale (exp s) (Cexp (fst o - s, snd o)) = Cexp o.
Proof.
  destruct o as [a b]. unfold Cexp, Cscale. cbn [fst snd].
  replace (exp a) with (exp s * exp (a - s))
    by (rewrite <- exp_plus; f_equal; ring).
  f_equal; ring.
Qed.

Lemma Cscale_fold (k s : R) : forall (coeffs outputs : list C) (acc : C),
  k = exp s ->
  Cscale k (fold_left Cadd
              (map (fun '(x, y) => Cmul x y)
                 (combine coeffs (map Cexp (map (fun z => (fst z - s, snd z)) outputs))))
              acc)
  = fold_left Cadd (map (fun '(c, o) => Cmul c (Cexp o)) (combine coeffs outputs))
      (Cscale k acc).
Proof.
  induction coeffs as [|c coeffs IH]; intros outputs acc Hk; [reflexivity|].
  destruct outputs as [|o outputs]; [reflexivity|].
  cbn [map combine fold_left]. rewrite IH by exact Hk. f_equal.
  rewrite <- (Cexp_unshift s o), <- Hk.
  destruct acc as [a1 a2], c as [c1 c2].
  destruct (Cexp (fst o - s, snd o)) as [e1 e2].
  unfold Cscale, Cadd, Cmul. cbn [fst snd]. f_equal; ring.
Qed.

Section Reference.

Variable operator_apply : Z -> list (list Z) * list C.
Variable log_psi : list (list Z) -> list C.

(** X9: [_reference_log_apply_one] returns a logarithm of the matrix
    element: when the operator connects [spin] to at least one state, gives
    as many coefficients as states, and the sum [c_i * psi(s_i)] is not 0,
    the call returns [r] with [exp(r)] equal to that sum, whatever the
    scale that was subtracted for stability. *)
Theorem reference_log_apply_one_exp (spin : Z) (spins : list (list Z))
    (coeffs : list C)
    (Happly : operator_apply spin = (spins, coeffs))
    (Hnonempty : log_psi spins <> [])
    (Hlen : length coeffs = length (log_psi spins))
    (Hsum : weighted_sum coeffs (log_psi spins) <> (0, 0)) :
  exists r,
    _reference_log_apply_one operator_apply log_psi spin = inr r /\
    Cexp r = weighted_sum coeffs (log_psi spins).
Proof.
  unfold _reference_log_apply_one. rewrite Happly.
  destruct (log_psi spins) as [|o outputs] eqn:E; [congruence|].
  unfold max_real, bind, ret.
  set (scale := fold_left Rmax (map fst outputs) (fst o)).
  unfold torch_dot. rewrite !length_map, Hlen, Nat.eqb_refl.
  set (d := fold_left Cadd _ (0, 0)).
  assert (Hd : Cscale (exp scale) d = weighted_sum coeffs (o :: outputs)).
  { unfold d, weighted_sum. rewrite (Cscale_fold (exp scale) scale) by reflexivity.
    unfold Cscale. cbn [fst snd]. rewrite !Rmult_0_r. reflexivity. }
  assert (Hd0 : d <> (0, 0)).
  { intros H0. apply Hsum. rewrite <- Hd, H0. unfold Cscale. cbn [fst snd].
    rewrite !Rmult_0_r. reflexivity. }
  eexists. split; [reflexivity|].
  rewrite Cexp_shift, Cexp_Clog by exact Hd0. exact Hd.
Qed.

Lemma reference_log_apply_Forall2 : forall spins ref,
  reference_log_apply operator_apply log_psi spins = inr ref <->
  Forall2 (fun spin r =>
             _reference_log_apply_one operator_apply log_psi (_array_to_int spin) = inr r)
          spins ref.
Proof.
  induction spins as [|spin spins IH]; intros ref; cbn [reference_log_apply].
  - split.
    + intros H. injection H as <-. constructor.
    + intros H. inversion H. reflexivity.
  - unfold bind, ret.
    destruct (_reference_log_apply_one operator_apply log_psi (_array_to_int spin))
      as [e|r] eqn:E1.
    + split; [discriminate|]. intros H. inversion H; subst. congruence.
    + destruct (reference_log_apply operator_apply log_psi spins) as [e|rs] eqn:E2.
      * split; [discriminate|]. intros H. inversion H as [|? ? ? ? _ Hrest]; subst.
        apply IH in Hrest. discriminate.
      * split.
        -- intros H. injection H as <-. constructor; [exact E1 | apply IH; reflexivity].
        -- intros H. inversion H as [|? r' ? rs' Hr Hrest]; subst.
           apply IH in Hrest. congruence.
Qed.

(** X10: rows written by [to_array] are read back as the integers they
    came from: on the rows of integers [xs] in [[0, 2^512)],
    [reference_log_apply] returns exactly when
    [_reference_log_apply_one] returns for every integer, and entry [i] of
    the result is the value for [xs[i]]. *)
Theorem reference_log_apply_on_rows (xs : list Z) (ref : list C)
    (Hxs : Forall (fun x => (0 <= x < 2 ^ 512)%Z) xs) :
  reference_log_apply operator_apply log_psi
    (map (fun x => map Words.as_int64 (Words.to_array x)) xs) = inr ref <->
  Forall2 (fun x r => _reference_log_apply_one operator_apply log_psi x = inr r) xs ref.
Proof.
  rewrite reference_log_apply_Forall2. revert ref.
  induction xs as [|x xs IH]; intros ref.
  - split; intros H; inversion H; constructor.
  - apply Forall_cons in Hxs as [Hx Hxs]. cbn [map].
    pose proof (Words.round_trip x) as Hrt.
    split; intros H; inversion H as [|? r ? rs Hr Hrest]; subst; constructor.
    + rewrite <- (Hrt Hx). exact Hr.
    + apply IH; assumption.
    + rewrite (Hrt Hx). exact Hr.
    + apply IH; assumption.
Qed.

End Reference.

Lemma reference_log_apply_one_exp_witness :
  exists r,
    _reference_log_apply_one identity_operator constant_log_psi 5 = inr r /\
    Cexp r = weighted_sum [(1, 0)] (constant_log_psi [[5; 0; 0; 0; 0; 0; 0; 0]%Z]).
Proof.
  apply (reference_log_apply_one_exp identity_operator constant_log_psi 5
           [[5; 0; 0; 0; 0; 0; 0; 0]%Z] [(1, 0)]).
  - reflexivity.
  - discriminate.
  - reflexivity.
  - intros H. apply (f_equal fst) in H.
    unfold weighted_sum, constant_log_psi, Cadd, Cmul, Cexp in H.
    cbn [map combine fold_left fst snd] in H. rewrite cos_0, sin_0 in H.
    pose proof (exp_pos 1). lra.
Defined.

Lemma reference_log_apply_on_rows_witness :
  reference_log_apply identity_operator constant_log_psi
    (map (fun x => map Words.as_int64 (Words.to_array x)) [5%Z]) = inr [(1, 0)] <->
  Forall2 (fun x r => _reference_log_apply_one identity_operator constant_log_psi x = inr r)
          [5%Z] [(1, 0)].
Proof.
  apply (reference_log_apply_on_rows identity_operator constant_log_psi [5%Z] [(1, 0)]).
  apply Forall_cons. split; [split; [lia | reflexivity] | constructor].
Defined.

Section LogApplyFacts.

Variable operator_apply : Z -> list (list Z) * list C.
Variable log_psi : list (list Z) -> list C.
Variable lib_log_apply : list (list Z) -> Z -> list C.
(** [forward_with_batches(state, spins, batch_size)] of [core]: the forward
    pass of [state] over [spins], in batches. *)
Variable forward_with_batches : (list (list Z) -> list C) -> list (list Z) -> Z -> list C.

(** [a -= b] on tensors of rank one: [b] has the length of [a], or it has
    a single element, which is broadcast; the result keeps the shape of
    [a], so nothing else is accepted. *)
Definition isub (a b : list C) : Exn + list C :=
  if Nat.eqb (length b) (length a) then
    ret (map (fun '(h, p) => Csub h p) (combine a b))
  else
    match b, a with
    | [p], _ => ret (map (fun h => Csub h p) a)
    | _, [_] =>
        raise (RuntimeError "output with shape [{}] doesn't match the broadcast shape [{}]")
    | _, _ => raise (RuntimeError "The size of tensor a must match the size of tensor b")
    end.

(** [local_values(spins, hamiltonian, state, log_psi, batch_size, debug)]
    on a two-dimensional [spins]: the lines logged as errors and the
    outcome.  [log_psi_table] is the optional argument [log_psi], a tensor
    of rank one when it is given. *)
Definition local_values (spins : list (list Z)) (log_psi_table : option (list C))
    (batch_size : Z) (debug : bool) : list LogLine * (Exn + list C) :=
  let '(lines, r) :=
    log_apply operator_apply log_psi lib_log_apply spins batch_size debug in
  (lines,
   (do log_h_psi <- r;
    do table <-
      match log_psi_table with
      | Some t => ret t
      | None => view_as (length spins) (forward_with_batches log_psi spins batch_size)
      end;
    do difference <- isub log_h_psi table;
    ret (map Cexp difference))%exn).

Lemma broadcast_pairs_error (a b : list C) (e : Exn) :
  broadcast_pairs a b = inl e ->
  e = RuntimeError "The size of tensor a must match the size of tensor b" /\
  length a <> length b /\ length a <> 1%nat /\ length b <> 1%nat.
Proof.
  unfold broadcast_pairs.
  destruct (Nat.eqb_spec (length a) (length b)) as [Hl|Hl]; [discriminate|].
  destruct a as [|x [|x' a]], b as [|y [|y' b]]; cbn [ret raise]; try discriminate;
    intros H; injection H as <-; repeat split; try exact Hl; cbn [length]; lia.
Qed.

Lemma view_as_inv (n : nat) (t v : list C) :
  view_as n t = inr v -> v = t /\ length t = n.
Proof.
  unfold view_as. destruct (Nat.eqb_spec (length t) n); [|discriminate].
  intros H. injection H as <-. split; [reflexivity | assumption].
Qed.

Lemma view_as_error (n : nat) (t : list C) (e : Exn) :
  view_as n t = inl e ->
  e = RuntimeError "shape '{}' is invalid for input of size {}" /\ length t <> n.
Proof.
  unfold view_as. destruct (Nat.eqb_spec (length t) n); [discriminate|].
  intros H. injection H as <-. split; [reflexivity | assumption].
Qed.

(** A call of [log_apply] that returns has logged nothing and returns the
    result of the compiled implementation, one value per row of [spins]. *)
Lemma log_apply_value (spins : list (list Z)) (batch_size : Z) (debug : bool) lines v :
  log_apply operator_apply log_psi lib_log_apply spins batch_size debug
  = (lines, inr v) ->
  lines = [] /\ v = lib_log_apply spins batch_size /\ length v = length spins.
Proof.
  unfold log_apply, log_apply_with.
  destruct (Z.leb_spec batch_size 0); [discriminate|].
  assert (Hview : forall l, (l, view_as (length spins) (lib_log_apply spins batch_size))
                            = (lines, inr v) ->
            l = [] -> lines = [] /\ v = lib_log_apply spins batch_size /\
                      length v = length spins).
  { intros l Heq Hnil. injection Heq as <- Heq.
    apply view_as_inv in Heq as [-> Hlen]. repeat split; assumption. }
  destruct debug; [|intros Heq; apply (Hview [] Heq); reflexivity].
  destruct (reference_log_apply operator_apply log_psi spins) as [e|ref];
    [discriminate|].
  unfold check_against_reference.
  destruct (broadcast_pairs _ _) as [e|compared]; [discriminate|].
  destruct (forallb _ _); [|discriminate].
  cbn [bind ret]. intros Heq. apply (Hview [] Heq). reflexivity.
Qed.

(** X11: debug mode only checks.  For a non-positive [batch_size] both
    modes raise [ValueError] and log nothing.  When the call in debug mode
    returns, it has logged nothing and returns what the call without debug
    mode returns: the result of the compiled implementation, one value per
    row of [spins].  When it does not return, either
    [reference_log_apply] raised; or the check failed with
    [AssertionError]; or [torch.isclose] rejected the two shapes (the
    lengths differ and neither is 1, so nothing is broadcast); or the
    comparison passed under broadcasting and the final [view] rejected the
    result, as it does without debug mode. *)
Theorem log_apply_debug_is_transparent (spins : list (list Z)) (batch_size : Z) :
  ((batch_size <= 0)%Z -> forall debug,
     log_apply operator_apply log_psi lib_log_apply spins batch_size debug
     = ([], inl (ValueError "invalid batch_size: {}; expected a positive integer"
                   batch_size))) /\
  (forall lines v,
     log_apply operator_apply log_psi lib_log_apply spins batch_size true
     = (lines, inr v) ->
     lines = [] /\ v = lib_log_apply spins batch_size /\ length v = length spins /\
     log_apply operator_apply log_psi lib_log_apply spins batch_size false
     = ([], inr v)) /\
  (forall lines e,
     (0 < batch_size)%Z ->
     log_apply operator_apply log_psi lib_log_apply spins batch_size true
     = (lines, inl e) ->
     (reference_log_apply operator_apply log_psi spins = inl e /\ lines = []) \/
     (exists ref, reference_log_apply operator_apply log_psi spins = inr ref /\
        (e = AssertionError "" \/
         (e = RuntimeError "The size of tensor a must match the size of tensor b" /\
          lines = [] /\
          length (lib_log_apply spins batch_size) <> length ref /\
          length (lib_log_apply spins batch_size) <> 1%nat /\ length ref <> 1%nat) \/
         (e = RuntimeError "shape '{}' is invalid for input of size {}" /\
          lines = [] /\
          length (lib_log_apply spins batch_size) <> length spins /\
          log_apply operator_apply log_psi lib_log_apply spins batch_size false
          = ([], inl e))))).
Proof.
  split; [|split].
  - intros Hb debug. unfold log_apply, log_apply_with.
    destruct (Z.leb_spec batch_size 0); [reflexivity | lia].
  - intros lines v H.
    destruct (log_apply_value spins batch_size true lines v H) as (Hlines & Hv & Hlen).
    split; [exact Hlines|]. split; [exact Hv|]. split; [exact Hlen|].
    revert H. unfold log_apply, log_apply_with.
    destruct (Z.leb_spec batch_size 0); [discriminate|]. intros _.
    unfold view_as. rewrite <- Hv, Hlen, Nat.eqb_refl. reflexivity.
  - intros lines e Hb. unfold log_apply, log_apply_with.
    destruct (Z.leb_spec batch_size 0); [lia|].
    destruct (reference_log_apply operator_apply log_psi spins) as [e'|ref].
    + intros Heq. injection Heq as <- <-. left. split; reflexivity.
    + unfold check_against_reference.
      destruct (broadcast_pairs (lib_log_apply spins batch_size) ref)
        as [e'|compared] eqn:Eb.
      * cbn [bind]. intros Heq. injection Heq as <- <-. right. exists ref.
        split; [reflexivity|]. right. left.
        destruct (broadcast_pairs_error _ _ _ Eb) as (-> & H1 & H2 & H3).
        repeat split; assumption.
      * destruct (forallb _ compared).
        -- cbn [bind ret]. intros Heq. injection Heq as <- Heq. right. exists ref.
           split; [reflexivity|]. right. right.
           destruct (view_as_error _ _ _ Heq) as [-> Hlen].
           repeat split; [exact Hlen|]. rewrite Heq. reflexivity.
        -- cbn [bind raise]. intros Heq. injection Heq as _ <-. right. exists ref.
           split; [reflexivity|]. left. reflexivity.
Qed.

Lemma Cexp_sub_mul (h p : C) : Cmul (Cexp (Csub h p)) (Cexp p) = Cexp h.
Proof.
  destruct h as [a b], p as [c d]. unfold Cmul, Cexp, Csub. cbn [fst snd].
  replace (exp a) with (exp (a - c) * exp c) by (rewrite <- exp_plus; f_equal; ring).
  replace (cos b) with (cos ((b - d) + d)) by (f_equal; ring).
  replace (sin b) with (sin ((b - d) + d)) by (f_equal; ring).
  rewrite cos_plus, sin_plus. f_equal; ring.
Qed.

Lemma nth_error_map_combine (hs ps : list C) : forall i v,
  nth_error (map Cexp (map (fun '(h, p) => Csub h p) (combine hs ps))) i = Some v ->
  exists h p, nth_error hs i = Some h /\ nth_error ps i = Some p /\
              v = Cexp (Csub h p).
Proof.
  revert ps. induction hs as [|h hs IH]; intros ps i v H.
  - destruct i; discriminate.
  - destruct ps as [|p ps]; [destruct i; discriminate|].
    destruct i as [|i]; cbn [combine map nth_error] in *.
    + injection H as <-. exists h, p. repeat split.
    + apply IH. exact H.
Qed.

(** What [a -= b] gives when it is accepted, and when it is not. *)
Lemma isub_cases (a b : list C) :
  (length b = length a /\
   isub a b = inr (map (fun '(h, p) => Csub h p) (combine a b))) \/
  (length b <> length a /\ exists p, b = [p] /\ isub a b = inr (map (fun h => Csub h p) a)) \/
  (length b <> length a /\ length b <> 1%nat /\ exists msg, isub a b = inl (RuntimeError msg)).
Proof.
  unfold isub. destruct (Nat.eqb_spec (length b) (length a)) as [Hl|Hl].
  - left. split; [exact Hl | reflexivity].
  - right. destruct b as [|p [|p' b]].
    + right. split; [exact Hl|]. split; [discriminate|].
      destruct a as [|h [|h' a]]; eexists; reflexivity.
    + left. split; [exact Hl|]. exists p. split; reflexivity.
    + right. split; [exact Hl|]. split; [cbn [length]; lia|].
      destruct a as [|h [|h' a]]; eexists; reflexivity.
Qed.

(** X12: a local value times the wave function is the matrix element.
    When [local_values] returns, nothing was logged and there is one value
    per row of [spins]; the [log_psi] table has one entry per row, or a
    single entry that is broadcast; and entry [i] times [exp] of the table
    entry it met equals [exp(log_h_psi[i])] for the [log_h_psi] of the
    compiled implementation.  A table of any other length is rejected
    once [log_apply] has returned.  Leaving the table out is the same as
    passing the forward pass of the state when that has one value per row,
    and an error of [log_apply] is passed on. *)
Theorem local_values_times_psi (spins : list (list Z)) (table : list C)
    (batch_size : Z) (debug : bool) :
  (length (forward_with_batches log_psi spins batch_size) = length spins ->
   local_values spins None batch_size debug
   = local_values spins (Some (forward_with_batches log_psi spins batch_size))
       batch_size debug) /\
  (forall lines e,
     log_apply operator_apply log_psi lib_log_apply spins batch_size debug
     = (lines, inl e) ->
     forall t, local_values spins t batch_size debug = (lines, inl e)) /\
  (forall lines values,
     local_values spins (Some table) batch_size debug = (lines, inr values) ->
     lines = [] /\ length values = length spins /\
     (length table = length spins \/ length table = 1%nat) /\
     forall i v, nth_error values i = Some v ->
       exists h p,
         nth_error (lib_log_apply spins batch_size) i = Some h /\
         nth_error table (if Nat.eqb (length table) (length spins) then i else 0%nat)
         = Some p /\
         Cmul v (Cexp p) = Cexp h) /\
  (forall lines h,
     log_apply operator_apply log_psi lib_log_apply spins batch_size debug
     = (lines, inr h) ->
     length table <> length spins -> length table <> 1%nat ->
     exists msg,
       local_values spins (Some table) batch_size debug = (lines, inl (RuntimeError msg))).
Proof.
  split; [|split; [|split]].
  - intros Hlen. unfold local_values, view_as. rewrite Hlen, Nat.eqb_refl. reflexivity.
  - intros lines e H t. unfold local_values. rewrite H. reflexivity.
  - intros lines values H. unfold local_values in H.
    destruct (log_apply operator_apply log_psi lib_log_apply spins batch_size debug)
      as [lines' [e|log_h_psi]] eqn:E; [discriminate|].
    destruct (log_apply_value spins batch_size debug lines' log_h_psi E)
      as (Hlines & Hlib & Hlen).
    cbn [bind ret] in H. injection H as <- H.
    split; [exact Hlines|].
    destruct (isub_cases log_h_psi table)
      as [[Hl Hsub] | [(Hl & p & -> & Hsub) | (_ & _ & msg & Hsub)]];
      rewrite Hsub in H; cbn [bind ret] in H; [| |discriminate]; injection H as <-.
    + split; [rewrite !length_map, length_combine, Hl, Nat.min_id; exact Hlen|].
      split; [left; congruence|].
      intros i v Hv. apply nth_error_map_combine in Hv as (h & p & Hh & Hp & ->).
      exists h, p. rewrite <- Hlib.
      rewrite (proj2 (Nat.eqb_eq _ _) (eq_trans Hl Hlen)).
      repeat split; try assumption. apply Cexp_sub_mul.
    + split; [rewrite !length_map; exact Hlen|].
      split; [right; reflexivity|].
      intros i v Hv. rewrite !nth_error_map in Hv.
      destruct (nth_error log_h_psi i) as [h|] eqn:Eh; [|discriminate].
      cbn [option_map] in Hv. injection Hv as <-.
      exists h, p. rewrite <- Hlib. split; [exact Eh|]. split; [|apply Cexp_sub_mul].
      cbn [length] in Hl |- *. rewrite Hlen in Hl.
      destruct (Nat.eqb_spec 1 (length spins)); [congruence | reflexivity].
  - intros lines h E Hn H1. unfold local_values. rewrite E. cbn [bind ret].
    destruct (log_apply_value spins batch_size debug lines h E) as (_ & _ & Hlen).
    destruct (isub_cases h table)
      as [[Hl _] | [(_ & p & -> & _) | (_ & _ & msg & Hsub)]].
    + congruence.
    + exfalso. apply H1. reflexivity.
    + exists msg. rewrite Hsub. reflexivity.
Qed.

End LogApplyFacts.

End LocalValuesFacts.

(** ** [autocorr_function] and [integrated_autocorr_time]: edge cases and
    closed form *)

Module AutocorrFacts.

Import Autocorr.

Local Open Scope Q_scope.

(** The lag-[k] autocorrelation sum of [x] around its mean,
    [sum_t (x[t] - mean) * (x[t + k] - mean)] over [t + k < len(x)]. *)
Definition lag_sum (x : list Q) (k : nat) : Q :=
  sum_upto (fun t => (nth t x 0 - np_mean x) * (nth (t + k) x 0 - np_mean x))
           (length x - k).

Lemma np_sum_seq (g : nat -> Q) : forall n,
  np_sum (map g (seq 0 n)) = sum_upto g n.
Proof.
  unfold np_sum. induction n as [|n IH]; [reflexivity|].
  rewrite seq_S, map_app, fold_left_app, IH. reflexivity.
Qed.

Lemma sum_upto_zero_tail (g : nat -> Q) (M : nat) : forall N,
  (M <= N)%nat -> (forall t, (M <= t < N)%nat -> g t == 0) ->
  sum_upto g N == sum_upto g M.
Proof.
  induction N as [|N IH]; intros HMN Hz.
  - replace M with 0%nat by lia. reflexivity.
  - destruct (Nat.eq_dec M (S N)) as [->|Hne]; [reflexivity|].
    cbn [sum_upto]. rewrite IH, (Hz N) by (intros; try apply Hz; lia). ring.
Qed.

Lemma sum_upto_nonneg (g : nat -> Q) : forall n,
  (forall t, (t < n)%nat -> 0 <= g t) -> 0 <= sum_upto g n.
Proof.
  induction n as [|n IH]; intros Hg; cbn [sum_upto]; [Lqa.lra|].
  specialize (IH ltac:(intros; apply Hg; lia)). specialize (Hg n ltac:(lia)). Lqa.lra.
Qed.

Lemma sum_upto_pos (g : nat -> Q) : forall n t0,
  (forall t, (t < n)%nat -> 0 <= g t) -> (t0 < n)%nat -> 0 < g t0 ->
  0 < sum_upto g n.
Proof.
  induction n as [|n IH]; intros t0 Hg Ht0 Hpos; [lia|].
  cbn [sum_upto].
  pose proof (sum_upto_nonneg g n ltac:(intros; apply Hg; lia)) as Hn.
  destruct (Nat.eq_dec t0 n) as [->|Hne]; [Lqa.lra|].
  specialize (IH t0 ltac:(intros; apply Hg; lia) ltac:(lia) Hpos).
  specialize (Hg n ltac:(lia)). Lqa.lra.
Qed.

(** The mean-subtracted, zero-padded signal that the transform reads. *)
Lemma fft_input_nth (x : list Q) (mu : Q) (N t : nat) :
  (length x <= N)%nat ->
  nth t (fft_input (map (fun v => v - mu) x) N) 0
  = if (t <? length x)%nat then nth t x 0 - mu else 0.
Proof.
  intros HN. unfold fft_input.
  rewrite firstn_all2 by (rewrite length_map; exact HN).
  destruct (Nat.ltb_spec t (length x)) as [Ht|Ht].
  - rewrite app_nth1 by (rewrite length_map; exact Ht).
    rewrite (nth_indep _ 0 (0 - mu)) by (rewrite length_map; exact Ht).
    apply (map_nth (fun v => v - mu)).
  - rewrite app_nth2 by (rewrite length_map; lia). apply nth_repeat.
Qed.

Lemma fft_input_length (x : list Q) (mu : Q) (N : nat) :
  (length x <= N)%nat -> length (fft_input (map (fun v => v - mu) x) N) = N.
Proof.
  intros HN. unfold fft_input.
  rewrite firstn_all2 by (rewrite length_map; exact HN).
  rewrite length_app, length_map, repeat_length. lia.
Qed.

(** With the padding to [N >= 2 * len(x)] nothing wraps around: the
    circular autocorrelation at lag [k < len(x)] is the lag sum. *)
Lemma circular_is_lag_sum (x : list Q) (N k : nat) :
  (2 * length x <= N)%nat -> (k < length x)%nat ->
  circular_autocorr (fft_input (map (fun v => v - np_mean x) x) N) k == lag_sum x k.
Proof.
  intros HN Hk. unfold circular_autocorr.
  rewrite fft_input_length by lia. rewrite np_sum_seq.
  rewrite (sum_upto_zero_tail _ (length x - k) N); [|lia|].
  - unfold lag_sum. apply sum_upto_ext. intros t Ht.
    rewrite !fft_input_nth by lia. rewrite Nat.mod_small by lia.
    destruct (Nat.ltb_spec t (length x)); [|lia].
    destruct (Nat.ltb_spec (t + k) (length x)); [|lia]. reflexivity.
  - intros t Ht. rewrite !fft_input_nth by lia.
    destruct (Nat.ltb_spec t (length x)) as [Hlt|Hge]; [|ring].
    rewrite Nat.mod_small by lia.
    destruct (Nat.ltb_spec (t + k) (length x)); [lia|]. ring.
Qed.

Lemma autocorr_function_closed (x : list Q) :
  x <> [] ->
  exists a,
    autocorr_function x = inr a /\ length a = length x /\
    forall k, (k < length x)%nat -> nth k a 0 == lag_sum x k / lag_sum x 0.
Proof.
  intros Hx. unfold autocorr_function.
  assert (Hlen : (0 < length x)%nat) by (destruct x; [congruence | simpl; lia]).
  destruct (Nat.eqb_spec (length x) 0) as [H0|_]; [lia|].
  pose proof (pow2_log2_up_ge (length x) Hlen) as Hpow.
  set (n := (2 ^ Z.to_nat (Z.log2_up (Z.of_nat (length x))))%nat) in *.
  set (y := fft_input (map (fun v => v - np_mean x) x) (2 * n)).
  set (autocorr := firstn (length x) (map (circular_autocorr y) (seq 0 (2 * n)))).
  assert (Hal : length autocorr = length x)
    by (unfold autocorr; rewrite length_firstn, length_map, length_seq; lia).
  assert (Hnth : forall k, (k < length x)%nat ->
            nth k autocorr 0 = circular_autocorr y k).
  { intros k Hk. unfold autocorr. rewrite nth_firstn.
    destruct (Nat.ltb_spec k (length x)); [|lia].
    rewrite (nth_indep _ 0 (circular_autocorr y 0))
      by (rewrite length_map, length_seq; lia).
    rewrite (map_nth (circular_autocorr y)), seq_nth by lia. reflexivity. }
  eexists. split; [reflexivity|]. split; [rewrite length_map; exact Hal|].
  intros k Hk.
  rewrite (nth_indep _ 0 (0 / nth 0 autocorr 0)) by (rewrite length_map; lia).
  rewrite (map_nth (fun v => v / nth 0 autocorr 0)).
  rewrite !Hnth by lia. unfold y.
  rewrite !circular_is_lag_sum by lia. reflexivity.
Qed.

Lemma lag_sum_0_pos (x : list Q) (i j : nat) :
  (i < length x)%nat -> (j < length x)%nat -> ~ nth i x 0 == nth j x 0 ->
  0 < lag_sum x 0.
Proof.
  intros Hi Hj Hne. unfold lag_sum. rewrite Nat.sub_0_r.
  assert (Hsq : forall t, 0 <= (nth t x 0 - np_mean x) * (nth (t + 0) x 0 - np_mean x)).
  { intros t. rewrite Nat.add_0_r. generalize (nth t x 0 - np_mean x).
    intros q. Lqa.nra. }
  assert (Hpos : forall t, ~ nth t x 0 == np_mean x ->
            0 < (nth t x 0 - np_mean x) * (nth (t + 0) x 0 - np_mean x)).
  { intros t Ht. rewrite Nat.add_0_r.
    assert (H : ~ nth t x 0 - np_mean x == 0) by (intros H; apply Ht; Lqa.lra).
    revert H. generalize (nth t x 0 - np_mean x). intros q Hq. Lqa.nra. }
  destruct (Qeq_dec (nth i x 0) (np_mean x)) as [Ei|Ei].
  - apply (sum_upto_pos _ _ j); [intros; apply Hsq | exact Hj |].
    apply Hpos. intros Ej. apply Hne. rewrite Ei, Ej. reflexivity.
  - apply (sum_upto_pos _ _ i); [intros; apply Hsq | exact Hi |].
    apply Hpos. exact Ei.
Qed.

(** X13: [autocorr_function] raises [ValueError] on an empty array (from
    [math.log2(0)]); on any other array it returns an array of the same
    length, and when the entries of [x] are not all equal its first entry
    is 1. *)
Theorem autocorr_function_normalised (x : list Q) :
  (x = [] -> autocorr_function x = inl (ValueError "math domain error" 0)) /\
  (x <> [] ->
   exists a,
     autocorr_function x = inr a /\ length a = length x /\
     ((exists i j, (i < length x)%nat /\ (j < length x)%nat /\
                   ~ nth i x 0 == nth j x 0) ->
      nth 0 a 0 == 1)).
Proof.
  split; [intros ->; reflexivity|].
  intros Hx. destruct (autocorr_function_closed x Hx) as (a & Ha & Hlen & Hclosed).
  exists a. split; [exact Ha|]. split; [exact Hlen|].
  intros (i & j & Hi & Hj & Hne).
  rewrite Hclosed by lia.
  pose proof (lag_sum_0_pos x i j Hi Hj Hne) as Hpos.
  field. intros H0. rewrite H0 in Hpos. Lqa.lra.
Qed.

(** X14: the zero padding avoids circular aliasing.  For a non-empty [x],
    entry [k] of [autocorr_function(x)] is the lag-[k] sum
    [sum_t (x[t] - mean) * (x[t+k] - mean)] over [t + k < len(x)], divided
    by the lag-0 sum. *)
Theorem autocorr_function_is_lag_sum (x : list Q) (Hx : x <> []) :
  exists a,
    autocorr_function x = inr a /\
    forall k, (k < length x)%nat -> nth k a 0 == lag_sum x k / lag_sum x 0.
Proof.
  destruct (autocorr_function_closed x Hx) as (a & Ha & _ & Hclosed).
  exists a. split; assumption.
Qed.

Lemma autocorr_function_is_lag_sum_witness :
  exists a,
    autocorr_function [1; 2; 4; 3; 0] = inr a /\
    forall k, (k < length [1; 2; 4; 3; 0])%nat ->
      nth k a 0 == lag_sum [1; 2; 4; 3; 0] k / lag_sum [1; 2; 4; 3; 0] 0.
Proof. apply (autocorr_function_is_lag_sum [1; 2; 4; 3; 0]). discriminate. Defined.

Lemma np_argmin_lt (m : list bool) : m <> [] -> (np_argmin m < length m)%nat.
Proof.
  intros Hm. unfold np_argmin.
  destruct (first_false_from 0 m) as [j|] eqn:E.
  - apply first_false_from_Some in E as (_ & Hlt & _). lia.
  - destruct m; [congruence | simpl; lia].
Qed.

Lemma auto_window_range (taus : list Q) (c : Q) :
  taus <> [] -> (0 <= _auto_window taus c < Z.of_nat (length taus))%Z.
Proof.
  intros Ht. unfold _auto_window.
  assert (Hl : (0 < length taus)%nat) by (destruct taus; [congruence | simpl; lia]).
  destruct (np_any (window_mask taus c)); [|lia].
  pose proof (np_argmin_lt (window_mask taus c)) as Hlt.
  rewrite window_mask_length in Hlt.
  assert (window_mask taus c <> []).
  { intros Hnil. pose proof (window_mask_length taus c) as Hwl.
    rewrite Hnil in Hwl. simpl in Hwl. lia. }
  specialize (Hlt H). lia.
Qed.

(** X15: [integrated_autocorr_time] returns for every array with at least
    one row, whatever [c] is, and the value it returns is an entry of
    [taus]; an array without rows raises: [ValueError] (from
    [autocorr_function]) when it has columns and [IndexError] (from
    [taus[-1]] on the empty [taus]) when it has none. *)
Theorem integrated_autocorr_time_returns_iff (x : ndarray2) (c : Q) :
  ((0 < shape0 x)%nat ->
   exists taus W,
     taus_of x = inr taus /\ (W < length taus)%nat /\
     integrated_autocorr_time x c = inr (nth W taus 0)) /\
  (shape0 x = 0%nat -> (0 < shape1 x)%nat ->
   integrated_autocorr_time x c = inl (ValueError "math domain error" 0)) /\
  (shape0 x = 0%nat -> shape1 x = 0%nat ->
   integrated_autocorr_time x c = inl (IndexError "index out of bounds")).
Proof.
  split; [|split].
  - intros Hrows.
    destruct (taus_of_closed_form x Hrows) as (taus & Htaus & Hlen & _).
    assert (Hne : taus <> []) by (intros ->; simpl in Hlen; lia).
    pose proof (auto_window_range taus c Hne) as Hw.
    exists taus, (Z.to_nat (_auto_window taus c)).
    split; [exact Htaus|]. split; [lia|].
    unfold integrated_autocorr_time. rewrite Htaus. cbn [bind].
    rewrite <- (Z2Nat.id (_auto_window taus c)) at 1 by lia.
    apply getitem_nat. lia.
  - intros H0 H1. destruct x as [rows s1]. unfold shape0 in H0. cbn [Autocorr.rows Autocorr.shape1] in *.
    destruct rows; [|discriminate]. destruct s1 as [|s1]; [lia|]. reflexivity.
  - intros H0 H1. destruct x as [rows s1]. unfold shape0 in H0. cbn [Autocorr.rows Autocorr.shape1] in *.
    destruct rows; [|discriminate]. subst s1. reflexivity.
Qed.

End AutocorrFacts.

(** ** [metropolis_process]: further properties *)

Module MetropolisFacts.

Import Metropolis.

Lemma mask_select_map {A B} (f : A -> B) : forall (t : list bool) (xs ys : list A),
  map f (mask_select t xs ys) = mask_select t (map f xs) (map f ys).
Proof.
  unfold mask_select.
  induction t as [|b t IH]; intros xs ys; [reflexivity|].
  destruct xs as [|x xs]; [reflexivity|]. destruct ys as [|y ys]; [reflexivity|].
  cbn [map zip_with]. rewrite <- IH. destruct b; reflexivity.
Qed.

Section Facts.

Variables (St F W : Type).
Variables (fmul fdiv fsub : F -> F -> F) (fexp : F -> F) (fzero : F).
Variables (fgt fle : F -> F -> bool).
Variable log_prob_fn : list St -> list F.
Variable kernel_fn : W -> list St -> list St * list F * W.
Variable torch_rand : W -> nat -> list F * W.

Hypothesis kernel_fn_shape : forall w xs,
  length (kernel_fn w xs).1.1 = length xs /\ length (kernel_fn w xs).1.2 = length xs.
Hypothesis log_prob_fn_shape : forall xs, length (log_prob_fn xs) = length xs.
Hypothesis torch_rand_shape : forall w n, length (torch_rand w n).1 = n.

Local Abbreviation after :=
  (chains_after St F W fmul fdiv fsub fexp fzero fgt fle
     log_prob_fn kernel_fn torch_rand).
Local Abbreviation masks :=
  (masks_of St F W fmul fdiv fsub fexp fzero fgt fle
     log_prob_fn kernel_fn torch_rand).
Local Abbreviation rng_at :=
  (rng_after St F W fmul fdiv fsub fexp fzero fgt fle
     log_prob_fn kernel_fn torch_rand).
Local Abbreviation refines junk_state junk_log_prob :=
  (process_refines St F W fmul fdiv fsub fexp fzero fgt fle
     log_prob_fn kernel_fn torch_rand junk_state junk_log_prob
     kernel_fn_shape log_prob_fn_shape torch_rand_shape).
Local Abbreviation run_wf :=
  (chain_run_wf St F W fmul fdiv fsub fexp fzero fgt fle
     log_prob_fn kernel_fn torch_rand
     kernel_fn_shape log_prob_fn_shape torch_rand_shape).

(** X16: nothing of the uninitialised buffers ([new_empty]) reaches the
    caller: whatever the buffers hold when they are allocated, the result
    is the same. *)
Theorem result_ignores_uninitialised_memory (junk_state junk_state' : St)
    (junk_log_prob junk_log_prob' : F)
    (initial_state : list St) (initial_norm : list F) (w : W)
    (number_samples number_discarded sweep_size : Z)
    (Hns : (1 <= number_samples)%Z)
    (Hlen : length initial_norm = length initial_state) :
  metropolis_process St F W fmul fdiv fsub fexp fzero fgt fle
      log_prob_fn kernel_fn torch_rand junk_state junk_log_prob initial_state initial_norm w
    number_samples number_discarded sweep_size
  = metropolis_process St F W fmul fdiv fsub fexp fzero fgt fle
      log_prob_fn kernel_fn torch_rand junk_state' junk_log_prob' initial_state initial_norm w
      number_samples number_discarded sweep_size.
Proof.
  destruct (refines junk_state junk_log_prob initial_state initial_norm w
              number_samples number_discarded sweep_size Hns Hlen)
    as (s1 & s3 & _ & _ & _ & Hp & Hl & Hll & Hacc & Hrng & Hrows).
  destruct (refines junk_state' junk_log_prob' initial_state initial_norm w
              number_samples number_discarded sweep_size Hns Hlen)
    as (s1' & s3' & _ & _ & _ & Hp' & Hl' & Hll' & Hacc' & Hrng' & Hrows').
  rewrite Hp, Hp'.
  assert (Hs : states s3 = states s3').
  { apply list_eq. intros i.
    destruct (Nat.lt_ge_cases i (Z.to_nat number_samples)) as [Hi|Hi].
    - destruct (Hrows i Hi) as [-> _]. destruct (Hrows' i Hi) as [-> _]. reflexivity.
    - rewrite !lookup_ge_None_2 by lia. reflexivity. }
  assert (Hlp : log_probs s3 = log_probs s3').
  { apply list_eq. intros i.
    destruct (Nat.lt_ge_cases i (Z.to_nat number_samples)) as [Hi|Hi].
    - destruct (Hrows i Hi) as [_ ->]. destruct (Hrows' i Hi) as [_ ->]. reflexivity.
    - rewrite !lookup_ge_None_2 by lia. reflexivity. }
  rewrite Hs, Hlp, Hacc, Hacc', Hrng, Hrng'. reflexivity.
Qed.

(** X17: the acceptance diagnostic is a rate.  For a non-negative
    [sweep_size] and fewer than [2^63] production steps, entry [j] of the
    result is [count_j / ((number_samples - 1) * sweep_size)] for an
    integer count with [0 <= count_j <= (number_samples - 1) * sweep_size],
    one entry per chain. *)
Theorem acceptance_is_a_rate (junk_state : St) (junk_log_prob : F)
    (initial_state : list St) (initial_norm : list F) (w : W)
    (number_samples number_discarded sweep_size : Z)
    (Hns : (1 <= number_samples)%Z)
    (Hlen : length initial_norm = length initial_state)
    (Hss : (0 <= sweep_size)%Z)
    (Hsteps : ((number_samples - 1) * sweep_size < 2 ^ 63)%Z) :
  exists result_states result_log_probs counts w',
    metropolis_process St F W fmul fdiv fsub fexp fzero fgt fle
      log_prob_fn kernel_fn torch_rand junk_state junk_log_prob initial_state initial_norm w
      number_samples number_discarded sweep_size
    = inr (result_states, result_log_probs,
           acceptance_of counts number_samples sweep_size, w') /\
    length counts = length initial_state /\
    Forall (fun a => (0 <= a <= (number_samples - 1) * sweep_size)%Z) counts.
Proof.
  destruct (refines junk_state junk_log_prob initial_state initial_norm w
              number_samples number_discarded sweep_size Hns Hlen)
    as (s1 & s3 & _ & _ & _ & Hp & _ & _ & Hacc & _ & _).
  destruct (initialise_facts St F W log_prob_fn junk_state junk_log_prob
              log_prob_fn_shape initial_state initial_norm w
              (Z.to_nat number_samples)) as (_ & Hc0 & _); [lia | exact Hlen |].
  set (n := length initial_state) in *.
  set (c0 := initial_chains St F log_prob_fn initial_state initial_norm) in *.
  set (thermal := (Z.to_nat number_discarded * Z.to_nat sweep_size)%nat) in *.
  set (production := ((Z.to_nat number_samples - 1) * Z.to_nat sweep_size)%nat) in *.
  destruct (run_wf n thermal c0 w Hc0) as (Hcth & _ & _).
  destruct (run_wf n production _ (rng_at thermal c0 w) Hcth) as (_ & Hmasks & Hmlen).
  set (ms := masks production (after thermal c0 w) (rng_at thermal c0 w)) in *.
  assert (Hprod : Z.of_nat production = ((number_samples - 1) * sweep_size)%Z)
    by (unfold production; rewrite Nat2Z.inj_mul, Nat2Z.inj_sub, !Z2Nat.id by lia;
        reflexivity).
  exists (states s3), (log_probs s3), (accepted s3), (rng s3).
  split; [exact Hp|].
  assert (Hal : length (accepted s3) = n).
  { rewrite Hacc. apply (fold_add_mask_length n); [apply length_replicate | exact Hmasks]. }
  split; [exact Hal|].
  apply Forall_lookup. intros j a Ha.
  assert (Hj : (j < n)%nat) by (rewrite <- Hal; eapply lookup_lt_Some; exact Ha).
  rewrite Hacc in Ha.
  rewrite (fold_add_mask_counts n j ms (replicate n 0%Z) 0%Z) in Ha;
    [| exact Hmasks | apply length_replicate | apply lookup_replicate_2; exact Hj
     | lia | rewrite Hmlen; lia ].
  injection Ha as <-. pose proof (times_accepted_bounds j ms) as Hb.
  rewrite Hmlen in Hb. lia.
Qed.

(** X18: the log-probabilities returned belong to the states returned.
    When [log_prob_fn] acts on every state of a batch separately (as [f]),
    entry [j] of row [i] of [log_probs] is [f] of entry [j] of row [i] of
    [states]. *)
Theorem log_probs_belong_to_states (f : St -> F) (junk_state : St)
    (junk_log_prob : F)
    (initial_state : list St) (initial_norm : list F) (w : W)
    (number_samples number_discarded sweep_size : Z)
    (Hf : forall xs, log_prob_fn xs = map f xs)
    (Hns : (1 <= number_samples)%Z)
    (Hlen : length initial_norm = length initial_state) :
  exists result_states result_log_probs acceptance w',
    metropolis_process St F W fmul fdiv fsub fexp fzero fgt fle
      log_prob_fn kernel_fn torch_rand junk_state junk_log_prob initial_state initial_norm w
      number_samples number_discarded sweep_size
    = inr (result_states, result_log_probs, acceptance, w') /\
    result_log_probs = map (map f) result_states.
Proof.
  destruct (refines junk_state junk_log_prob initial_state initial_norm w
              number_samples number_discarded sweep_size Hns Hlen)
    as (s1 & s3 & _ & _ & _ & Hp & Hl & Hll & _ & _ & Hrows).
  assert (Hinv : forall k c w0,
            c_log_prob c = map f (c_state c) ->
            c_log_prob (after k c w0) = map f (c_state (after k c w0))).
  { unfold chains_after. induction k as [|k IH]; intros c w0 Hc; [exact Hc|].
    cbn [chain_run]. unfold chain_step.
    destruct (kernel_fn w0 (c_state c)) as [[ps pn] w1].
    destruct (torch_rand w1 (length (c_state c))) as [u w2].
    set (t := accept_tensor F fmul fdiv fsub fexp fzero fgt fle u pn (c_norm c)
                (log_prob_fn ps) (c_log_prob c)).
    set (c1 := mkChains (mask_select t (c_state c) ps)
                 (mask_select t (c_norm c) pn)
                 (mask_select t (c_log_prob c) (log_prob_fn ps))).
    assert (Hc1 : c_log_prob c1 = map f (c_state c1))
      by (unfold c1; cbn [c_log_prob c_state]; rewrite Hc, Hf, mask_select_map;
          reflexivity).
    specialize (IH c1 w2 Hc1).
    destruct (chain_run St F W fmul fdiv fsub fexp fzero fgt fle
                log_prob_fn kernel_fn torch_rand k c1 w2) as [[c2 ts] w3].
    exact IH. }
  exists (states s3), (log_probs s3),
    (acceptance_of (accepted s3) number_samples sweep_size), (rng s3).
  split; [exact Hp|].
  apply list_eq. intros i. rewrite list_lookup_fmap.
  destruct (Nat.lt_ge_cases i (Z.to_nat number_samples)) as [Hi|Hi].
  - destruct (Hrows i Hi) as [-> ->]. cbn [fmap option_fmap option_map]. f_equal.
    apply Hinv. unfold initial_chains. cbn [c_log_prob c_state]. apply Hf.
  - rewrite !lookup_ge_None_2 by lia. reflexivity.
Qed.

(** X19: when the call returns.  With norms of the length of the states,
    the call returns exactly when [number_samples >= 1]; otherwise the
    assertion at its head fails, before [log_prob_fn] is called.  A negative
    [number_discarded] or [sweep_size] is no error. *)
Theorem metropolis_process_returns_iff (junk_state : St) (junk_log_prob : F)
    (initial_state : list St) (initial_norm : list F) (w : W)
    (number_samples number_discarded sweep_size : Z)
    (Hlen : length initial_norm = length initial_state) :
  (returns (metropolis_process St F W fmul fdiv fsub fexp fzero fgt fle
      log_prob_fn kernel_fn torch_rand junk_state junk_log_prob initial_state initial_norm w
              number_samples number_discarded sweep_size)
   <-> (1 <= number_samples)%Z) /\
  ((number_samples < 1)%Z ->
   metropolis_process St F W fmul fdiv fsub fexp fzero fgt fle
      log_prob_fn kernel_fn torch_rand junk_state junk_log_prob initial_state initial_norm w
     number_samples number_discarded sweep_size = inl (AssertionError "")).
Proof.
  assert (Hbad : (number_samples < 1)%Z ->
            metropolis_process St F W fmul fdiv fsub fexp fzero fgt fle
      log_prob_fn kernel_fn torch_rand junk_state junk_log_prob initial_state initial_norm w
              number_samples number_discarded sweep_size = inl (AssertionError "")).
  { intros Hns. unfold metropolis_process.
    destruct (Z.leb_spec 1 number_samples); [lia | reflexivity]. }
  split; [|exact Hbad]. split.
  - intros [v Hv]. destruct (Z.le_gt_cases 1 number_samples) as [H|H]; [exact H|].
    rewrite Hbad in Hv by lia. discriminate Hv.
  - intros Hns.
    destruct (refines junk_state junk_log_prob initial_state initial_norm w
                number_samples number_discarded sweep_size Hns Hlen)
      as (s1 & s3 & _ & _ & _ & Hp & _).
    eexists. exact Hp.
Qed.

(** X20: empty loops.  [range] of a non-positive number is empty, so with
    [sweep_size <= 0] no step is made at all: every row of the result is
    the initial state with its log-probability, the generators are
    untouched and the counters the rate is computed from are all zero.
    With [number_discarded <= 0] alone, the first row is the initial
    state. *)
Theorem no_steps_in_empty_loops (junk_state : St) (junk_log_prob : F)
    (initial_state : list St) (initial_norm : list F) (w : W)
    (number_samples number_discarded sweep_size : Z)
    (Hns : (1 <= number_samples)%Z)
    (Hlen : length initial_norm = length initial_state) :
  ((sweep_size <= 0)%Z ->
   metropolis_process St F W fmul fdiv fsub fexp fzero fgt fle
      log_prob_fn kernel_fn torch_rand junk_state junk_log_prob initial_state initial_norm w
     number_samples number_discarded sweep_size
   = inr (replicate (Z.to_nat number_samples) initial_state,
          replicate (Z.to_nat number_samples) (log_prob_fn initial_state),
          acceptance_of (replicate (length initial_state) 0%Z)
            number_samples sweep_size, w)) /\
  ((number_discarded <= 0)%Z ->
   exists result_states result_log_probs acceptance w',
     metropolis_process St F W fmul fdiv fsub fexp fzero fgt fle
      log_prob_fn kernel_fn torch_rand junk_state junk_log_prob initial_state initial_norm w
       number_samples number_discarded sweep_size
     = inr (result_states, result_log_probs, acceptance, w') /\
     result_states !! 0%nat = Some initial_state /\
     result_log_probs !! 0%nat = Some (log_prob_fn initial_state)).
Proof.
  destruct (refines junk_state junk_log_prob initial_state initial_norm w
              number_samples number_discarded sweep_size Hns Hlen)
    as (s1 & s3 & _ & _ & _ & Hp & Hl & Hll & Hacc & Hrng & Hrows).
  split.
  - intros Hss. rewrite Hp.
    assert (Ess : Z.to_nat sweep_size = 0%nat) by lia.
    rewrite Ess in Hacc, Hrng, Hrows. rewrite !Nat.mul_0_r in Hacc, Hrng.
    assert (Hs : states s3 = replicate (Z.to_nat number_samples) initial_state).
    { apply list_eq. intros i.
      destruct (Nat.lt_ge_cases i (Z.to_nat number_samples)) as [Hi|Hi].
      - destruct (Hrows i Hi) as [-> _]. rewrite Nat.mul_0_r.
        rewrite lookup_replicate_2 by exact Hi. reflexivity.
      - rewrite !lookup_ge_None_2; [reflexivity | rewrite length_replicate; lia | lia]. }
    assert (Hlp : log_probs s3
                  = replicate (Z.to_nat number_samples) (log_prob_fn initial_state)).
    { apply list_eq. intros i.
      destruct (Nat.lt_ge_cases i (Z.to_nat number_samples)) as [Hi|Hi].
      - destruct (Hrows i Hi) as [_ ->]. rewrite Nat.mul_0_r.
        rewrite lookup_replicate_2 by exact Hi. reflexivity.
      - rewrite !lookup_ge_None_2; [reflexivity | rewrite length_replicate; lia | lia]. }
    rewrite Hs, Hlp, Hacc, Hrng. reflexivity.
  - intros Hnd.
    exists (states s3), (log_probs s3),
      (acceptance_of (accepted s3) number_samples sweep_size), (rng s3).
    split; [exact Hp|].
    assert (End : Z.to_nat number_discarded = 0%nat) by lia.
    destruct (Hrows 0%nat ltac:(lia)) as [H1 H2].
    rewrite End in H1, H2. cbn [Nat.add Nat.mul] in H1, H2.
    split; [exact H1 | exact H2].
Qed.

End Facts.

Lemma result_ignores_uninitialised_memory_witness :
  toy_process [0; 3]%Z [1; 1]%Q 0%nat 3 1 3
  = metropolis_process Z Q nat Qmult Qdiv Qminus toy_exp 0%Q toy_gt Qle_bool
      toy_log_prob_fn toy_kernel_fn toy_rand 7%Z (5 # 2)%Q
      [0; 3]%Z [1; 1]%Q 0%nat 3 1 3.
Proof.
  apply (result_ignores_uninitialised_memory Z Q nat Qmult Qdiv Qminus toy_exp 0%Q
           toy_gt Qle_bool toy_log_prob_fn toy_kernel_fn toy_rand
           toy_kernel_fn_shape toy_log_prob_fn_shape toy_rand_shape
           0%Z 7%Z 0%Q (5 # 2)%Q [0; 3]%Z [1; 1]%Q 0%nat 3 1 3);
    [lia | reflexivity].
Defined.

Lemma acceptance_is_a_rate_witness :
  exists result_states result_log_probs counts w',
    toy_process [0; 3]%Z [1; 1]%Q 0%nat 3 1 3
    = inr (result_states, result_log_probs, acceptance_of counts 3 3, w') /\
    length counts = 2%nat /\
    Forall (fun a => (0 <= a <= (3 - 1) * 3)%Z) counts.
Proof.
  apply (acceptance_is_a_rate Z Q nat Qmult Qdiv Qminus toy_exp 0%Q
           toy_gt Qle_bool toy_log_prob_fn toy_kernel_fn toy_rand
           toy_kernel_fn_shape toy_log_prob_fn_shape toy_rand_shape
           0%Z 0%Q [0; 3]%Z [1; 1]%Q 0%nat 3 1 3);
    [lia | reflexivity | lia | reflexivity].
Defined.

Lemma log_probs_belong_to_states_witness :
  exists result_states result_log_probs acceptance w',
    toy_process [0; 3]%Z [1; 1]%Q 0%nat 3 1 3
    = inr (result_states, result_log_probs, acceptance, w') /\
    result_log_probs = map (map (fun x => inject_Z (- (x * x)))) result_states.
Proof.
  apply (log_probs_belong_to_states Z Q nat Qmult Qdiv Qminus toy_exp 0%Q
           toy_gt Qle_bool toy_log_prob_fn toy_kernel_fn toy_rand
           toy_kernel_fn_shape toy_log_prob_fn_shape toy_rand_shape
           (fun x => inject_Z (- (x * x))) 0%Z 0%Q [0; 3]%Z [1; 1]%Q 0%nat 3 1 3);
    [intros xs; reflexivity | lia | reflexivity].
Defined.

Lemma metropolis_process_returns_iff_witness :
  (returns (toy_process [0; 3]%Z [1; 1]%Q 0%nat 0 1 3) <-> (1 <= 0)%Z) /\
  ((0 < 1)%Z ->
   toy_process [0; 3]%Z [1; 1]%Q 0%nat 0 1 3 = inl (AssertionError "")).
Proof.
  apply (metropolis_process_returns_iff Z Q nat Qmult Qdiv Qminus toy_exp 0%Q
           toy_gt Qle_bool toy_log_prob_fn toy_kernel_fn toy_rand
           toy_kernel_fn_shape toy_log_prob_fn_shape toy_rand_shape
           0%Z 0%Q [0; 3]%Z [1; 1]%Q 0%nat 0 1 3).
  reflexivity.
Defined.

Lemma no_steps_in_empty_loops_witness :
  toy_process [0; 3]%Z [1; 1]%Q 0%nat 3 1 0
  = inr (replicate 3 [0; 3]%Z, replicate 3 (toy_log_prob_fn [0; 3]%Z),
         acceptance_of (replicate 2 0%Z) 3 0, 0%nat).
Proof.
  apply (no_steps_in_empty_loops Z Q nat Qmult Qdiv Qminus toy_exp 0%Q
           toy_gt Qle_bool toy_log_prob_fn toy_kernel_fn toy_rand
           toy_kernel_fn_shape toy_log_prob_fn_shape toy_rand_shape
           0%Z 0%Q [0; 3]%Z [1; 1]%Q 0%nat 3 1 0); [lia | reflexivity | lia].
Defined.

End MetropolisFacts.

(** ** [_prepare_initial_state], [sample_using_metropolis], [sample_some] *)

From stdpp Require Import gmap.

Module Sampling.

Import RandomSpin.

Local Open Scope Z_scope.

(** What the samplers read of [basis]: [basis.number_spins],
    [basis.hamming_weight], [basis.full_info(spin)[0]] (the representative
    of a configuration) and [basis.states]. *)
Record Basis : Type := mkBasis {
  number_spins : Z;
  hamming_weight : option Z;
  full_info_0 : Z -> Z;
  basis_states : list Z
}.

(** A row of the [int64] tensor [out] after [to_array] wrote [x] through
    the [uint64] view of it. *)
Definition row_of (x : Z) : list Z := map Words.as_int64 (Words.to_array x).

(** [for i, index in enumerate(indices): to_array(states[index], out=batch[i])],
    from row [i] on. *)
Fixpoint fill (states : list Z) (indices : list nat) (i : nat) (batch : list (list Z))
  : Exn + list (list Z) :=
  match indices with
  | [] => ret batch
  | index :: rest =>
      match states !! index with
      | None => raise (IndexError "list index out of range")
      | Some x =>
          if bool_decide (i < length batch)%nat
          then fill states rest (S i) (<[i := row_of x]> batch)
          else raise (IndexError "index out of bounds")
      end
  end.

Section PrepareInitialState.

(** The permutation that [np.random.shuffle] applies and the entropy that
    [randint] consumes in the [i]-th call of [_random_spin_configuration];
    the order in which [list] enumerates a [set]; [torch.randperm(n)]; the
    contents of a fresh [torch.empty] tensor. *)
Variable shuffle_at : nat -> list string -> list string.
Variable entropy_at : nat -> Z.
Variable list_of_set : gset Z -> list Z.
Variable torch_randperm : nat -> list nat.
Variable junk : Z.

(** The [i]-th call [_random_spin_configuration(basis.number_spins,
    basis.hamming_weight)]. *)
Definition draw (basis : Basis) (i : nat) : Exn + Z :=
  _random_spin_configuration (shuffle_at i) (entropy_at i)
    (number_spins basis) (hamming_weight basis).

(** The loop that collects representatives: [count] further draws, the
    next of which is the [i]-th. *)
Fixpoint draw_states (basis : Basis) (count i : nat) (states : gset Z)
  : Exn + gset Z :=
  match count with
  | O => ret states
  | S count' =>
      (do spin <- draw basis i;
       draw_states basis count' (S i) ({[ full_info_0 basis spin ]} ∪ states))%exn
  end.

(** [_prepare_initial_state(basis, batch_size)]: the tensor [out], a list
    of [batch_size] rows of 8 [int64] words. *)
Definition _prepare_initial_state (basis : Basis) (batch_size : Z)
  : Exn + list (list Z) :=
  if batch_size <=? 0 then
    raise (ValueError "invalid batch size: {}; expected a positive integer" batch_size)
  else
    (do states <- draw_states basis (Z.to_nat (Z.max (2 * batch_size) 10000)) 0 ∅;
     if Z.of_nat (size states) <? batch_size then
       raise (RuntimeError "failed to generate enough different spin configurations")
     else
       let states := list_of_set states in
       let out := replicate (Z.to_nat batch_size) (replicate 8 junk) in
       fill states (take (Z.to_nat batch_size) (torch_randperm (length states))) 0 out)%exn.

(** The configuration of the [i]-th draw and the set of representatives
    that [count] draws give, when every draw returns. *)
Definition spin_at (basis : Basis) (i : nat) : Z :=
  match draw basis i with
  | inr v => v
  | inl _ => 0
  end.

Definition representatives (basis : Basis) (count : nat) : gset Z :=
  list_to_set (map (fun i => full_info_0 basis (spin_at basis i)) (seq 0 count)).

Definition number_of_draws (batch_size : Z) : nat :=
  Z.to_nat (Z.max (2 * batch_size) 10000).

(** A basis whose draws cannot fail: at least one spin, and a Hamming
    weight (if any) between 0 and the number of spins. *)
Definition valid_basis (basis : Basis) : Prop :=
  1 <= number_spins basis /\
  match hamming_weight basis with
  | None => True
  | Some hw => 0 <= hw <= number_spins basis
  end.

Definition honest_shuffle : Prop := forall i l, Permutation (shuffle_at i l) l.

Lemma draw_returns (basis : Basis) (i : nat) :
  honest_shuffle -> valid_basis basis -> draw basis i = inr (spin_at basis i).
Proof.
  intros Hs [Hn Hhw]. unfold spin_at.
  assert (Hr : exists v, draw basis i = inr v).
  { unfold draw. destruct (hamming_weight basis) as [hw|].
    - destruct (RandomSpinFacts.hamming_branch (shuffle_at i) (entropy_at i)
                  (number_spins basis) hw (Hs i) Hn Hhw) as (v & Hv & _).
      exists v. exact Hv.
    - eexists. apply random_spin_None. exact Hn. }
  destruct Hr as [v Hv]. rewrite Hv. reflexivity.
Qed.

Lemma draw_states_from (basis : Basis) : forall count i (states : gset Z),
  (forall j, draw basis j = inr (spin_at basis j)) ->
  draw_states basis count i states
  = inr (list_to_set (map (fun i => full_info_0 basis (spin_at basis i)) (seq i count))
           ∪ states).
Proof.
  induction count as [|count IH]; intros i states Hd.
  - cbn [draw_states seq map list_to_set]. unfold ret. f_equal.
    symmetry. apply (left_id_L ∅ (∪)).
  - cbn [draw_states seq map list_to_set]. rewrite Hd. cbn [bind].
    rewrite IH by exact Hd. f_equal.
    clear list_of_set torch_randperm junk.
    apply set_eq. intros y. rewrite !elem_of_union. tauto.
Qed.

Lemma draw_states_all (basis : Basis) (count : nat) :
  honest_shuffle -> valid_basis basis ->
  draw_states basis count 0 ∅ = inr (representatives basis count).
Proof.
  intros Hs Hb.
  rewrite (draw_states_from basis count 0%nat ∅ (fun j => draw_returns basis j Hs Hb)).
  unfold representatives. f_equal. apply (right_id_L ∅ (∪)).
Qed.

Lemma draw_states_first_error (basis : Basis) (count : nat) (states : gset Z) (e : Exn) :
  draw basis 0 = inl e -> draw_states basis (S count) 0 states = inl e.
Proof. intros He. cbn [draw_states]. rewrite He. reflexivity. Qed.

Lemma fill_rows (states : list Z) : forall (indices : list nat) (i : nat)
    (batch : list (list Z)),
  Forall (fun index => (index < length states)%nat) indices ->
  (i + length indices <= length batch)%nat ->
  fill states indices i batch
  = inr (take i batch ++ map (fun index => row_of (nth index states 0)) indices
           ++ drop (i + length indices) batch).
Proof.
  induction indices as [|index rest IH]; intros i batch Hin Hlen.
  - cbn [fill map length app]. rewrite Nat.add_0_r, take_drop. reflexivity.
  - apply Forall_cons in Hin as [Hindex Hrest]. cbn [length] in Hlen.
    cbn [fill]. destruct (nth_lookup_or_length states index 0) as [Hx|Hx]; [|lia].
    rewrite Hx. rewrite bool_decide_true by lia.
    rewrite IH; [|exact Hrest | rewrite length_insert; lia].
    f_equal. rewrite (take_S_r _ _ (row_of (nth index states 0)))
      by (apply list_lookup_insert_eq; lia).
    rewrite take_insert_ge by lia. rewrite drop_insert_lt by lia.
    cbn [map length]. rewrite <- app_assoc. cbn [app].
    replace (S i + length rest)%nat with (i + S (length rest))%nat by lia.
    reflexivity.
Qed.

Hypothesis list_of_set_perm : forall s, Permutation (list_of_set s) (elements s).
Hypothesis torch_randperm_perm : forall n, Permutation (torch_randperm n) (seq 0 n).

Lemma randperm_take (n k : nat) :
  (k <= n)%nat ->
  let indices := take k (torch_randperm n) in
  length indices = k /\ NoDup indices /\ Forall (fun index => (index < n)%nat) indices.
Proof.
  intros Hk indices. pose proof (torch_randperm_perm n) as Hp.
  assert (Hl : length (torch_randperm n) = n)
    by (rewrite (Permutation_length Hp); apply length_seq).
  assert (Hnd : NoDup (torch_randperm n))
    by (rewrite Hp; apply NoDup_ListNoDup, List.seq_NoDup).
  split; [unfold indices; rewrite length_take; lia|]. split.
  - rewrite <- (take_drop k (torch_randperm n)) in Hnd.
    apply NoDup_app in Hnd as [Hnd _]. exact Hnd.
  - apply Forall_forall. intros index Hin. apply elem_of_take in Hin as (j & Hin & _).
    apply list_elem_of_lookup_2 in Hin. rewrite Hp in Hin.
    apply elem_of_seq in Hin. lia.
Qed.

Lemma list_of_set_facts (s : gset Z) :
  length (list_of_set s) = size s /\ NoDup (list_of_set s) /\
  forall x, x ∈ list_of_set s <-> x ∈ s.
Proof.
  pose proof (list_of_set_perm s) as Hp. split; [|split].
  - rewrite (Permutation_length Hp). reflexivity.
  - rewrite Hp. apply NoDup_elements.
  - intros x. rewrite Hp. apply elem_of_elements.
Qed.

Lemma prepare_value (basis : Basis) (batch_size : Z) :
  honest_shuffle -> valid_basis basis ->
  let states := list_of_set (representatives basis (number_of_draws batch_size)) in
  0 < batch_size <= Z.of_nat (length states) ->
  _prepare_initial_state basis batch_size
  = inr (map (fun index => row_of (nth index states 0))
           (take (Z.to_nat batch_size) (torch_randperm (length states)))).
Proof.
  intros Hs Hb states Hbatch. unfold _prepare_initial_state.
  destruct (Z.leb_spec batch_size 0); [lia|].
  fold (number_of_draws batch_size). rewrite (draw_states_all basis _ Hs Hb). cbn [bind].
  destruct (list_of_set_facts (representatives basis (number_of_draws batch_size)))
    as (Hlen & _ & _). fold states in Hlen. rewrite <- Hlen.
  destruct (Z.ltb_spec (Z.of_nat (length states)) batch_size); [lia|].
  fold states.
  destruct (randperm_take (length states) (Z.to_nat batch_size) ltac:(lia))
    as (Hil & _ & Hin).
  rewrite fill_rows; [|exact Hin | rewrite Hil, length_replicate; lia].
  rewrite Hil. cbn [take app Nat.add]. rewrite drop_ge by (rewrite length_replicate; lia).
  rewrite app_nil_r. reflexivity.
Qed.

(** X21: when [_prepare_initial_state] returns.  For a basis whose draws
    cannot fail, the call returns exactly when [batch_size] is positive and
    the [max(2 * batch_size, 10000)] draws hit at least [batch_size]
    different representatives; a non-positive [batch_size] raises
    [ValueError] before anything is drawn, too few representatives raise
    [RuntimeError]. *)
Theorem prepare_initial_state_returns_iff (basis : Basis) (batch_size : Z)
    (Hshuffle : honest_shuffle) (Hbasis : valid_basis basis) :
  let found := size (representatives basis (number_of_draws batch_size)) in
  (returns (_prepare_initial_state basis batch_size)
   <-> 0 < batch_size <= Z.of_nat found) /\
  (batch_size <= 0 ->
   _prepare_initial_state basis batch_size
   = inl (ValueError "invalid batch size: {}; expected a positive integer" batch_size)) /\
  (0 < batch_size -> Z.of_nat found < batch_size ->
   _prepare_initial_state basis batch_size
   = inl (RuntimeError "failed to generate enough different spin configurations")).
Proof.
  intros found.
  assert (Hneg : batch_size <= 0 ->
     _prepare_initial_state basis batch_size
     = inl (ValueError "invalid batch size: {}; expected a positive integer" batch_size)).
  { intros H. unfold _prepare_initial_state.
    destruct (Z.leb_spec batch_size 0); [reflexivity | lia]. }
  assert (Hfew : 0 < batch_size -> Z.of_nat found < batch_size ->
     _prepare_initial_state basis batch_size
     = inl (RuntimeError "failed to generate enough different spin configurations")).
  { intros H1 H2. unfold _prepare_initial_state.
    destruct (Z.leb_spec batch_size 0); [lia|].
    fold (number_of_draws batch_size).
    rewrite (draw_states_all basis _ Hshuffle Hbasis). cbn [bind]. fold found.
    destruct (Z.ltb_spec (Z.of_nat found) batch_size); [reflexivity | lia]. }
  split; [|split; assumption]. split.
  - intros [out Hout].
    destruct (Z_le_dec batch_size 0) as [H|H]; [rewrite Hneg in Hout by lia; discriminate|].
    destruct (Z_lt_dec (Z.of_nat found) batch_size) as [H'|H'];
      [rewrite Hfew in Hout by lia; discriminate | lia].
  - intros Hb.
    destruct (list_of_set_facts (representatives basis (number_of_draws batch_size)))
      as (Hlen & _ & _).
    eexists. apply prepare_value; [assumption | assumption |]. rewrite Hlen. exact Hb.
Qed.

Lemma as_int64_range (w : Z) : 0 <= w < 2 ^ 64 -> Words.int64_range (Words.as_int64 w).
Proof.
  intros Hw. unfold Words.as_int64, Words.int64_range.
  destruct (Z.ltb_spec w (2 ^ 63)); lia.
Qed.

Lemma row_of_shape (x : Z) : length (row_of x) = 8%nat /\ Forall Words.int64_range (row_of x).
Proof.
  unfold row_of, Words.to_array. destruct (Words.to_array_shape 8 x) as [Hl Hf].
  split; [rewrite length_map; exact Hl|].
  apply Forall_map. eapply Forall_impl; [exact Hf|]. intros w Hw.
  apply as_int64_range. exact Hw.
Qed.

(** X22: what [_prepare_initial_state] returns.  When enough different
    representatives are drawn, the result has [batch_size] rows of 8
    [int64] words; nothing of the uninitialised tensor is left in it: every
    row is the representative of one of the configurations drawn, written
    by [to_array] (so [_array_to_int] reads the representative back, modulo
    [2^512]); and if the representatives are below [2^512], no two rows are
    equal. *)
Theorem prepare_initial_state_rows (basis : Basis) (batch_size : Z)
    (Hshuffle : honest_shuffle) (Hbasis : valid_basis basis)
    (Hbatch : 0 < batch_size
              <= Z.of_nat (size (representatives basis (number_of_draws batch_size)))) :
  exists out,
    _prepare_initial_state basis batch_size = inr out /\
    length out = Z.to_nat batch_size /\
    Forall (fun row =>
      length row = 8%nat /\ Forall Words.int64_range row /\
      exists i, (i < number_of_draws batch_size)%nat /\
        row = row_of (full_info_0 basis (spin_at basis i)) /\
        LocalValues._array_to_int row
        = full_info_0 basis (spin_at basis i) mod 2 ^ 512) out /\
    ((forall x, 0 <= full_info_0 basis x < 2 ^ 512) ->
     NoDup (map LocalValues._array_to_int out) /\ NoDup out).
Proof.
  set (reps := representatives basis (number_of_draws batch_size)) in *.
  destruct (list_of_set_facts reps) as (Hlen & Hnd & Hmem).
  set (states := list_of_set reps) in *.
  destruct (randperm_take (length states) (Z.to_nat batch_size) ltac:(lia))
    as (Hil & Hind & Hin).
  set (indices := take (Z.to_nat batch_size) (torch_randperm (length states))) in *.
  assert (Hval : _prepare_initial_state basis batch_size
                 = inr (map (fun index => row_of (nth index states 0)) indices)).
  { apply prepare_value; [assumption | assumption |]. fold reps states. lia. }
  assert (Hrep : forall index, (index < length states)%nat ->
            exists i, (i < number_of_draws batch_size)%nat /\
              nth index states 0 = full_info_0 basis (spin_at basis i)).
  { intros index Hindex.
    destruct (nth_lookup_or_length states index 0) as [Hx|Hx]; [|lia].
    apply list_elem_of_lookup_2, Hmem in Hx. unfold reps, representatives in Hx.
    apply elem_of_list_to_set, list_elem_of_fmap in Hx as (i & Hi & Hseq).
    apply elem_of_seq in Hseq. exists i. split; [lia | exact Hi]. }
  exists (map (fun index => row_of (nth index states 0)) indices).
  split; [exact Hval|]. split; [rewrite length_map; exact Hil|]. split.
  - apply Forall_map. eapply Forall_impl; [exact Hin|]. intros index Hindex. cbv beta.
    destruct (row_of_shape (nth index states 0)) as [Hl Hr].
    split; [exact Hl|]. split; [exact Hr|].
    destruct (Hrep index Hindex) as (i & Hi & Heq).
    exists i. split; [exact Hi|]. rewrite Heq. split; [reflexivity|].
    apply Words.round_trip_mod.
  - intros Hsmall.
    assert (Hnd' : NoDup (map LocalValues._array_to_int
                     (map (fun index => row_of (nth index states 0)) indices))).
    { rewrite map_map. apply (NoDup_fmap_2_strong _ indices); [|exact Hind].
      intros i j Hi Hj Heq.
      pose proof (proj1 (Forall_forall _ _) Hin i Hi) as Hi'.
      pose proof (proj1 (Forall_forall _ _) Hin j Hj) as Hj'. cbv beta in Hi', Hj'.
      destruct (Hrep i Hi') as (a & _ & Ha). destruct (Hrep j Hj') as (b & _ & Hb).
      unfold row_of in Heq.
      rewrite !Words.round_trip in Heq by (rewrite ?Ha, ?Hb; apply Hsmall).
      destruct (nth_lookup_or_length states i 0) as [Hxi|Hxi]; [|lia].
      destruct (nth_lookup_or_length states j 0) as [Hxj|Hxj]; [|lia].
      rewrite Heq in Hxi. exact (NoDup_lookup states i j _ Hnd Hxi Hxj). }
    split; [exact Hnd'|].
    apply (NoDup_fmap_1 LocalValues._array_to_int). exact Hnd'.
Qed.

(** X23: the loop of draws runs at least once, whatever the batch size
    (it runs [max(2 * batch_size, 10000)] times), so for a positive
    [batch_size] an error of the first draw is the error of the call; a
    Hamming weight outside [[0, number_spins]] fails the assertion of
    [_random_spin_configuration]. *)
Theorem prepare_initial_state_first_draw (basis : Basis) (batch_size : Z)
    (Hbatch : 0 < batch_size) :
  (forall e, draw basis 0 = inl e -> _prepare_initial_state basis batch_size = inl e) /\
  (forall hw, hamming_weight basis = Some hw -> ~ 0 <= hw <= number_spins basis ->
     _prepare_initial_state basis batch_size
     = inl (AssertionError "invalid hamming weight")).
Proof.
  assert (H : forall e, draw basis 0 = inl e ->
            _prepare_initial_state basis batch_size = inl e).
  { intros e He. unfold _prepare_initial_state.
    destruct (Z.leb_spec batch_size 0); [lia|].
    destruct (Z.to_nat (Z.max (2 * batch_size) 10000)) as [|count] eqn:E; [lia|].
    rewrite (draw_states_first_error basis count ∅ e He). reflexivity. }
  split; [exact H|]. intros hw Hhw Hout. apply H.
  unfold draw, _random_spin_configuration. rewrite Hhw.
  destruct (Z.leb_spec 0 hw), (Z.leb_spec hw (number_spins basis)); try reflexivity. lia.
Qed.

End PrepareInitialState.

Arguments honest_shuffle shuffle_at : clear implicits.


Section Samplers.

(** The element type of the floating-point tensors with the operations
    that [metropolis_process] applies to it and the scalar 2; the state of
    the random generators; [MetropolisKernel(basis)], [torch.rand(n)],
    [basis.norm(states)] and [torch.mean(acceptance).item()]. *)
Variables (F W : Type).
Variables (fmul fdiv fsub : F -> F -> F) (fexp : F -> F) (fzero ftwo : F).
Variables (fgt fle : F -> F -> bool).
Variable MetropolisKernel : Basis -> W -> list (list Z) -> list (list Z) * list F * W.
Variable torch_rand : W -> nat -> list F * W.
Variable basis_norm : Basis -> list (list Z) -> list F.
Variable torch_mean : list PrimFloat.float -> PrimFloat.float.
Variables (junk_state : list Z) (junk_log_prob : F).

(** [t.to(device)] for a CUDA device and a tensor on the CPU: the transfer
    is made or raises, as the installation has it.  And whether
    [MetropolisKernel(basis)] accepts states on a CUDA device or raises. *)
Variable cuda_transfer : nat -> Exn + unit.
Variable kernel_on_cuda : nat -> Exn + unit.

(** What [_prepare_initial_state] draws, and the library calls of
    [sample_exactly]. *)
Variable shuffle_at : nat -> list string -> list string.
Variable entropy_at : nat -> Z.
Variable list_of_set : gset Z -> list Z.
Variable torch_randperm : nat -> list nat.
Variable junk : Z.
Variable forward_with_batches :
  (ExactSampler.Tensor -> ExactSampler.Tensor) -> ExactSampler.PyObject -> Z
  -> Exn + ExactSampler.Tensor.
Variable torch_multinomial : list R -> list Z -> bool -> Exn + list nat.
Variable np_random_choice : nat -> list Z -> bool -> list R -> Exn + list nat.

(** [t.to(device)] of a tensor on the CPU. *)
Definition tensor_to (d : device) : Exn + unit :=
  match d with
  | cpu => ret tt
  | cuda index => cuda_transfer index
  end.

(** An operation on a tensor of the CPU and one of a CUDA device, neither
    of rank 0. *)
Definition device_mismatch : Exn :=
  RuntimeError
    "Expected all tensors to be on the same device, but found at least two devices, {} and cpu!".

(** The first elementary step of [sweep] with the chains on a CUDA device:
    the kernel is called on the current states; [torch.rand(n)] is a
    tensor on the CPU, and [current_norm] is on the device, so
    [torch.rand(n) * proposed_norm / current_norm] mixes the two wherever
    the kernel puts [proposed_norm]. *)
Definition first_step_on_cuda (index : nat) : Exn :=
  match kernel_on_cuda index with
  | inl e => e
  | inr _ => device_mismatch
  end.

(** The number of elementary steps that [metropolis_process] makes. *)
Definition number_of_steps (number_samples number_discarded sweep_size : Z) : nat :=
  (Z.to_nat number_discarded * Z.to_nat sweep_size
   + (Z.to_nat number_samples - 1) * Z.to_nat sweep_size)%nat.

(** [metropolis_process] with the initial state and norm on the device
    [d].  On the CPU it is the sampler of [Metropolis].  On a CUDA device
    the tensors that the function allocates follow the chains
    ([new_empty], [device=current_state.device]) and the copies, the reset
    and the final division stay on the device, so a call that makes no
    step does what it does on the CPU; a call that passes the assertion
    and makes a step does not get beyond the first one. *)
Definition metropolis_process_on (d : device)
    (log_prob_fn : list (list Z) -> list F)
    (kernel_fn : W -> list (list Z) -> list (list Z) * list F * W)
    (initial_state : list (list Z)) (initial_norm : list F) (w : W)
    (number_samples number_discarded sweep_size : Z)
  : Exn + (list (list (list Z)) * list (list F) * list PrimFloat.float * W) :=
  let on_cpu :=
    Metropolis.metropolis_process (list Z) F W fmul fdiv fsub fexp fzero fgt fle
      log_prob_fn kernel_fn torch_rand junk_state junk_log_prob
      initial_state initial_norm w number_samples number_discarded sweep_size in
  match d with
  | cpu => on_cpu
  | cuda index =>
      if (1 <=? number_samples)%Z
         && negb (Nat.eqb (number_of_steps number_samples number_discarded sweep_size) 0)
      then raise (first_step_on_cuda index)
      else on_cpu
  end.

(** [sample_using_metropolis(log_prob_fn, basis, options)]: the states,
    their log-probabilities, [info["acceptance_rate"]], and the state of
    the generators.  [log_prob_fn] accepts states on [options.device]. *)
Definition sample_using_metropolis (log_prob_fn : list (list Z) -> list F)
    (basis : Basis) (options : Options.SamplingOptions) (w : W)
  : Exn + (list (list (list Z)) * list (list F) * PrimFloat.float * W) :=
  (do initial_state <-
     _prepare_initial_state shuffle_at entropy_at list_of_set torch_randperm junk
       basis (Options.number_chains options);
   let initial_norm := basis_norm basis initial_state in
   do _ <- tensor_to (Options.device_of options);
   do _ <- tensor_to (Options.device_of options);
   let kernel_fn := MetropolisKernel basis in
   do r <- metropolis_process_on (Options.device_of options) log_prob_fn kernel_fn
             initial_state initial_norm w
             (Options.number_samples options) (Options.number_discarded options)
             (Options.sweep_size options);
   let '(states, log_probs, acceptance, w') := r in
   ret (states, log_probs, torch_mean acceptance, w'))%exn.

(** A callable that is applied to tensors: [sample_exactly] hands it to
    [forward_with_batches], [metropolis_process] applies it to the batch of
    the current configurations (and squeezes the result). *)
Record Callable : Type := mkCallable {
  on_tensor : ExactSampler.Tensor -> ExactSampler.Tensor;
  on_batch : list (list Z) -> list F
}.

(** The closure [log_prob_fn] of [sample_some]: [x = log_psi(x); x *= 2]. *)
Definition twice (log_psi : Callable) : Callable :=
  mkCallable
    (fun x => let y := on_tensor log_psi x in
              ExactSampler.mkTensor (ExactSampler.shape y)
                (map (fun v => (v * 2)%R) (ExactSampler.values y)) (ExactSampler.dev y))
    (fun x => map (fun v => fmul v ftwo) (on_batch log_psi x)).

(** The triple that [sample_some] returns; [None] is the third component
    of the exact sampler's. *)
Inductive Samples : Type :=
| ExactSamples (states : list (list (list Z))) (log_prob : list (list R))
| MetropolisSamples (states : list (list (list Z))) (log_probs : list (list F))
    (acceptance_rate : PrimFloat.float).

(** [sample_some(log_psi, basis, options, mode, is_log_prob_fn)].  The
    arguments that the source formats into the message of [ValueError] (the
    mode and the set of names) are left out. *)
Definition sample_some (log_psi : Callable) (basis : Basis)
    (options : Options.SamplingOptions) (mode : string) (is_log_prob_fn : bool) (w : W)
  : Exn + (Samples * W) :=
  let log_prob_fn := if is_log_prob_fn then log_psi else twice log_psi in
  if String.eqb mode "exact" then
    (do r <- ExactSampler.sample_exactly forward_with_batches torch_multinomial
               np_random_choice (on_tensor log_prob_fn) (basis_states basis) options;
     ret (ExactSamples r.1 r.2, w))%exn
  else if String.eqb mode "metropolis" then
    (do r <- sample_using_metropolis (on_batch log_prob_fn) basis options w;
     let '(states, log_probs, acceptance_rate, w') := r in
     ret (MetropolisSamples states log_probs acceptance_rate, w'))%exn
  else raise (ValueError "invalid mode: {!r}; must be one of {}" 0).



(** [Runner.monte_carlo] of [swo.py], up to and including its call of
    [sample_some]: the closure [log_prob_fn] of the method doubles the
    output of the amplitude network, and the call leaves [is_log_prob_fn]
    at its default, [False]. *)
Definition monte_carlo_sample (amplitude : Callable) (basis : Basis)
    (options : Options.SamplingOptions) (method : string) (w : W)
  : Exn + (Samples * W) :=
  let log_prob_fn := twice amplitude in
  sample_some log_prob_fn basis options method false w.

(** X26: [Runner.monte_carlo] doubles twice.  Its closure already returns
    twice the log-amplitude, and [sample_some], called without
    [is_log_prob_fn], doubles that again: with method ["metropolis"] the
    chains run on the log-probability [4 * amplitude(x)], where a direct
    call of [sample_some] on the amplitude network runs them on
    [2 * amplitude(x)]; with method ["exact"] the method raises
    [NameError]. *)
Theorem monte_carlo_doubles_twice (amplitude : Callable) (basis : Basis)
    (options : Options.SamplingOptions) (w : W) :
  let wrap := fun r : list (list (list Z)) * list (list F) * PrimFloat.float * W =>
    let '(states, log_probs, acceptance_rate, w') := r in
    (MetropolisSamples states log_probs acceptance_rate, w') in
  let doubled := fun xs => map (fun v => fmul v ftwo) (on_batch amplitude xs) in
  let quadrupled := fun xs => map (fun v => fmul v ftwo) (doubled xs) in
  (forall xs, quadrupled xs = map (fun v => fmul (fmul v ftwo) ftwo) (on_batch amplitude xs)) /\
  monte_carlo_sample amplitude basis options "metropolis" w
  = (do r <- sample_using_metropolis quadrupled basis options w; ret (wrap r))%exn /\
  sample_some amplitude basis options "metropolis" false w
  = (do r <- sample_using_metropolis doubled basis options w; ret (wrap r))%exn /\
  monte_carlo_sample amplitude basis options "exact" w = inl (NameError "xs").
Proof.
  intros wrap doubled quadrupled. split; [|split; [|split]].
  - intros xs. unfold quadrupled, doubled. apply map_map.
  - unfold monte_carlo_sample, sample_some. cbn [String.eqb Ascii.eqb Bool.eqb].
    change (on_batch (twice (twice amplitude))) with quadrupled.
    destruct (sample_using_metropolis quadrupled basis options w) as [e|[[[st lp] a] w']];
      reflexivity.
  - unfold sample_some. cbn [String.eqb Ascii.eqb Bool.eqb].
    change (on_batch (twice amplitude)) with doubled.
    destruct (sample_using_metropolis doubled basis options w) as [e|[[[st lp] a] w']];
      reflexivity.
  - unfold monte_carlo_sample, sample_some. cbn [String.eqb Ascii.eqb Bool.eqb].
    unfold ExactSampler.sample_exactly.
    change (ExactSampler.load_global "xs") with (@inl Exn ExactSampler.PyObject (NameError "xs")).
    reflexivity.
Qed.

Hypothesis list_of_set_perm : forall s, Permutation (list_of_set s) (elements s).
Hypothesis torch_randperm_perm : forall n, Permutation (torch_randperm n) (seq 0 n).
Hypothesis MetropolisKernel_shape : forall basis w xs,
  length (MetropolisKernel basis w xs).1.1 = length xs /\
  length (MetropolisKernel basis w xs).1.2 = length xs.
Hypothesis torch_rand_shape : forall w n, length (torch_rand w n).1 = n.
Hypothesis basis_norm_shape : forall basis xs, length (basis_norm basis xs) = length xs.


End Samplers.

(** A sampler on [three_spins] with rational arithmetic: the kernel
    proposes the current configurations with norm 1, every configuration
    has log-probability 0, and the generators are those of the small
    sampler above. *)
Definition still_kernel (basis : Basis) (w : nat) (xs : list (list Z))
  : list (list Z) * list Q * nat :=
  (xs, map (fun _ => 1%Q) xs, S w).
Definition unit_norm (basis : Basis) (xs : list (list Z)) : list Q :=
  map (fun _ => 1%Q) xs.
Definition flat_log_prob (xs : list (list Z)) : list Q := map (fun _ => 0%Q) xs.
Definition float_mean (l : list PrimFloat.float) : PrimFloat.float :=
  PrimFloat.div (fold_right PrimFloat.add PrimFloat.zero l)
    (Metropolis.to_double (Z.of_nat (length l))).

(** A chain of three spins without a fixed Hamming weight and without
    symmetries (every configuration is its own representative); the [i]-th
    draw has entropy [i], so the draws are [i mod 5]. *)
Definition three_spins : Basis := mkBasis 3 None (fun x => x) [0; 1; 2; 3; 4; 5; 6; 7].
Definition no_shuffle (i : nat) (l : list string) : list string := l.

Lemma no_shuffle_honest : honest_shuffle no_shuffle.
Proof. intros i l. reflexivity. Qed.

Lemma three_spins_valid : valid_basis three_spins.
Proof. split; [cbn; lia | exact I]. Qed.

Lemma three_spins_found :
  size (representatives no_shuffle Z.of_nat three_spins (number_of_draws 2)) = 5%nat.
Proof. vm_compute. reflexivity. Qed.

Lemma prepare_initial_state_returns_iff_witness :
  let found := size (representatives no_shuffle Z.of_nat three_spins (number_of_draws 2)) in
  (returns (_prepare_initial_state no_shuffle Z.of_nat elements (seq 0) 0 three_spins 2)
   <-> 0 < 2 <= Z.of_nat found) /\
  (2 <= 0 ->
   _prepare_initial_state no_shuffle Z.of_nat elements (seq 0) 0 three_spins 2
   = inl (ValueError "invalid batch size: {}; expected a positive integer" 2)) /\
  (0 < 2 -> Z.of_nat found < 2 ->
   _prepare_initial_state no_shuffle Z.of_nat elements (seq 0) 0 three_spins 2
   = inl (RuntimeError "failed to generate enough different spin configurations")).
Proof.
  apply (prepare_initial_state_returns_iff no_shuffle Z.of_nat elements (seq 0) 0).
  - intros s. reflexivity.
  - intros n. reflexivity.
  - exact no_shuffle_honest.
  - exact three_spins_valid.
Defined.

Lemma prepare_initial_state_rows_witness :
  exists out,
    _prepare_initial_state no_shuffle Z.of_nat elements (seq 0) 0 three_spins 2 = inr out /\
    length out = Z.to_nat 2 /\
    Forall (fun row =>
      length row = 8%nat /\ Forall Words.int64_range row /\
      exists i, (i < number_of_draws 2)%nat /\
        row = row_of (full_info_0 three_spins (spin_at no_shuffle Z.of_nat three_spins i)) /\
        LocalValues._array_to_int row
        = full_info_0 three_spins (spin_at no_shuffle Z.of_nat three_spins i) mod 2 ^ 512)
      out /\
    ((forall x, 0 <= full_info_0 three_spins x < 2 ^ 512) ->
     NoDup (map LocalValues._array_to_int out) /\ NoDup out).
Proof.
  apply (prepare_initial_state_rows no_shuffle Z.of_nat elements (seq 0) 0).
  - intros s. reflexivity.
  - intros n. reflexivity.
  - exact no_shuffle_honest.
  - exact three_spins_valid.
  - rewrite three_spins_found. lia.
Defined.

Lemma prepare_initial_state_first_draw_witness :
  (forall e, draw no_shuffle Z.of_nat (mkBasis 3 (Some 4) (fun x => x) []) 0 = inl e ->
     _prepare_initial_state no_shuffle Z.of_nat elements (seq 0) 0
       (mkBasis 3 (Some 4) (fun x => x) []) 1 = inl e) /\
  (forall hw, Some 4 = Some hw -> ~ 0 <= hw <= 3 ->
     _prepare_initial_state no_shuffle Z.of_nat elements (seq 0) 0
       (mkBasis 3 (Some 4) (fun x => x) []) 1
     = inl (AssertionError "invalid hamming weight")).
Proof.
  apply (prepare_initial_state_first_draw no_shuffle Z.of_nat elements (seq 0) 0
           (mkBasis 3 (Some 4) (fun x => x) []) 1).
  lia.
Defined.


(** The same sampler with the options on a CUDA device whose transfers
    succeed and whose kernel accepts states on the device: the first step
    raises. *)
Example sample_using_metropolis_on_cuda :
  Options.init 3 2 None 1 (cuda 0) = inr (Options.mkSamplingOptions 3 2 0 1 (cuda 0)) /\
  sample_using_metropolis Q nat Qmult Qdiv Qminus Metropolis.toy_exp 0%Q
    Metropolis.toy_gt Qle_bool still_kernel Metropolis.toy_rand unit_norm float_mean
    (replicate 8 0) 0%Q (fun _ => inr tt) (fun _ => inr tt)
    no_shuffle Z.of_nat elements (seq 0) 0
    flat_log_prob three_spins (Options.mkSamplingOptions 3 2 0 1 (cuda 0)) 0%nat
  = inl device_mismatch.
Proof. split; [reflexivity | vm_compute; reflexivity]. Qed.

End Sampling.

(** ** [swo.py]: [_safe_real_exp] *)

Module SafeRealExp.

Import SafeExp.

Local Open Scope R_scope.

(** [torch.round]: to the nearest integer, halves to the even one. *)
Definition round_half_even (x : R) : Z :=
  let f := Zfloor x in
  let d := x - IZR f in
  if Rlt_dec d (1 / 2) then f
  else if Rlt_dec (1 / 2) d then (f + 1)%Z
  else if Z.even f then f else (f + 1)%Z.

(** [torch.norm(x)], the 2-norm. *)
Definition torch_norm (x : list R) : R := sqrt (torch_sum (map (fun v => v * v) x)).

(** The literal [3.141592653589793]. *)
Definition pi_literal : R := 3141592653589793 / 1000000000000000.

(** [_safe_real_exp(values, normalise)] on a tensor of shape [(n, 2)],
    given by its rows, in exact real arithmetic.  [amplitude] and [phase]
    are views of the two columns and every operation on them is in place,
    so the call overwrites its argument: the second component of the
    result is the content of [values] when the call returns.  The phases
    are integers from [torch.round_] on. *)
Definition _safe_real_exp (values : list (R * R)) (normalise : bool)
  : Exn + (list R * list (R * R)) :=
  let amplitude := map fst values in
  (do m <- torch_max amplitude;
   let amplitude := map (fun v => v - m) amplitude in
   let amplitude := map exp amplitude in
   let amplitude :=
     if normalise then map (fun v => v / torch_norm amplitude) amplitude
     else amplitude in
   let phase := map snd values in
   let phase := map (fun v => v / pi_literal) phase in
   let phase := map round_half_even phase in
   let phase := map Z.abs phase in
   let phase := map (fun k => Z.rem k 2) phase in
   ret (zip_with (fun a k => a * (1 - 2 * IZR k)) amplitude phase,
        zip amplitude (map IZR phase)))%exn.

(** The sign that the phase [v] of a row stands for. *)
Definition sign_of (v : R) : R :=
  if Z.even (round_half_even (v / pi_literal)) then 1 else -1.

Lemma parity_bit (k : Z) : Z.rem (Z.abs k) 2 = if Z.even k then 0%Z else 1%Z.
Proof.
  rewrite Z.rem_mod_nonneg by lia. rewrite Zmod_even.
  destruct k; reflexivity.
Qed.

Lemma sign_factor (k : Z) :
  1 - 2 * IZR (Z.rem (Z.abs k) 2) = if Z.even k then 1 else -1.
Proof. rewrite parity_bit. destruct (Z.even k); simpl; lra. Qed.

Lemma exp_entries (h : R) (t : list R) :
  let m := fold_left Rmax t h in
  let e := map exp (map (fun v => v - m) (h :: t)) in
  Forall (fun v => 0 < v <= 1) e /\ In 1 e.
Proof.
  intros m e. split.
  - unfold e. rewrite map_map. apply Forall_map, Forall_forall. intros v Hv.
    apply list_elem_of_In in Hv. cbv beta.
    pose proof (SafeExpFacts.fold_Rmax_upper t h v Hv). fold m in H.
    split; [apply exp_pos | apply SafeExpFacts.exp_le_1; lra].
  - unfold e. rewrite map_map. apply in_map_iff. exists m.
    split; [replace (m - m) with 0 by ring; apply exp_0|].
    apply SafeExpFacts.fold_Rmax_in.
Qed.

Lemma sum_squares_pos (e : list R) :
  Forall (fun v => 0 < v <= 1) e -> In 1 e -> 1 <= torch_sum (map (fun v => v * v) e).
Proof.
  induction e as [|a e IH]; intros Hf Hin; [destruct Hin|].
  apply Forall_cons in Hf as [Ha Hf]. cbn [map torch_sum fold_right].
  assert (Hnn : 0 <= torch_sum (map (fun v => v * v) e)).
  { clear -Hf. induction e as [|b e IH]; [simpl; lra|].
    apply Forall_cons in Hf as [Hb Hf]. cbn [map torch_sum fold_right].
    specialize (IH Hf). unfold torch_sum in IH. nra. }
  unfold torch_sum in *. destruct Hin as [-> | Hin]; [lra|].
  specialize (IH Hf Hin). nra.
Qed.

Lemma sum_squares_scaled (s : R) (e : list R) :
  torch_sum (map (fun v => v * v) (map (fun v => v / s) e))
  = torch_sum (map (fun v => v * v) e) / (s * s).
Proof.
  destruct (Req_dec s 0) as [-> | Hs].
  - rewrite Rmult_0_l. unfold Rdiv. rewrite Rinv_0.
    induction e as [|a e IH]; cbn [map torch_sum fold_right]; [ring|].
    unfold torch_sum in IH. rewrite IH. ring.
  - induction e as [|a e IH]; cbn [map torch_sum fold_right]; [field; exact Hs|].
    unfold torch_sum in IH. rewrite IH. field. exact Hs.
Qed.

Lemma signed_squares (a : list R) : forall (k : list Z),
  length k = length a ->
  map (fun v => v * v) (zip_with (fun a k => a * (1 - 2 * IZR k)) a (map (fun k => Z.rem (Z.abs k) 2) k))
  = map (fun v => v * v) a.
Proof.
  induction a as [|x a IH]; intros [|j k] Hl; try discriminate; [reflexivity|].
  cbn [map zip_with]. rewrite IH by (simpl in Hl; lia). f_equal.
  rewrite sign_factor. destruct (Z.even j); ring.
Qed.

(** X27: [_safe_real_exp] on a tensor with at least one row.  Entry [i] of
    the result is a positive amplitude times the sign that row [i]'s phase
    stands for: [+1] when [phase / 3.141592653589793] rounds to an even
    integer and [-1] when it rounds to an odd one; the amplitudes are
    [exp(re - max re)], divided by their 2-norm when [normalise] is set.
    So without [normalise] every entry has modulus in (0, 1] and one has
    modulus 1, and with [normalise] the squares of the entries sum to 1.
    The call overwrites its argument: afterwards the first column holds
    the amplitudes and the second the parities 0 and 1.  On a tensor
    without rows [torch.max] raises. *)
Theorem safe_real_exp_signed_amplitudes (values : list (R * R)) (normalise : bool)
    (Hvalues : values <> []) :
  (exists m result values',
    torch_max (map fst values) = inr m /\
    _safe_real_exp values normalise = inr (result, values') /\
    let scale := if normalise
                 then torch_norm (map (fun v => exp (fst v - m)) values) else 1 in
    0 < scale /\
    result = map (fun v => exp (fst v - m) / scale * sign_of (snd v)) values /\
    values' = map (fun v => (exp (fst v - m) / scale,
                             if Z.even (round_half_even (snd v / pi_literal))
                             then 0 else 1)) values /\
    (normalise = false ->
     Forall (fun r => 0 < Rabs r <= 1) result /\ Exists (fun r => Rabs r = 1) result) /\
    (normalise = true -> torch_sum (map (fun r => r * r) result) = 1)) /\
  raises (_safe_real_exp [] normalise).
Proof.
  split; [|eexists; reflexivity].
  destruct values as [|[h hp] t]; [congruence|]. clear Hvalues.
  set (values := (h, hp) :: t).
  set (m := fold_left Rmax (map fst t) h).
  destruct (exp_entries h (map fst t)) as [Hrange Hone]. fold m in Hrange, Hone.
  set (e := map exp (map (fun v => v - m) (h :: map fst t))) in *.
  assert (He : e = map (fun v => exp (fst v - m)) values)
    by (unfold e, values; cbn [map fst]; f_equal; rewrite !map_map; reflexivity).
  pose proof (sum_squares_pos e Hrange Hone) as Hsq.
  assert (Hnorm : 0 < torch_norm e)
    by (unfold torch_norm; apply sqrt_lt_R0; lra).
  set (scale := if normalise then torch_norm e else 1).
  assert (Hscale : 0 < scale) by (unfold scale; destruct normalise; [exact Hnorm | lra]).
  set (a := map (fun v => v / scale) e).
  assert (Ha : (if normalise then map (fun v => v / torch_norm e) e else e) = a).
  { unfold a, scale. destruct normalise; [reflexivity|].
    rewrite <- (map_id e) at 1. apply map_ext. intros v. field. }
  set (ks := map round_half_even (map (fun v => v / pi_literal) (map snd values))).
  assert (Hrun : _safe_real_exp values normalise
                 = inr (zip_with (fun a k => a * (1 - 2 * IZR k)) a
                          (map (fun k => Z.rem k 2) (map Z.abs ks)),
                        zip a (map IZR (map (fun k => Z.rem k 2) (map Z.abs ks))))).
  { unfold _safe_real_exp. change (torch_max (map fst values)) with (@inr Exn R m).
    cbn [bind]. change (map fst values) with (h :: map fst t). fold e.
    rewrite Ha. reflexivity. }
  assert (Hresult : zip_with (fun a k => a * (1 - 2 * IZR k)) a
                      (map (fun k => Z.rem k 2) (map Z.abs ks))
                    = map (fun v => exp (fst v - m) / scale * sign_of (snd v)) values).
  { unfold a, ks. rewrite He. clear. induction values as [|v l IH]; [reflexivity|].
    cbn [map zip_with]. rewrite IH. f_equal. rewrite sign_factor. reflexivity. }
  assert (Hvalues' : zip a (map IZR (map (fun k => Z.rem k 2) (map Z.abs ks)))
                     = map (fun v => (exp (fst v - m) / scale,
                                      if Z.even (round_half_even (snd v / pi_literal))
                                      then 0 else 1)) values).
  { unfold a, ks. rewrite He. clear. induction values as [|v l IH]; [reflexivity|].
    cbn [map zip_with]. rewrite IH. f_equal. f_equal.
    rewrite parity_bit. destruct (Z.even _); reflexivity. }
  exists m, (map (fun v => exp (fst v - m) / scale * sign_of (snd v)) values),
    (map (fun v => (exp (fst v - m) / scale,
                    if Z.even (round_half_even (snd v / pi_literal)) then 0 else 1)) values).
  split; [reflexivity|]. split; [rewrite Hrun, Hresult, Hvalues'; reflexivity|].
  rewrite <- He. fold scale. cbv zeta.
  split; [exact Hscale|]. split; [reflexivity|]. split; [reflexivity|].
  assert (Hsign : forall v, Rabs (sign_of v) = 1)
    by (intros v; unfold sign_of; destruct (Z.even _);
        [apply Rabs_R1 | unfold Rabs; destruct (Rcase_abs (-1)); lra]).
  split.
  - intros ->. unfold scale. rewrite He in Hrange, Hone. split.
    + apply Forall_map. rewrite Forall_map in Hrange.
      eapply Forall_impl; [exact Hrange|]. intros v Hv. cbv beta in *.
      rewrite Rabs_mult, Hsign, Rmult_1_r.
      replace (exp (fst v - m) / 1) with (exp (fst v - m)) by field.
      rewrite Rabs_pos_eq by lra. exact Hv.
    + apply in_map_iff in Hone as (v & Hv & Hin).
      apply Exists_exists. exists (exp (fst v - m) / 1 * sign_of (snd v)). split.
      * apply list_elem_of_In, in_map_iff. exists v. split; [reflexivity | exact Hin].
      * rewrite Rabs_mult, Hsign, Rmult_1_r, Hv.
        replace (1 / 1) with 1 by field. apply Rabs_R1.
  - intros ->. rewrite <- Hresult. rewrite (map_map Z.abs).
    rewrite signed_squares
      by (unfold a, ks; rewrite !length_map, He, length_map; reflexivity).
    unfold a. rewrite sum_squares_scaled.
    unfold scale, torch_norm. rewrite sqrt_sqrt by lra. field. lra.
Qed.

Lemma safe_real_exp_signed_amplitudes_witness :
  (exists m result values',
    torch_max (map fst [(0, 0); (1, 3)]) = inr m /\
    _safe_real_exp [(0, 0); (1, 3)] true = inr (result, values') /\
    let scale := if true
                 then torch_norm (map (fun v => exp (fst v - m)) [(0, 0); (1, 3)]) else 1 in
    0 < scale /\
    result = map (fun v => exp (fst v - m) / scale * sign_of (snd v)) [(0, 0); (1, 3)] /\
    values' = map (fun v => (exp (fst v - m) / scale,
                             if Z.even (round_half_even (snd v / pi_literal))
                             then 0 else 1)) [(0, 0); (1, 3)] /\
    (true = false ->
     Forall (fun r => 0 < Rabs r <= 1) result /\ Exists (fun r => Rabs r = 1) result) /\
    (true = true -> torch_sum (map (fun r => r * r) result) = 1)) /\
  raises (_safe_real_exp [] true).
Proof. apply (safe_real_exp_signed_amplitudes [(0, 0); (1, 3)] true). discriminate. Defined.

End SafeRealExp.

(** ** [swo.py]: [overlap_loss_fn] *)

Module OverlapLoss.

Import SafeExp ExactSampler.

Local Open Scope R_scope.

(** The shape of [a * b] under broadcasting, on the reversed shapes. *)
Fixpoint broadcast_rev (a b : list nat) : option (list nat) :=
  match a, b with
  | [], _ => Some b
  | _, [] => Some a
  | x :: a', y :: b' =>
      match broadcast_rev a' b' with
      | None => None
      | Some s =>
          if Nat.eqb x y then Some (x :: s)
          else if Nat.eqb x 1 then Some (y :: s)
          else if Nat.eqb y 1 then Some (x :: s)
          else None
      end
  end.

Definition broadcast_shapes (a b : list nat) : Exn + list nat :=
  match broadcast_rev (rev a) (rev b) with
  | Some s => ret (rev s)
  | None => raise (RuntimeError
      "The size of tensor a ({}) must match the size of tensor b ({}) at non-singleton dimension {}")
  end.

(** The checks of [torch.dot(a, b)]. *)
Definition check_dot (a b : Tensor) : Exn + unit :=
  if negb (Nat.eqb (dim a) 1 && Nat.eqb (dim b) 1) then
    raise (RuntimeError "1D tensors expected, but got {}D and {}D tensors")
  else if negb (Nat.eqb (length (values a)) (length (values b))) then
    raise (RuntimeError
      "inconsistent tensor size, expected tensor [{}] and src [{}] to have the same number of elements, but got {} and {} elements respectively")
  else ret tt.

Definition dot (a b : list R) : R := torch_sum (zip_with Rmult a b).
Definition square (a : list R) : list R := map (fun v => v * v) a.
Definition nonneg (a : list R) : bool :=
  forallb (fun v => if Rle_dec 0 v then true else false) a.

Section Loss.

(** What a failed [assert] raises in a function compiled by
    [torch.jit.script]. *)
Variable assertion_failure : Exn.

(** [overlap_loss_fn(predicted, expected, weights)], in exact real
    arithmetic; the result is [None] when the quotient is not a finite
    number (a norm is 0).  The entries of the products are only needed
    when the three squeezed tensors are one-dimensional of one length:
    otherwise one of the two [torch.dot] rejects its arguments. *)
Definition overlap_loss_fn (predicted expected weights : Tensor) : Exn + option R :=
  if negb (nonneg (values predicted) && nonneg (values expected)) then
    raise assertion_failure
  else
    let predicted := squeeze predicted in
    let expected := squeeze expected in
    let weights := squeeze weights in
    (do s <- broadcast_shapes (shape weights) (shape predicted);
     do _ <- broadcast_shapes s (shape expected);
     do _ <- check_dot weights predicted;
     do _ <- check_dot weights expected;
     let dot_ :=
       torch_sum (zip_with Rmult (zip_with Rmult (values weights) (values predicted))
                    (values expected)) in
     let norm_predicted := dot (values weights) (square (values predicted)) in
     let norm_expected := dot (values weights) (square (values expected)) in
     ret (if Req_dec_T norm_predicted 0 then None
          else if Req_dec_T norm_expected 0 then None
          else Some (1 - dot_ * dot_ / norm_predicted / norm_expected)))%exn.

End Loss.

(** A tensor of rank one. *)
Definition vector (x : list R) : Tensor := mkTensor [length x] x cpu.

(** The weighted sums of the loss. *)
Definition wsum (w p e : list R) : R :=
  torch_sum (zip_with Rmult (zip_with Rmult w p) e).

Lemma dot_square_wsum : forall (w p : list R), dot w (square p) = wsum w p p.
Proof.
  unfold dot, square, wsum.
  induction w as [|a w IH]; intros [|b p]; try reflexivity.
  cbn [map zip_with torch_sum fold_right]. unfold torch_sum in IH. rewrite IH. ring.
Qed.

(** [sum w (p t - e)^2 >= 0], expanded. *)
Lemma quadratic_nonneg : forall (w p e : list R) (t : R),
  length p = length w -> length e = length w -> Forall (fun v => 0 <= v) w ->
  0 <= wsum w p p * (t * t) - 2 * wsum w p e * t + wsum w e e.
Proof.
  unfold wsum.
  induction w as [|a w IH]; intros [|b p] [|c e] t Hp He Hw; try discriminate.
  - simpl. lra.
  - apply Forall_cons in Hw as [Ha Hw]. cbn [zip_with torch_sum fold_right].
    specialize (IH p e t ltac:(simpl in Hp; lia) ltac:(simpl in He; lia) Hw).
    unfold torch_sum in IH.
    assert (Hsq : 0 <= a * ((b * t - c) * (b * t - c)))
      by (apply Rmult_le_pos; [exact Ha | apply Rle_0_sqr]).
    set (S1 := fold_right Rplus 0 (zip_with Rmult (zip_with Rmult w p) p)) in *.
    set (S2 := fold_right Rplus 0 (zip_with Rmult (zip_with Rmult w p) e)) in *.
    set (S3 := fold_right Rplus 0 (zip_with Rmult (zip_with Rmult w e) e)) in *.
    match goal with
    | |- 0 <= ?g =>
        replace g with ((S1 * (t * t) - 2 * S2 * t + S3) + a * ((b * t - c) * (b * t - c)))
          by ring
    end.
    lra.
Qed.

Lemma wsum_nonneg (w p : list R) :
  length p = length w -> Forall (fun v => 0 <= v) w -> 0 <= wsum w p p.
Proof.
  intros Hp Hw. pose proof (quadratic_nonneg w p p 0 Hp Hp Hw). lra.
Qed.

(** Cauchy-Schwarz for the weighted sums. *)
Lemma cauchy_schwarz (w p e : list R) :
  length p = length w -> length e = length w -> Forall (fun v => 0 <= v) w ->
  wsum w p e * wsum w p e <= wsum w p p * wsum w e e.
Proof.
  intros Hp He Hw.
  pose proof (wsum_nonneg w p Hp Hw) as HA. pose proof (wsum_nonneg w e He Hw) as HC.
  set (A := wsum w p p) in *. set (B := wsum w p e). set (C := wsum w e e) in *.
  assert (Hq : forall t, 0 <= A * (t * t) - 2 * B * t + C)
    by (intros t; apply quadratic_nonneg; assumption).
  destruct (Req_dec A 0) as [HA0 | HA0].
  - rewrite HA0 in *. rewrite Rmult_0_l.
    destruct (Req_dec B 0) as [-> | HB]; [lra|].
    pose proof (Hq ((C + 1) / (2 * B))) as H1.
    replace (0 * ((C + 1) / (2 * B) * ((C + 1) / (2 * B))) - 2 * B * ((C + 1) / (2 * B)) + C)
      with (- 1) in H1 by (field; exact HB). lra.
  - assert (HApos : 0 < A) by lra.
    pose proof (Hq (B / A)) as H1.
    replace (A * (B / A * (B / A)) - 2 * B * (B / A) + C)
      with ((A * C - B * B) / A) in H1 by (field; lra).
    assert (Heq : A * C - B * B = (A * C - B * B) / A * A) by (field; lra).
    assert (0 <= A * C - B * B)
      by (rewrite Heq; apply Rmult_le_pos; [exact H1 | lra]).
    lra.
Qed.

Lemma wsum_scale_l (c : R) : forall (w p e : list R),
  wsum w (map (fun v => c * v) p) e = c * wsum w p e.
Proof.
  unfold wsum.
  induction w as [|a w IH]; intros [|b p] [|d e]; cbn [map zip_with torch_sum fold_right];
    try ring.
  unfold torch_sum in IH. rewrite IH. ring.
Qed.

Lemma wsum_scale_both (c : R) : forall (w p : list R),
  wsum w (map (fun v => c * v) p) (map (fun v => c * v) p) = c * c * wsum w p p.
Proof.
  unfold wsum.
  induction w as [|a w IH]; intros [|b p]; cbn [map zip_with torch_sum fold_right];
    try ring.
  unfold torch_sum in IH. rewrite IH. ring.
Qed.

Lemma nonneg_true (a : list R) : Forall (fun v => 0 <= v) a -> nonneg a = true.
Proof.
  intros Ha. unfold nonneg. apply forallb_forall. intros v Hv.
  apply list_elem_of_In in Hv. pose proof (proj1 (Forall_forall _ _) Ha v Hv) as H.
  cbv beta in H. destruct (Rle_dec 0 v); [reflexivity | contradiction].
Qed.

Lemma nonneg_false (a : list R) : Exists (fun v => v < 0) a -> nonneg a = false.
Proof.
  intros Ha. unfold nonneg. apply Exists_exists in Ha as (v & Hv & Hneg).
  apply list_elem_of_In in Hv.
  destruct (forallb _ a) eqn:E; [|reflexivity].
  pose proof (proj1 (forallb_forall _ a) E v Hv) as H. cbv beta in H.
  destruct (Rle_dec 0 v); [lra | discriminate].
Qed.

Lemma squeeze_vector (x : list R) :
  length x <> 1%nat -> squeeze (vector x) = vector x.
Proof.
  intros Hx. unfold squeeze, vector. cbn [shape values dev].
  rewrite filter_cons, filter_nil.
  destruct (decide _) as [_|Hd]; [reflexivity|].
  exfalso. apply Hd. destruct (Nat.eqb_spec (length x) 1); [contradiction | exact I].
Qed.

Lemma squeeze_single (x : list R) :
  length x = 1%nat -> squeeze (vector x) = mkTensor [] x cpu.
Proof.
  intros Hx. unfold squeeze, vector. cbn [shape values dev].
  rewrite filter_cons, filter_nil, Hx.
  destruct (decide _) as [Hd|_]; [|reflexivity].
  exfalso. exact Hd.
Qed.

(** The loss on three vectors of one length other than 1. *)
Lemma loss_on_vectors (err : Exn) (p e w : list R) :
  length p = length w -> length e = length w -> length w <> 1%nat ->
  Forall (fun v => 0 <= v) p -> Forall (fun v => 0 <= v) e ->
  wsum w p p <> 0 -> wsum w e e <> 0 ->
  overlap_loss_fn err (vector p) (vector e) (vector w)
  = inr (Some (1 - wsum w p e * wsum w p e / wsum w p p / wsum w e e)).
Proof.
  intros Hp He Hn Hpn Hen HA HC. unfold overlap_loss_fn.
  cbn [values vector]. rewrite (nonneg_true p Hpn), (nonneg_true e Hen). cbn [andb negb].
  rewrite !squeeze_vector by lia.
  unfold vector at 1 2 3. cbn [shape]. rewrite Hp, He.
  unfold broadcast_shapes. cbn [rev app broadcast_rev]. rewrite Nat.eqb_refl.
  cbn [bind ret rev app broadcast_rev]. rewrite Nat.eqb_refl. cbn [bind ret].
  unfold check_dot, dim, vector. cbn [shape values length Nat.eqb andb negb].
  rewrite Hp, He, Nat.eqb_refl. cbn [negb bind ret].
  rewrite !dot_square_wsum. fold (wsum w p e).
  destruct (Req_dec_T (wsum w p p) 0); [contradiction|].
  destruct (Req_dec_T (wsum w e e) 0); [contradiction|]. reflexivity.
Qed.

(** X28: [overlap_loss_fn] on vectors of one length (other than 1) with
    non-negative entries, non-negative weights and non-zero weighted
    norms.  The loss is [1 - (sum w p e)^2 / (sum w p^2) / (sum w e^2)],
    it lies in [[0, 1]] (Cauchy-Schwarz), it does not change when the
    prediction is multiplied by a positive constant, and it is 0 when the
    prediction is the expected vector. *)
Theorem overlap_loss_range (err : Exn) (p e w : list R)
    (Hp : length p = length w) (He : length e = length w)
    (Hn : length w <> 1%nat)
    (Hpn : Forall (fun v => 0 <= v) p) (Hen : Forall (fun v => 0 <= v) e)
    (Hw : Forall (fun v => 0 <= v) w)
    (HA : wsum w p p <> 0) (HC : wsum w e e <> 0) :
  exists loss,
    overlap_loss_fn err (vector p) (vector e) (vector w) = inr (Some loss) /\
    loss = 1 - wsum w p e * wsum w p e / wsum w p p / wsum w e e /\
    0 <= loss <= 1 /\
    (forall c, 0 < c ->
       overlap_loss_fn err (vector (map (fun v => c * v) p)) (vector e) (vector w)
       = inr (Some loss)) /\
    overlap_loss_fn err (vector p) (vector p) (vector w) = inr (Some 0).
Proof.
  pose proof (wsum_nonneg w p Hp Hw) as HA0. pose proof (wsum_nonneg w e He Hw) as HC0.
  pose proof (cauchy_schwarz w p e Hp He Hw) as Hcs.
  set (A := wsum w p p) in *. set (B := wsum w p e) in *. set (C := wsum w e e) in *.
  assert (HApos : 0 < A) by lra. assert (HCpos : 0 < C) by lra.
  exists (1 - B * B / A / C).
  split; [apply loss_on_vectors; assumption|]. split; [reflexivity|]. split; [|split].
  - assert (Hq : 0 <= B * B / A / C <= 1).
    { replace (B * B / A / C) with (B * B / (A * C)) by (field; lra).
      assert (0 < A * C) by (apply Rmult_lt_0_compat; assumption).
      split.
      - apply Rmult_le_pos; [nra | left; apply Rinv_0_lt_compat; assumption].
      - apply (Rmult_le_reg_r (A * C)); [assumption|].
        replace (B * B / (A * C) * (A * C)) with (B * B) by (field; lra). lra. }
    lra.
  - intros c Hc.
    rewrite loss_on_vectors;
      [| rewrite length_map; exact Hp | exact He | exact Hn
       | apply Forall_map; eapply Forall_impl; [exact Hpn|]; intros v Hv; cbv beta;
         apply Rmult_le_pos; lra
       | exact Hen
       | rewrite wsum_scale_both; fold A;
         assert (0 < c * c * A)
           by (apply Rmult_lt_0_compat; [apply Rmult_lt_0_compat|]; lra); lra
       | exact HC ].
    rewrite wsum_scale_l, wsum_scale_both. fold A B C. do 2 f_equal. field. lra.
  - rewrite loss_on_vectors by assumption. fold A. do 2 f_equal. field. lra.
Qed.

Lemma overlap_loss_range_witness :
  exists loss,
    overlap_loss_fn (AssertionError "") (vector [1; 0]) (vector [1; 1]) (vector [1; 1])
    = inr (Some loss) /\
    loss = 1 - wsum [1; 1] [1; 0] [1; 1] * wsum [1; 1] [1; 0] [1; 1]
               / wsum [1; 1] [1; 0] [1; 0] / wsum [1; 1] [1; 1] [1; 1] /\
    0 <= loss <= 1 /\
    (forall c, 0 < c ->
       overlap_loss_fn (AssertionError "") (vector (map (fun v => c * v) [1; 0]))
         (vector [1; 1]) (vector [1; 1])
       = inr (Some loss)) /\
    overlap_loss_fn (AssertionError "") (vector [1; 0]) (vector [1; 0]) (vector [1; 1])
    = inr (Some 0).
Proof.
  apply (overlap_loss_range (AssertionError "") [1; 0] [1; 1] [1; 1]).
  - reflexivity.
  - reflexivity.
  - simpl. lia.
  - repeat constructor; lra.
  - repeat constructor; lra.
  - repeat constructor; lra.
  - unfold wsum. simpl. lra.
  - unfold wsum. simpl. lra.
Defined.

(** X29: what [overlap_loss_fn] rejects.  A negative entry in the
    prediction or in the expected tensor fails the assertion, whatever
    the shapes and the weights; a single element ([squeeze] leaves a
    tensor of rank 0) is rejected by [torch.dot], and so are vectors of
    different lengths; and for weights that make a weighted norm 0 the
    result is not a finite number. *)
Theorem overlap_loss_rejects (err : Exn) (predicted expected weights : Tensor)
    (p e w : list R) :
  (Exists (fun v => v < 0) (values predicted) \/ Exists (fun v => v < 0) (values expected) ->
   overlap_loss_fn err predicted expected weights = inl err) /\
  (length p = 1%nat -> length e = 1%nat -> length w = 1%nat ->
   Forall (fun v => 0 <= v) p -> Forall (fun v => 0 <= v) e ->
   overlap_loss_fn err (vector p) (vector e) (vector w)
   = inl (RuntimeError "1D tensors expected, but got {}D and {}D tensors")) /\
  (length p = length w -> length e = length w -> length w <> 1%nat ->
   Forall (fun v => 0 <= v) p -> Forall (fun v => 0 <= v) e ->
   wsum w p p = 0 \/ wsum w e e = 0 ->
   overlap_loss_fn err (vector p) (vector e) (vector w) = inr None).
Proof.
  split; [|split].
  - intros H. unfold overlap_loss_fn.
    destruct H as [H | H]; rewrite (nonneg_false _ H);
      [|rewrite andb_false_r]; reflexivity.
  - intros Hp He Hw Hpn Hen. unfold overlap_loss_fn.
    cbn [values vector]. rewrite (nonneg_true p Hpn), (nonneg_true e Hen). cbn [andb negb].
    rewrite !squeeze_single by assumption. reflexivity.
  - intros Hp He Hn Hpn Hen Hz. unfold overlap_loss_fn.
    cbn [values vector]. rewrite (nonneg_true p Hpn), (nonneg_true e Hen). cbn [andb negb].
    rewrite !squeeze_vector by lia.
    unfold vector at 1 2 3. cbn [shape]. rewrite Hp, He.
    unfold broadcast_shapes. cbn [rev app broadcast_rev]. rewrite Nat.eqb_refl.
    cbn [bind ret rev app broadcast_rev]. rewrite Nat.eqb_refl. cbn [bind ret].
    unfold check_dot, dim, vector. cbn [shape values length Nat.eqb andb negb].
    rewrite Hp, He, Nat.eqb_refl. cbn [negb bind ret].
    rewrite !dot_square_wsum.
    destruct (Req_dec_T (wsum w p p) 0); [reflexivity|].
    destruct (Req_dec_T (wsum w e e) 0); [reflexivity|]. destruct Hz; contradiction.
Qed.

End OverlapLoss.

(** ** [swo.py]: [_MeanVarMetric] *)

Module MeanVar.

Local Open Scope Q_scope.

(** The attributes [_n], [_μ] and [_M2] of a [_MeanVarMetric]. *)
Record State : Type := mkState {
  _n : Z;
  _mu : Q;
  _M2 : Q
}.

(** [reset()] *)
Definition reset : State := mkState 0 0 0.

(** [update(output)], in exact arithmetic. *)
Definition update (output_transform : Q -> Q) (s : State) (output : Q) : State :=
  let output := output_transform output in
  let n := (_n s + 1)%Z in
  let delta := output - _mu s in
  let mu := _mu s + (delta - _mu s) / inject_Z n in
  let M2 := _M2 s + (output - mu) * delta in
  mkState n mu M2.

(** [compute()]; [None] is [float("nan")]. *)
Definition compute (s : State) : option Q * option Q * option Q :=
  if (_n s =? 0)%Z then (None, None, None)
  else if (_n s =? 1)%Z then (Some (_mu s), Some 0, None)
  else (Some (_mu s), Some (_M2 s / inject_Z (_n s)),
        Some (_M2 s / inject_Z (_n s - 1))).

(** A fresh metric ([__init__] resets it) after the updates [outputs]. *)
Definition after (output_transform : Q -> Q) (outputs : list Q) : State :=
  fold_left (update output_transform) outputs reset.

Definition mean_of (r : option Q * option Q * option Q) : option Q := r.1.1.

Lemma fold_count (f : Q -> Q) (outputs : list Q) : forall s,
  _n (fold_left (update f) outputs s) = (_n s + Z.of_nat (length outputs))%Z.
Proof.
  induction outputs as [|x l IH]; intros s; [simpl; lia|].
  cbn [fold_left length]. rewrite IH. cbn [update _n]. lia.
Qed.

Lemma after_count (f : Q -> Q) (outputs : list Q) :
  _n (after f outputs) = Z.of_nat (length outputs).
Proof. unfold after. rewrite fold_count. reflexivity. Qed.

Lemma update_mu_proper (f : Q -> Q) (s s' : State) (x : Q) :
  _n s = _n s' -> _mu s == _mu s' -> _mu (update f s x) == _mu (update f s' x).
Proof.
  intros Hn Hmu. unfold update. cbn [_mu _n]. rewrite Hn, Hmu. reflexivity.
Qed.

Lemma fold_mu_proper (f : Q -> Q) (l : list Q) : forall s s',
  _n s = _n s' -> _mu s == _mu s' ->
  _mu (fold_left (update f) l s) == _mu (fold_left (update f) l s').
Proof.
  induction l as [|x l IH]; intros s s' Hn Hmu; [exact Hmu|].
  cbn [fold_left]. apply IH.
  - unfold update. cbn [_n]. rewrite Hn. reflexivity.
  - apply update_mu_proper; assumption.
Qed.

(** X30: what [_MeanVarMetric] reports as the mean (in exact arithmetic,
    with the default [output_transform]).  Without updates the three
    results are NaN; after one update the mean is that value; the second
    update replaces the mean by half the second value, whatever the first
    was, so that from two updates on the reported mean does not depend on
    the first value, and after two updates it is the arithmetic mean only
    if the first value is 0. *)
Theorem mean_var_metric_forgets_first (x1 x1' x2 : Q) (rest : list Q) :
  let f := fun x : Q => x in
  compute (after f []) = (None, None, None) /\
  compute (after f [x1]) = (Some (_mu (after f [x1])), Some 0, None) /\
  _mu (after f [x1]) == x1 /\
  mean_of (compute (after f [x1; x2])) = Some (_mu (after f [x1; x2])) /\
  _mu (after f [x1; x2]) == x2 / 2 /\
  (_mu (after f [x1; x2]) == (x1 + x2) / 2 <-> x1 == 0) /\
  mean_of (compute (after f (x1 :: x2 :: rest)))
  = Some (_mu (after f (x1 :: x2 :: rest))) /\
  _mu (after f (x1 :: x2 :: rest)) == _mu (after f (x1' :: x2 :: rest)).
Proof.
  intros f.
  assert (H1 : forall a, _mu (after f [a]) == a).
  { intros a. unfold after. cbn [fold_left]. unfold update, f, reset. cbn [_mu _n _M2].
    change (inject_Z (0 + 1)) with 1. field. }
  assert (H2 : forall a, _mu (after f [a; x2]) == x2 / 2).
  { intros a. unfold after. cbn [fold_left]. unfold update, f, reset. cbn [_mu _n _M2].
    change (inject_Z (0 + 1)) with 1. change (inject_Z (0 + 1 + 1)) with 2. field. }
  split; [reflexivity|]. split; [reflexivity|]. split; [apply H1|].
  split; [reflexivity|]. split; [apply H2|]. split; [|split].
  - rewrite H2. split; intros H.
    + assert (Hx : x1 == 2 * (x2 / 2) - x2) by (rewrite H; field).
      rewrite Hx. field.
    + rewrite H. field.
  - unfold compute, mean_of. rewrite after_count. cbn [length].
    destruct (Z.eqb_spec (Z.of_nat (S (S (length rest)))) 0); [lia|].
    destruct (Z.eqb_spec (Z.of_nat (S (S (length rest)))) 1); [lia|]. reflexivity.
  - unfold after. cbn [fold_left]. apply fold_mu_proper.
    + reflexivity.
    + change (_mu (after f [x1; x2]) == _mu (after f [x1'; x2])).
      rewrite !H2. reflexivity.
Qed.

End MeanVar.
